(** * Biophysics-KGG: graph core of the knowledge-graph viewer

    A shallow embedding of the algorithmic core of the repository
    (connectivity repair, graph analytics, neighbour index, pathway
    highlighting, automatic layout selection and link curvature) together
    with the properties stated about it.

    Conventions of the embedding.
    - A JavaScript [Set<string>] is an insertion-ordered list without
      repetition ([js_set_add] appends an absent element); a
      [Map<string, V>] whose iteration order is never observed is a
      [gmap string V].
    - A JavaScript [number] that holds a measure (weight, rank, curvature,
      similarity) is a [num]: an exact rational or one of the three
      non-finite doubles.  Rounding is not part of [num]; the analytics
      code is written over an interface of number operations
      ([JsNumber]) and is instantiated both with [num] and with the
      kernel's binary64 floats.
    - Recursion that the source bounds only by its visited set carries a
      fuel argument and returns [OutOfFuel] when it is exhausted; a
      property access on [undefined] returns [TypeError]. *)

From Stdlib Require Import QArith Lia Lqa Floats Uint63 Ascii.
From stdpp Require Import gmap strings list relations pretty.

#[local] Set Warnings "-clear-no-such-hyp".

(** * Part I: the program *)

(** ** Outcomes of a call *)

Inductive result (A : Type) : Type :=
| Ok (a : A)
| TypeError
| OutOfFuel.
Arguments Ok {A} a.
Arguments TypeError {A}.
Arguments OutOfFuel {A}.

Definition rbind {A B : Type} (r : result A) (k : A -> result B) : result B :=
  match r with
  | Ok a => k a
  | TypeError => TypeError
  | OutOfFuel => OutOfFuel
  end.

Notation "x ←ᵣ r ; k" := (rbind r (fun x => k))
  (at level 100, r at next level, k at level 200, right associativity).

(** [forEach]: run [f] over the elements in order, threading the state. *)
Fixpoint forEachM {A S : Type} (f : S -> A -> result S) (xs : list A) (s : S)
  : result S :=
  match xs with
  | [] => Ok s
  | x :: xs' => s' ←ᵣ f s x; forEachM f xs' s'
  end.

(** ** JavaScript numbers, without rounding *)

Inductive num : Type :=
| Fin (q : Q)
| PInf
| NInf
| NaN.

Definition Qltb (x y : Q) : bool := negb (Qle_bool y x).

Definition sign_inf (pos : bool) : num := if pos then PInf else NInf.

Definition nopp (x : num) : num :=
  match x with
  | Fin q => Fin (Qred (- q))
  | PInf => NInf
  | NInf => PInf
  | NaN => NaN
  end.

Definition nadd (x y : num) : num :=
  match x, y with
  | Fin a, Fin b => Fin (Qred (a + b))
  | NaN, _ | _, NaN => NaN
  | PInf, NInf | NInf, PInf => NaN
  | PInf, _ | _, PInf => PInf
  | NInf, _ | _, NInf => NInf
  end.

Definition nsub (x y : num) : num := nadd x (nopp y).

(** Sign of a number as a product factor: [Some true] positive,
    [Some false] negative, [None] zero. *)
Definition qsign (q : Q) : option bool :=
  if Qltb 0 q then Some true else if Qltb q 0 then Some false else None.

Definition nmul (x y : num) : num :=
  match x, y with
  | Fin a, Fin b => Fin (Qred (a * b))
  | NaN, _ | _, NaN => NaN
  | Fin a, PInf | PInf, Fin a =>
      match qsign a with Some s => sign_inf s | None => NaN end
  | Fin a, NInf | NInf, Fin a =>
      match qsign a with Some s => sign_inf (negb s) | None => NaN end
  | PInf, PInf | NInf, NInf => PInf
  | PInf, NInf | NInf, PInf => NInf
  end.

(** Division; a zero divisor is taken as [+0]. *)
Definition ndiv (x y : num) : num :=
  match x, y with
  | Fin a, Fin b =>
      if Qeq_bool b 0
      then match qsign a with Some s => sign_inf s | None => NaN end
      else Fin (Qred (a / b))
  | NaN, _ | _, NaN => NaN
  | Fin _, (PInf | NInf) => Fin 0
  | PInf, Fin b => sign_inf (negb (Qltb b 0))
  | NInf, Fin b => sign_inf (Qltb b 0)
  | (PInf | NInf), (PInf | NInf) => NaN
  end.

(** [x < y] *)
Definition nltb (x y : num) : bool :=
  match x, y with
  | Fin a, Fin b => Qltb a b
  | NaN, _ | _, NaN => false
  | NInf, (Fin _ | PInf) => true
  | Fin _, PInf => true
  | _, _ => false
  end.

(** [x === y] on numbers *)
Definition neqb (x y : num) : bool :=
  match x, y with
  | Fin a, Fin b => Qeq_bool a b
  | PInf, PInf | NInf, NInf => true
  | _, _ => false
  end.

(** Truthiness of a number: [0] and [NaN] are falsy. *)
Definition ntruthy (x : num) : bool :=
  match x with
  | Fin q => negb (Qeq_bool q 0)
  | NaN => false
  | _ => true
  end.

Definition nmax2 (x y : num) : num :=
  match x, y with
  | NaN, _ | _, NaN => NaN
  | _, _ => if nltb x y then y else x
  end.

Definition nmin2 (x y : num) : num :=
  match x, y with
  | NaN, _ | _, NaN => NaN
  | _, _ => if nltb y x then y else x
  end.

Definition nofZ (z : Z) : num := Fin (inject_Z z).
Definition nofnat (n : nat) : num := nofZ (Z.of_nat n).

(** ** The interface of number operations used by the code *)

Class JsNumber (N : Type) : Type := {
  jofZ : Z -> N;
  (** a decimal literal [n/d] *)
  jlit : Z -> positive -> N;
  jadd : N -> N -> N;
  jsub : N -> N -> N;
  jmul : N -> N -> N;
  jdiv : N -> N -> N;
  (** [x < y] *)
  jltb : N -> N -> bool;
  jtruthy : N -> bool;
  jmax2 : N -> N -> N;
  jmin2 : N -> N -> N;
  jinfinity : N;
  jneg_infinity : N
}.

Definition jofnat {N : Type} `{JsNumber N} (n : nat) : N := jofZ (Z.of_nat n).

#[export] Instance num_JsNumber : JsNumber num := {|
  jofZ := nofZ;
  jlit := fun n d => Fin (n # d);
  jadd := nadd;
  jsub := nsub;
  jmul := nmul;
  jdiv := ndiv;
  jltb := nltb;
  jtruthy := ntruthy;
  jmax2 := nmax2;
  jmin2 := nmin2;
  jinfinity := PInf;
  jneg_infinity := NInf
|}.

(** Binary64, as the engine computes. *)
Definition f64_of_Z (z : Z) : float :=
  if (z <? 0)%Z
  then PrimFloat.opp (PrimFloat.of_uint63 (Uint63.of_Z (- z)))
  else PrimFloat.of_uint63 (Uint63.of_Z z).

Definition f64_max2 (x y : float) : float :=
  if PrimFloat.is_nan x || PrimFloat.is_nan y then PrimFloat.nan
  else if PrimFloat.ltb x y then y else x.

Definition f64_min2 (x y : float) : float :=
  if PrimFloat.is_nan x || PrimFloat.is_nan y then PrimFloat.nan
  else if PrimFloat.ltb y x then y else x.

#[export] Instance f64_JsNumber : JsNumber float := {|
  jofZ := f64_of_Z;
  jlit := fun n d => PrimFloat.div (f64_of_Z n) (f64_of_Z (Z.pos d));
  jadd := PrimFloat.add;
  jsub := PrimFloat.sub;
  jmul := PrimFloat.mul;
  jdiv := PrimFloat.div;
  jltb := PrimFloat.ltb;
  jtruthy := fun x => negb (PrimFloat.eqb x PrimFloat.zero || PrimFloat.is_nan x);
  jmax2 := f64_max2;
  jmin2 := f64_min2;
  jinfinity := PrimFloat.infinity;
  jneg_infinity := PrimFloat.neg_infinity
|}.


(** [Math.max(...xs)] and [Math.min(...xs)] *)
Definition Math_max {N : Type} `{JsNumber N} (xs : list N) : N :=
  foldl jmax2 jneg_infinity xs.
Definition Math_min {N : Type} `{JsNumber N} (xs : list N) : N :=
  foldl jmin2 jinfinity xs.

(** [o || d] for a number that may be [undefined] *)
Definition num_or {N : Type} `{JsNumber N} (o : option N) (d : N) : N :=
  match o with
  | Some x => if jtruthy x then x else d
  | None => d
  end.

(** ** JavaScript sets of strings and the adjacency map *)

Definition js_set_has (x : string) (s : list string) : bool :=
  bool_decide (x ∈ s).

Definition js_set_add (x : string) (s : list string) : list string :=
  if js_set_has x s then s else s ++ [x].

(** [map.get(k)?.add(v)] *)
Definition adj_add (k v : string) (m : gmap string (list string))
  : gmap string (list string) :=
  alter (js_set_add v) k m.

(** The construction shared by [useNeighborMap], [connectIsolatedNodes] and
    [detectCommunities]: an empty set for every node id, then both directions
    of every link. *)
Definition build_adjacency (ids : list string) (ends : list (string * string))
  : gmap string (list string) :=
  let init := foldl (fun m i => <[i := []]> m) ∅ ids in
  foldl (fun m '(s, t) => adj_add t s (adj_add s t m)) init ends.

(** [map.get(a)], an absent entry read as the empty set. *)
Definition neighbors (m : gmap string (list string)) (a : string) : list string :=
  default [] (m !! a).

(** ** Graph data (components/Graph/types.ts, ForceGraph/types.ts) *)

Record Node (N : Type) : Type := mkNode {
  id : string;
  group : Z;
  ntype : option string;
  context : option (list string);
  size : option N;
  pageRank : option N
}.
Arguments mkNode {N}.
Arguments id {N}.
Arguments group {N}.
Arguments ntype {N}.
Arguments context {N}.
Arguments size {N}.
Arguments pageRank {N}.

(** A link end is [string | Node]. *)
Inductive LinkEnd (N : Type) : Type :=
| EndId (s : string)
| EndNode (n : Node N).
Arguments EndId {N}.
Arguments EndNode {N}.

(** [typeof e === 'string' ? e : e.id] *)
Definition end_id {N : Type} (e : LinkEnd N) : string :=
  match e with
  | EndId s => s
  | EndNode n => id n
  end.

Record Link (N : Type) : Type := mkLink {
  source : LinkEnd N;
  target : LinkEnd N;
  value : N;
  ltype : option string;
  lcontext : option string;
  curvature : option N;
  isInferred : option bool
}.
Arguments mkLink {N}.
Arguments source {N}.
Arguments target {N}.
Arguments value {N}.
Arguments ltype {N}.
Arguments lcontext {N}.
Arguments curvature {N}.
Arguments isInferred {N}.

Record GraphData (N : Type) : Type := mkGraph {
  nodes : list (Node N);
  links : list (Link N)
}.
Arguments mkGraph {N}.
Arguments nodes {N}.
Arguments links {N}.

Definition sourceId {N : Type} (l : Link N) : string := end_id (source l).
Definition targetId {N : Type} (l : Link N) : string := end_id (target l).
Definition link_ends {N : Type} (l : Link N) : string * string :=
  (sourceId l, targetId l).

(** [nodes.find(n => n.id === x)] *)
Definition find_node {N : Type} (x : string) (ns : list (Node N)) : option (Node N) :=
  List.find (fun n => String.eqb (id n) x) ns.

(** The adjacency map of the given nodes and links. *)
Definition adjacency_of {N : Type} (ns : list (Node N)) (ls : list (Link N))
  : gmap string (list string) :=
  build_adjacency (id <$> ns) (link_ends <$> ls).

(** ** hooks/useNeighborMap *)

Definition useNeighborMap {N : Type} (data : GraphData N) : gmap string (list string) :=
  adjacency_of (nodes data) (links data).

(** ** utils/linkCurvature *)

(** An object reference: [addr] is the identity that [===] and [indexOf]
    compare, [obj] the fields. *)
Record Ref (A : Type) : Type := mkRef {
  addr : nat;
  obj : A
}.
Arguments mkRef {A}.
Arguments addr {A}.
Arguments obj {A}.

(** [xs.indexOf(x)], [-1] when absent *)
Fixpoint indexOf_from {A : Type} (i : Z) (x : Ref A) (xs : list (Ref A)) : Z :=
  match xs with
  | [] => (-1)%Z
  | y :: ys => if Nat.eqb (addr y) (addr x) then i else indexOf_from (i + 1)%Z x ys
  end.
Definition indexOf {A : Type} (x : Ref A) (xs : list (Ref A)) : Z :=
  indexOf_from 0%Z x xs.

Definition is_parallel {N : Type} (sId tId : string) (l : Ref (Link N)) : bool :=
  (String.eqb (sourceId (obj l)) sId && String.eqb (targetId (obj l)) tId)
  || (String.eqb (sourceId (obj l)) tId && String.eqb (targetId (obj l)) sId).

Definition calculateLinkCurvature {N : Type} `{JsNumber N}
    (link : Ref (Link N)) (allLinks : list (Ref (Link N))) : N :=
  let sId := sourceId (obj link) in
  let tId := targetId (obj link) in
  if String.eqb sId tId then jlit 5 10
  else
    let parallelLinks := List.filter (is_parallel sId tId) allLinks in
    if Nat.eqb (length parallelLinks) 1 then jofZ 0
    else
      let index := indexOf link parallelLinks in
      let curvatureSpacing := jlit 5 10 in
      jmul curvatureSpacing
        (jsub (jofZ index)
              (jdiv (jsub (jofnat (length parallelLinks)) (jofZ 1)) (jofZ 2))).

(** [enrichLinksWithCurvature(links)] with [nodes] left undefined *)
Definition enrichLinksWithCurvature {N : Type} `{JsNumber N}
    (links : list (Ref (Link N))) : list (Link N) :=
  List.map (fun link =>
    let l := obj link in
    mkLink (source l) (target l) (value l) (ltype l) (lcontext l)
           (Some (calculateLinkCurvature link links)) (isInferred l)) links.

(** ** utils/textProcessor: connectivity repair *)

Definition is_word_char (c : ascii) : bool :=
  let n := nat_of_ascii c in
  (((48 <=? n) && (n <=? 57)) || ((65 <=? n) && (n <=? 90))
   || (n =? 95) || ((97 <=? n) && (n <=? 122)))%nat.

Definition lower_char (c : ascii) : ascii :=
  let n := nat_of_ascii c in
  if ((65 <=? n) && (n <=? 90))%nat then ascii_of_nat (n + 32) else c.

Fixpoint toLowerCase (s : string) : string :=
  match s with
  | EmptyString => EmptyString
  | String c r => String (lower_char c) (toLowerCase r)
  end.

(** [xs.join(' ')] *)
Fixpoint join_space (xs : list string) : string :=
  match xs with
  | [] => EmptyString
  | [x] => x
  | x :: r => x +:+ " "%string +:+ join_space r
  end.

(** [s.split(/\W+/)]: the pieces between maximal runs of non-word
    characters; [cur] is the piece being read, [insep] tells that the last
    character read was a separator. *)
Fixpoint split_nonword (s : string) (cur : string) (insep : bool) : list string :=
  match s with
  | EmptyString => [cur]
  | String c r =>
      if is_word_char c then split_nonword r (cur +:+ String c EmptyString) false
      else if insep then split_nonword r cur true
      else cur :: split_nonword r EmptyString true
  end.

(** [new Set(xs)] *)
Definition js_set_of (xs : list string) : list string :=
  foldl (fun s x => js_set_add x s) [] xs.

Definition context_words (ctx : list string) : list string :=
  js_set_of (split_nonword (toLowerCase (join_space ctx)) EmptyString false).

Definition calculateNodeSimilarity {N : Type} `{JsNumber N}
    (node1 node2 : Node N) : N :=
  let similarity := jofZ 0 in
  let similarity :=
    if Z.eqb (group node1) (group node2)
    then jadd similarity (jlit 5 10) else similarity in
  let similarity :=
    match context node1, context node2 with
    | Some c1, Some c2 =>
        let words1 := context_words c1 in
        let words2 := context_words c2 in
        let sharedWords := js_set_of (List.filter (fun x => js_set_has x words2) words1) in
        jadd similarity
          (jdiv (jofnat (length sharedWords))
                (jofnat (Nat.max (length words1) (length words2))))
    | _, _ => similarity
    end in
  let similarity :=
    if bool_decide (ntype node1 = ntype node2)
    then jadd similarity (jlit 3 10) else similarity in
  similarity.

(** [dfs(nodeId, component)]; the state is [(visited, component)]. *)
Fixpoint dfs (fuel : nat) (adjacencyMap : gmap string (list string))
    (nodeId : string) (st : list string * list string)
  : result (list string * list string) :=
  match fuel with
  | O => OutOfFuel
  | S fuel' =>
      let st1 := (js_set_add nodeId st.1, js_set_add nodeId st.2) in
      match adjacencyMap !! nodeId with
      | None => Ok st1
      | Some nbrs =>
          forEachM (fun st neighbor =>
            if js_set_has neighbor st.1 then Ok st
            else dfs fuel' adjacencyMap neighbor st) nbrs st1
      end
  end.

(** The body of the loop over the neighbours inside [dfs]. *)
Definition dfs_step (adjacencyMap : gmap string (list string)) (fuel : nat)
    (st : list string * list string) (neighbor : string)
  : result (list string * list string) :=
  if js_set_has neighbor st.1 then Ok st else dfs fuel adjacencyMap neighbor st.

(** The loop over [nodes] that collects the components;
    the state is [(visited, components)]. *)
Definition components_body {N : Type} (fuel : nat)
    (adjacencyMap : gmap string (list string))
    (st : list string * list (list string)) (node : Node N)
  : result (list string * list (list string)) :=
  if js_set_has (id node) st.1 then Ok st
  else
    r ←ᵣ dfs fuel adjacencyMap (id node) (st.1, []);
    Ok (r.1, st.2 ++ [r.2]).

Definition findComponents {N : Type} (fuel : nat)
    (adjacencyMap : gmap string (list string)) (nodes : list (Node N))
  : result (list string * list (list string)) :=
  forEachM (components_body fuel adjacencyMap) nodes ([], []).

(** [components.sort((a, b) => b.size - a.size)]: the sort is stable, so it
    is the insertion of each component, in order, behind the ones that are
    not smaller. *)
Fixpoint insert_by_size (c : list string) (sorted : list (list string))
  : list (list string) :=
  match sorted with
  | [] => [c]
  | d :: ds =>
      if (length d <? length c)%nat then c :: d :: ds
      else d :: insert_by_size c ds
  end.
Definition sort_by_size (cs : list (list string)) : list (list string) :=
  foldl (fun acc c => insert_by_size c acc) [] cs.

(** The search for the best match in the main component;
    the state is [bestMatch = { nodeId, similarity }]. *)
Definition bestMatch_body {N : Type} `{JsNumber N} (nodes : list (Node N))
    (isolatedNode : option (Node N)) (bestMatch : string * N) (mainNodeId : string)
  : result (string * N) :=
  match isolatedNode, find_node mainNodeId nodes with
  | Some n1, Some mainNode =>
      let similarity := calculateNodeSimilarity n1 mainNode in
      if jltb bestMatch.2 similarity
      then Ok (mainNodeId, similarity) else Ok bestMatch
  | _, _ => TypeError
  end.

Definition findBestMatch {N : Type} `{JsNumber N} (nodes : list (Node N))
    (isolatedNode : option (Node N)) (mainComponent : list string)
  : result (string * N) :=
  forEachM (bestMatch_body nodes isolatedNode) mainComponent (EmptyString, jofZ (-1)).

Definition inferred_link {N : Type} `{JsNumber N} (s t : string) : Link N :=
  mkLink (EndId s) (EndId t) (jofZ 1) (Some "inferred_relation"%string)
         (Some "Inferred relationship based on domain similarity"%string) None None.

Definition dfs_fuel {N : Type} (nodes : list (Node N)) (links : list (Link N)) : nat :=
  S (length nodes + 2 * length links).

(** The body of the loop over the components after the main one. *)
Definition repair_body {N : Type} `{JsNumber N} (nodes : list (Node N))
    (mainComponent : list string) (newLinks : list (Link N)) (component : list string)
  : result (list (Link N)) :=
  match component with
  | [] => TypeError
  | isolatedNodeId :: _ =>
      let isolatedNode := find_node isolatedNodeId nodes in
      bestMatch ←ᵣ findBestMatch nodes isolatedNode mainComponent;
      Ok (newLinks ++ [inferred_link isolatedNodeId bestMatch.1])
  end.

Definition connectIsolatedNodes {N : Type} `{JsNumber N}
    (nodes : list (Node N)) (links : list (Link N)) : result (GraphData N) :=
  let adjacencyMap := adjacency_of nodes links in
  r ←ᵣ findComponents (dfs_fuel nodes links) adjacencyMap nodes;
  let components := r.2 in
  if (length components <=? 1)%nat then Ok (mkGraph nodes links)
  else
    match sort_by_size components with
    | [] => Ok (mkGraph nodes links)
    | mainComponent :: others =>
        newLinks ←ᵣ forEachM (repair_body nodes mainComponent) others links;
        Ok (mkGraph nodes newLinks)
    end.

(** ** utils/graphAnalytics *)

Definition dampingFactor {N : Type} `{JsNumber N} : N := jlit 85 100.
Definition iterations : nat := 100.

(** [nodeMap]: per node id the pair [(in, out)] of weighted degrees;
    [degree_step] is the body of the loop over the links. *)
Definition degree_step {N : Type} `{JsNumber N} (m : gmap string (N * N))
    (link : Link N) : gmap string (N * N) :=
  let m := alter (fun d => (d.1, jadd d.2 (value link))) (sourceId link) m in
  alter (fun d => (jadd d.1 (value link), d.2)) (targetId link) m.

Definition degreeMap {N : Type} `{JsNumber N}
    (nodes : list (Node N)) (links : list (Link N)) : gmap string (N * N) :=
  let nodeMap := foldl (fun m node => <[id node := (jofZ 0, jofZ 0)]> m) ∅ nodes in
  foldl degree_step nodeMap links.

Definition initialRanks {N : Type} `{JsNumber N} (nodes : list (Node N))
  : gmap string N :=
  foldl (fun m node => <[id node := jdiv (jofZ 1) (jofnat (length nodes))]> m) ∅ nodes.

(** The body of the loop over the incoming links of a node. *)
Definition rankSum_step {N : Type} `{JsNumber N} (pageRanks : gmap string N)
    (nodeMap : gmap string (N * N)) (rankSum : N) (link : Link N) : N :=
  let sourceRank := num_or (pageRanks !! sourceId link) (jofZ 0) in
  let sourceDegree := num_or (snd <$> nodeMap !! sourceId link) (jofZ 1) in
  jadd rankSum (jdiv (jmul sourceRank (value link)) sourceDegree).

(** [newRank] of the node whose id is [nodeId]. *)
Definition newRank {N : Type} `{JsNumber N}
    (nodes : list (Node N)) (links : list (Link N))
    (nodeMap : gmap string (N * N)) (pageRanks : gmap string N) (nodeId : string) : N :=
  let incomingLinks :=
    List.filter (fun l => String.eqb (targetId l) nodeId) links in
  let rankSum := foldl (rankSum_step pageRanks nodeMap) (jofZ 0) incomingLinks in
  jadd (jdiv (jsub (jofZ 1) dampingFactor) (jofnat (length nodes)))
       (jmul dampingFactor rankSum).

(** One pass of the loop body: [newRanks] from [pageRanks]. *)
Definition rankStep {N : Type} `{JsNumber N}
    (nodes : list (Node N)) (links : list (Link N))
    (nodeMap : gmap string (N * N)) (pageRanks : gmap string N) : gmap string N :=
  foldl (fun newRanks node =>
    <[id node := newRank nodes links nodeMap pageRanks (id node)]> newRanks) ∅ nodes.

(** [pageRanks] when the loop has run [n] times. *)
Definition pageRankLoop {N : Type} `{JsNumber N} (n : nat)
    (nodes : list (Node N)) (links : list (Link N)) : gmap string N :=
  Nat.iter n (rankStep nodes links (degreeMap nodes links)) (initialRanks nodes).

Definition calculateCentrality {N : Type} `{JsNumber N}
    (nodes : list (Node N)) (links : list (Link N)) : list (Node N) :=
  let pageRanks := pageRankLoop iterations nodes links in
  let maxRank := Math_max (snd <$> map_to_list pageRanks) in
  List.map (fun node =>
    let rank := num_or (pageRanks !! id node) (jofZ 0) in
    mkNode (id node) (group node) (ntype node) (context node)
      (Some (jadd (jofZ 5) (jmul (jdiv rank maxRank) (jofZ 25))))
      (Some (jdiv rank maxRank))) nodes.

(** The new [value] of a link of weight [v]. *)
Definition normalizedWeight {N : Type} `{JsNumber N} (minWeight weightRange v : N) : N :=
  if jltb (jofZ 0) weightRange
  then jadd (jofZ 1) (jmul (jdiv (jsub v minWeight) weightRange) (jofZ 4))
  else jofZ 1.

Definition calculateLinkWeights {N : Type} `{JsNumber N}
    (links : list (Link N)) : list (Link N) :=
  let maxWeight := Math_max (value <$> links) in
  let minWeight := Math_min (value <$> links) in
  let weightRange := jsub maxWeight minWeight in
  List.map (fun link =>
    mkLink (source link) (target link)
      (normalizedWeight minWeight weightRange (value link))
      (ltype link) (lcontext link) (curvature link) (isInferred link)) links.

(** [assignCommunity(nodeId, communityId)];
    the state is [(visited, communities)]. *)
Fixpoint assignCommunity (fuel : nat) (adjacencyList : gmap string (list string))
    (nodeId : string) (communityId : Z) (st : list string * gmap string Z)
  : result (list string * gmap string Z) :=
  match fuel with
  | O => OutOfFuel
  | S fuel' =>
      if js_set_has nodeId st.1 then Ok st
      else
        let st1 := (js_set_add nodeId st.1, <[nodeId := communityId]> st.2) in
        match adjacencyList !! nodeId with
        | None => Ok st1
        | Some nbrs =>
            forEachM (fun st neighbor =>
              if js_set_has neighbor st.1 then Ok st
              else assignCommunity fuel' adjacencyList neighbor communityId st)
              nbrs st1
        end
  end.

(** The state of the loop over [nodes] is
    [(communityId, (visited, communities))]. *)
Definition detectCommunities {N : Type}
    (nodes : list (Node N)) (links : list (Link N)) : result (gmap string Z) :=
  let adjacencyList := adjacency_of nodes links in
  r ←ᵣ forEachM (fun st node =>
         if js_set_has (id node) st.2.1 then Ok st
         else
           r ←ᵣ assignCommunity (S (dfs_fuel nodes links)) adjacencyList
                  (id node) st.1 st.2;
           Ok ((st.1 + 1)%Z, r)) nodes (0%Z, ([], ∅));
  Ok r.2.2.

(** [communities[node.id] || node.group] *)
Definition community_or_group {N : Type} (communities : gmap string Z)
    (node : Node N) : Z :=
  match communities !! id node with
  | Some c => if Z.eqb c 0 then group node else c
  | None => group node
  end.

Definition analyzeGraph {N : Type} `{JsNumber N} (data : GraphData N)
  : result (GraphData N) :=
  let nodes := calculateCentrality (nodes data) (links data) in
  let links := calculateLinkWeights (links data) in
  communities ←ᵣ detectCommunities nodes links;
  Ok (mkGraph
        (List.map (fun node =>
           mkNode (id node) (community_or_group communities node) (ntype node)
                  (context node) (size node) (pageRank node)) nodes)
        links).

(** ** hooks/useGraphHighlight *)

Record HighlightState : Type := mkHighlight {
  hl_nodes : list string;
  hl_links : list string
}.

(** [`link-${index}`] *)
Definition link_key (index : nat) : string := "link-"%string +:+ pretty index.

(** What the loop over the neighbours does with one of them, at the depth
    of the entry taken from the queue. *)
Definition pathway_visit (depth : nat)
    (st : list string * list string * list (string * nat)) (neighborId : string)
  : list string * list string * list (string * nat) :=
  if js_set_has neighborId st.1.1 then st
  else (js_set_add neighborId st.1.1, js_set_add neighborId st.1.2,
        st.2 ++ [(neighborId, S depth)]).

(** The [while (queue.length > 0)] loop of pathway mode; the state is
    [(visited, highlightedNodes, queue)], a queue entry is [(id, depth)]. *)
Fixpoint pathwayLoop (fuel : nat) (neighborMap : gmap string (list string))
    (maxDepth : nat) (st : list string * list string * list (string * nat))
  : result (list string * list string) :=
  match st.2 with
  | [] => Ok (st.1.1, st.1.2)
  | current :: rest =>
      match fuel with
      | O => OutOfFuel
      | S fuel' =>
          if (maxDepth <=? current.2)%nat
          then pathwayLoop fuel' neighborMap maxDepth (st.1, rest)
          else
            let neighbors := neighbors neighborMap current.1 in
            pathwayLoop fuel' neighborMap maxDepth
              (foldl (pathway_visit current.2) (st.1, rest) neighbors)
      end
  end.

(** [data.links.forEach((link, index) => ...)] with the test [keep]. *)
Definition keep_link {N : Type} (keep : Link N -> bool) (hl : list string)
    (il : nat * Link N) : list string :=
  if keep il.2 then js_set_add (link_key il.1) hl else hl.

Definition highlight_links {N : Type} (keep : Link N -> bool) (links : list (Link N))
  : list string :=
  foldl (keep_link keep) [] (imap (fun i l => (i, l)) links).

Definition pathway_fuel (neighborMap : gmap string (list string)) : nat :=
  S (length (concat (snd <$> map_to_list neighborMap))).

(** The memoised computation of [highlightState] for the current
    [highlightedNode]. *)
Definition highlightState {N : Type} (data : GraphData N)
    (neighborMap : gmap string (list string)) (pathwayMode : bool)
    (maxDepth : nat) (highlightedNode : option (Node N)) : result HighlightState :=
  match highlightedNode with
  | None => Ok (mkHighlight [] [])
  | Some node =>
      if pathwayMode then
        r ←ᵣ pathwayLoop (pathway_fuel neighborMap) neighborMap maxDepth
               ([id node], [id node], [(id node, O)]);
        let highlightedNodes := r.2 in
        Ok (mkHighlight highlightedNodes
              (highlight_links (fun link =>
                 js_set_has (sourceId link) highlightedNodes
                 && js_set_has (targetId link) highlightedNodes) (links data)))
      else
        let neighbors := neighbors neighborMap (id node) in
        let highlightedNodes :=
          foldl (fun hn i => js_set_add i hn) [id node] neighbors in
        Ok (mkHighlight highlightedNodes
              (highlight_links (fun link =>
                 String.eqb (sourceId link) (id node)
                 || String.eqb (targetId link) (id node)) (links data)))
  end.

(** ** utils/graphLayouts: the automatic choice *)

Inductive Layout : Type :=
| TreeLayout
| DagreLayout
| CircularLayout
| ForceLayout.

Definition hasLoops {N : Type} (links : list (Link N)) : bool :=
  existsb (fun l => String.eqb (sourceId l) (targetId l)) links.

Definition parentCount {N : Type} (nodes : list (Node N)) (links : list (Link N))
  : gmap string nat :=
  let init := foldl (fun m n => <[id n := O]> m) ∅ nodes in
  foldl (fun m link =>
    <[targetId link := (default O (m !! targetId link) + 1)%nat]> m) init links.

Definition isTree {N : Type} (nodes : list (Node N)) (links : list (Link N)) : bool :=
  forallb (fun kc => (kc.2 <=? 1)%nat) (map_to_list (parentCount nodes links)).

Definition avgDegree {N : Type} `{JsNumber N} (data : GraphData N) : N :=
  jdiv (jofnat (length (links data) * 2)) (jofnat (length (nodes data))).

Definition autoLayoutChoice {N : Type} `{JsNumber N} (data : GraphData N) : Layout :=
  if isTree (nodes data) (links data) && negb (hasLoops (links data)) then TreeLayout
  else if jltb (avgDegree data) (jofZ 3) && (10 <? length (links data))%nat
       then DagreLayout
  else if (length (nodes data) <? 50)%nat && negb (hasLoops (links data))
       then CircularLayout
  else ForceLayout.

(** [applyAutoLayout], over the three layout procedures it dispatches to. *)
Definition applyAutoLayout {N : Type} `{JsNumber N}
    (applyTreeLayout applyDagreLayout applyCircularLayout : GraphData N -> GraphData N)
    (data : GraphData N) : GraphData N :=
  match autoLayoutChoice data with
  | TreeLayout => applyTreeLayout data
  | DagreLayout => applyDagreLayout data
  | CircularLayout => applyCircularLayout data
  | ForceLayout => data
  end.

(** The body of the loop over the neighbours inside [assignCommunity]. *)
Definition assignCommunity_step (adjacencyList : gmap string (list string)) (fuel : nat)
    (communityId : Z) (st : list string * gmap string Z) (neighbor : string)
  : result (list string * gmap string Z) :=
  if js_set_has neighbor st.1 then Ok st
  else assignCommunity fuel adjacencyList neighbor communityId st.

(** The body of the loop over [nodes] in [detectCommunities]. *)
Definition communities_body {N : Type} (fuel : nat)
    (adjacencyList : gmap string (list string))
    (st : Z * (list string * gmap string Z)) (node : Node N)
  : result (Z * (list string * gmap string Z)) :=
  if js_set_has (id node) st.2.1 then Ok st
  else
    r ←ᵣ assignCommunity fuel adjacencyList (id node) st.1 st.2;
    Ok ((st.1 + 1)%Z, r).

(** ** hooks/useGraphHighlight: the handlers that read the state *)

Definition isNodeHighlighted (highlightState : HighlightState) (nodeId : string) : bool :=
  js_set_has nodeId (hl_nodes highlightState).

Definition isLinkHighlighted {N : Type} (highlightState : HighlightState) (link : Link N)
  : bool :=
  js_set_has (sourceId link) (hl_nodes highlightState)
  && js_set_has (targetId link) (hl_nodes highlightState).

(** ** hooks/useNeighborMap: the multi-hop map and the link map *)

(** The entry [{ direct, multiHop }] of one start node.  The loop is the
    one of pathway mode, with the set [multiHop], empty at first, where
    pathway mode has [highlightedNodes]. *)
Definition multiHopEntry (directMap : gmap string (list string)) (maxDepth : nat)
    (startId : string) : result (list string * list string) :=
  let direct := neighbors directMap startId in
  r ←ᵣ pathwayLoop (pathway_fuel directMap) directMap maxDepth
         ([startId], [], [(startId, O)]);
  let multiHop := r.2 in
  Ok (direct, multiHop).

(** The body of the loop over the start nodes. *)
Definition multiHop_body {N : Type} (directMap : gmap string (list string))
    (maxDepth : nat) (map : gmap string (list string * list string)) (startNode : Node N)
  : result (gmap string (list string * list string)) :=
  e ←ᵣ multiHopEntry directMap maxDepth (id startNode);
  Ok (<[id startNode := e]> map).

Definition useMultiHopNeighborMap {N : Type} (data : GraphData N) (maxDepth : nat)
  : result (gmap string (list string * list string)) :=
  let directMap := adjacency_of (nodes data) (links data) in
  forEachM (multiHop_body directMap maxDepth) (nodes data) ∅.

(** The value [{ sourceId, targetId, weight }] that [useLinkNeighborMap]
    stores for a link. *)
Record LinkNeighbors (N : Type) : Type := mkLinkNeighbors {
  ln_sourceId : string;
  ln_targetId : string;
  ln_weight : N
}.
Arguments mkLinkNeighbors {N}.
Arguments ln_sourceId {N}.
Arguments ln_targetId {N}.
Arguments ln_weight {N}.

Definition linkNeighbors {N : Type} `{JsNumber N} (link : Link N) : LinkNeighbors N :=
  mkLinkNeighbors (sourceId link) (targetId link) (num_or (Some (value link)) (jofZ 1)).

Definition useLinkNeighborMap {N : Type} `{JsNumber N} (data : GraphData N)
  : gmap string (LinkNeighbors N) :=
  foldl (fun map il => <[link_key il.1 := linkNeighbors il.2]> map) ∅
        (imap (fun i l => (i, l)) (links data)).

(** ** hooks/useMultiSelection *)

(** [set.delete(x)] *)
Definition js_set_delete (x : string) (s : list string) : list string :=
  List.filter (fun y => negb (String.eqb y x)) s.

(** The modifier keys of a [MouseEvent]. *)
Record MouseEvent : Type := mkMouseEvent {
  ctrlKey : bool;
  metaKey : bool;
  shiftKey : bool;
  altKey : bool
}.

(** The three pieces of state of the hook.  A handler is a function from
    the state at the time of the event to the state after its updates are
    applied; of several updates of one piece the last one wins. *)
Record MultiSelectionState (N : Type) : Type := mkSelection {
  selectedNodes : list string;
  hoveredNode : option (Node N);
  lastSelectedNode : option (Node N)
}.
Arguments mkSelection {N}.
Arguments selectedNodes {N}.
Arguments hoveredNode {N}.
Arguments lastSelectedNode {N}.

(** [useMultiSelection(initialSelection)]: the initial state. *)
Definition useMultiSelection {N : Type} (initialSelection : option (list string))
  : MultiSelectionState N :=
  mkSelection (default [] initialSelection) None None.

Definition handleNodeSelect {N : Type} (st : MultiSelectionState N)
    (node : Node N) (event : MouseEvent) : MultiSelectionState N :=
  let isMultiSelectKey :=
    ctrlKey event || metaKey event || shiftKey event || altKey event in
  let selected :=
    if isMultiSelectKey then
      let prev := selectedNodes st in
      if js_set_has (id node) prev then js_set_delete (id node) prev
      else js_set_add (id node) prev
    else
      let wasOnlySelection :=
        js_set_has (id node) (selectedNodes st)
        && Nat.eqb (length (selectedNodes st)) 1 in
      if wasOnlySelection then [] else [id node] in
  mkSelection selected (hoveredNode st) (Some node).

Definition handleNodeHover {N : Type} (st : MultiSelectionState N)
    (node : option (Node N)) : MultiSelectionState N :=
  mkSelection (selectedNodes st) node (lastSelectedNode st).

Definition clearSelection {N : Type} (st : MultiSelectionState N)
  : MultiSelectionState N :=
  mkSelection [] (hoveredNode st) None.

Definition selectNodes {N : Type} (st : MultiSelectionState N) (nodeIds : list string)
  : MultiSelectionState N :=
  mkSelection (foldl (fun next i => js_set_add i next) (selectedNodes st) nodeIds)
              (hoveredNode st) (lastSelectedNode st).

Definition deselectNodes {N : Type} (st : MultiSelectionState N) (nodeIds : list string)
  : MultiSelectionState N :=
  mkSelection (foldl (fun next i => js_set_delete i next) (selectedNodes st) nodeIds)
              (hoveredNode st) (lastSelectedNode st).

Definition isNodeSelected {N : Type} (st : MultiSelectionState N) (nodeId : string)
  : bool :=
  js_set_has nodeId (selectedNodes st).

(** ** utils/graphAnalytics: getMultiHopRelationships *)

(** An entry [{ node, relationship: { type, weight } }]. *)
Record DirectRelationship (N : Type) : Type := mkDirectRelationship {
  dr_node : option (Node N);
  dr_type : option string;
  dr_weight : N
}.
Arguments mkDirectRelationship {N}.
Arguments dr_node {N}.
Arguments dr_type {N}.
Arguments dr_weight {N}.

Record MultiHopRelationships (N : Type) : Type := mkMultiHopRelationships {
  directRelationships : list (DirectRelationship N);
  targetNodeId : option string
}.
Arguments mkMultiHopRelationships {N}.
Arguments directRelationships {N}.
Arguments targetNodeId {N}.

(** The test of the [filter]: the link has [nodeId] at one end. *)
Definition is_incident {N : Type} (nodeId : string) (link : Link N) : bool :=
  String.eqb (sourceId link) nodeId || String.eqb (targetId link) nodeId.

(** The function of the [map]. *)
Definition directRelationship {N : Type} (nodeId : string) (nodes : list (Node N))
    (link : Link N) : DirectRelationship N :=
  let otherId := if String.eqb (sourceId link) nodeId then targetId link
                 else sourceId link in
  mkDirectRelationship (find_node otherId nodes) (ltype link) (value link).

(** [sort((a, b) => b.relationship.weight - a.relationship.weight)]: the
    sort is stable, so it is the insertion of each entry, in order, behind
    the ones whose weight is not smaller. *)
Fixpoint insert_by_weight {N : Type} `{JsNumber N} (r : DirectRelationship N)
    (sorted : list (DirectRelationship N)) : list (DirectRelationship N) :=
  match sorted with
  | [] => [r]
  | d :: ds =>
      if jltb (dr_weight d) (dr_weight r) then r :: d :: ds
      else d :: insert_by_weight r ds
  end.
Definition sort_by_weight {N : Type} `{JsNumber N} (rs : list (DirectRelationship N))
  : list (DirectRelationship N) :=
  foldl (fun acc r => insert_by_weight r acc) [] rs.

Definition getMultiHopRelationships {N : Type} `{JsNumber N} (nodeId : string)
    (targetNodeId : option string) (data : GraphData N) : MultiHopRelationships N :=
  let directRelationships :=
    take 3 (sort_by_weight
              (List.map (directRelationship nodeId (nodes data))
                 (List.filter (is_incident nodeId) (links data)))) in
  mkMultiHopRelationships directRelationships targetNodeId.

(** ** utils/textProcessor: findRelationships *)

(** [s.includes(sub)] *)
Fixpoint includes (s sub : string) : bool :=
  String.prefix sub s
  || match s with
     | EmptyString => false
     | String _ r => includes r sub
     end.

(** [relationshipPatterns] of utils/medicalEntities, in the order of its
    keys. *)
Definition relationshipPatterns : list (string * list string) :=
  [("binds to", ["bind"; "attach"; "associate"; "complex"; "interact";
                 "dock"; "recognize"; "target"; "anchor"]);
   ("catalyzes", ["catalyze"; "accelerate"; "facilitate"; "enable";
                  "process"; "convert"; "transform"]);
   ("transports", ["transport"; "carry"; "move"; "transfer"; "shuttle";
                   "translocate"; "channel"; "pump"]);
   ("regulates", ["regulate"; "control"; "modulate"; "adjust"; "tune";
                  "maintain"; "coordinate"; "govern"]);
   ("stabilizes", ["stabilize"; "strengthen"; "reinforce"; "support";
                   "maintain"; "protect"; "preserve"]);
   ("activates", ["activate"; "trigger"; "initiate"; "induce"; "stimulate";
                  "promote"; "enhance"; "potentiate"]);
   ("inhibits", ["inhibit"; "block"; "suppress"; "prevent"; "reduce";
                 "decrease"; "attenuate"; "antagonize"]);
   ("modifies", ["modify"; "alter"; "change"; "affect"; "influence";
                 "transform"; "restructure"; "remodel"]);
   ("forms complex with", ["form"; "assemble"; "aggregate"; "oligomerize";
                           "polymerize"; "associate"; "combine"]);
   ("mediates", ["mediate"; "facilitate"; "enable"; "conduct";
                 "transmit"; "relay"; "bridge"]);
   ("depends on", ["depend"; "require"; "need"; "rely"; "contingent";
                   "determined by"; "function of"]);
   ("converts", ["convert"; "transform"; "change"; "turn"; "metabolize";
                 "process"; "modify"]);
   ("equilibrates with", ["equilibrate"; "balance"; "stabilize"; "equalize";
                          "settle"; "reach steady state"]);
   ("couples to", ["couple"; "link"; "connect"; "coordinate"; "synchronize";
                   "integrate"; "pair"])]%string.

(** The two nested loops over the patterns; the state is
    [(relationshipType, maxWeight)]. *)
Definition matchPatterns (patterns : list (string * list string)) (sentence : string)
  : option string * Z :=
  foldl (fun st tp =>
    foldl (fun st pattern =>
      if includes (toLowerCase sentence) (toLowerCase pattern)
      then (Some tp.1, 2%Z) else st) st tp.2)
    (None, 1%Z) patterns.

(** The pairs [(xs[i], xs[j])] with [i < j], in the order of the two
    [for] loops. *)
Fixpoint index_pairs {A : Type} (xs : list A) : list (A * A) :=
  match xs with
  | [] => []
  | x :: r => List.map (pair x) r ++ index_pairs r
  end.

(** What one sentence adds to [relationships]. *)
Definition sentenceRelationships {N : Type} `{JsNumber N}
    (entities : list (Node N)) (sentence : string) : list (Link N) :=
  let entitiesInSentence :=
    List.filter (fun entity =>
      includes (toLowerCase sentence) (toLowerCase (id entity))) entities in
  List.map (fun st =>
    let r := matchPatterns relationshipPatterns sentence in
    mkLink (EndId (id st.1)) (EndId (id st.2)) (jofZ r.2) r.1 (Some sentence)
           None None) (index_pairs entitiesInSentence).

(** [findRelationships(text, entities)]; [sentences] is the array that
    [nlp(text).sentences().out('array')] returns. *)
Definition findRelationships {N : Type} `{JsNumber N}
    (sentences : list string) (entities : list (Node N)) : list (Link N) :=
  foldl (fun relationships sentence =>
    relationships ++ sentenceRelationships entities sentence) [] sentences.

(** ** utils/textProcessor: the merge of the matches in findMedicalEntities *)

(** [e.id.toLowerCase() === current.id.toLowerCase()] *)
Definition same_entity {N : Type} (current e : Node N) : bool :=
  String.eqb (toLowerCase (id e)) (toLowerCase (id current)).

(** [context?.length || 0] *)
Definition context_length {N : Type} (e : Node N) : nat :=
  match context e with Some c => length c | None => O end.

(** [existing.context = current.context], on the entry of [acc] that
    [find] returned: the first one that [same_entity] accepts. *)
Fixpoint set_existing_context {N : Type} (current : Node N) (acc : list (Node N))
  : list (Node N) :=
  match acc with
  | [] => []
  | e :: r =>
      if same_entity current e
      then mkNode (id e) (group e) (ntype e) (context current) (size e) (pageRank e) :: r
      else e :: set_existing_context current r
  end.

(** The callback of the [reduce]. *)
Definition mergeEntity {N : Type} (acc : list (Node N)) (current : Node N)
  : list (Node N) :=
  match List.find (same_entity current) acc with
  | None => acc ++ [current]
  | Some existing =>
      match context current with
      | Some c =>
          if (context_length existing <? length c)%nat
          then set_existing_context current acc
          else acc
      | None => acc
      end
  end.

(** [entities.reduce(..., [])], the value that [findMedicalEntities]
    returns for the matches [entities] that it has collected. *)
Definition mergeEntities {N : Type} (entities : list (Node N)) : list (Node N) :=
  foldl mergeEntity [] entities.

(** ** utils/graphLayouts: the tree layout and the unlocking *)

(** A node of ForceGraph/types.ts with the position fields that the
    layouts write: [{ ...node, x, y, fx, fy, fz }]. *)
Record PNode (N : Type) : Type := mkPNode {
  pn_node : Node N;
  pn_x : option N;
  pn_y : option N;
  pn_fx : option N;
  pn_fy : option N;
  pn_fz : option N
}.
Arguments mkPNode {N}.
Arguments pn_node {N}.
Arguments pn_x {N}.
Arguments pn_y {N}.
Arguments pn_fx {N}.
Arguments pn_fy {N}.
Arguments pn_fz {N}.

Record PGraph (N : Type) : Type := mkPGraph {
  pg_nodes : list (PNode N);
  pg_links : list (Link N)
}.
Arguments mkPGraph {N}.
Arguments pg_nodes {N}.
Arguments pg_links {N}.

Inductive Orientation : Type :=
| Vertical
| Horizontal
| Radial.

Record TreeLayoutOptions (N : Type) : Type := mkTreeLayoutOptions {
  orientation : option Orientation;
  levelSeparation : option N;
  siblingSeparation : option N
}.
Arguments mkTreeLayoutOptions {N}.
Arguments orientation {N}.
Arguments levelSeparation {N}.
Arguments siblingSeparation {N}.

(** [childrenMap]: an empty array for every node id, then the target of
    every link pushed to the array of its source. *)
Definition childrenMap_of (ids : list string) (ends : list (string * string))
  : gmap string (list string) :=
  let init := foldl (fun m i => <[i := []]> m) ∅ ids in
  foldl (fun m '(s, t) => alter (fun children => children ++ [t]) s m) init ends.

(** [parentMap] *)
Definition parentMap_of (ends : list (string * string)) : gmap string string :=
  foldl (fun m '(s, t) => <[t := s]> m) ∅ ends.

(** [!root] for a string that may be undefined: the empty string is falsy. *)
Definition no_root (root : option string) : bool :=
  match root with
  | Some s => String.eqb s EmptyString
  | None => true
  end.

(** The choice of the root. *)
Definition treeRoot {N : Type} (data : PGraph N) (rootNodeId : option string)
  : option string :=
  let parentMap := parentMap_of (link_ends <$> pg_links data) in
  let root := rootNodeId in
  let root :=
    if no_root root
    then (fun node => id (pn_node node))
           <$> List.find (fun node =>
                 negb (bool_decide (is_Some (parentMap !! id (pn_node node)))))
                 (pg_nodes data)
    else root in
  let root :=
    if no_root root
    then (fun node => id (pn_node node)) <$> head (pg_nodes data)
    else root in
  root.

(** The two [while (queue.length > 0)] loops of [applyTreeLayout] differ
    only in what they do with the entry taken from the queue, which is
    [visit] here; the state is [(visited, s, queue)], a queue entry is
    [(id, level)] (its [index] is never read). *)
Fixpoint treeWalk {St : Type} (visit : string -> nat -> St -> St) (fuel : nat)
    (childrenMap : gmap string (list string))
    (st : list string * St * list (string * nat)) : result (list string * St) :=
  match st.2 with
  | [] => Ok st.1
  | current :: rest =>
      match fuel with
      | O => OutOfFuel
      | S fuel' =>
          if js_set_has current.1 st.1.1
          then treeWalk visit fuel' childrenMap (st.1, rest)
          else
            let children := default [] (childrenMap !! current.1) in
            treeWalk visit fuel' childrenMap
              (js_set_add current.1 st.1.1, visit current.1 current.2 st.1.2,
               rest ++ ((fun childId => (childId, S current.2)) <$> children))
      end
  end.

(** [map.get(k) || d] for a map of counts *)
Definition count_or (o : option nat) (d : nat) : nat :=
  match o with
  | Some n => if Nat.eqb n 0 then d else n
  | None => d
  end.

(** First pass: the number of entries visited on each level. *)
Definition countLevel (current : string) (level : nat) (levelWidths : gmap nat nat)
  : gmap nat nat :=
  <[level := (count_or (levelWidths !! level) 0 + 1)%nat]> levelWidths.

(** The position of the entry that is the [positionInLevel]-th of its
    level. *)
Definition treePosition {N : Type} `{JsNumber N} (orientation : Orientation)
    (levelSeparation siblingSeparation : N) (levelCount level positionInLevel : nat)
  : N * N :=
  let across :=
    jmul (jsub (jofnat positionInLevel)
               (jdiv (jsub (jofnat levelCount) (jofZ 1)) (jofZ 2)))
         siblingSeparation in
  let along := jmul (jofnat level) levelSeparation in
  match orientation with
  | Vertical => (across, along)
  | _ => (along, across)
  end.

(** Second pass; the state is [(levelCounters, positions)]. *)
Definition placeNode {N : Type} `{JsNumber N} (orientation : Orientation)
    (levelSeparation siblingSeparation : N) (levelWidths : gmap nat nat)
    (current : string) (level : nat) (st : gmap nat nat * gmap string (N * N))
  : gmap nat nat * gmap string (N * N) :=
  let levelCount := count_or (levelWidths !! level) 1 in
  let positionInLevel := count_or (st.1 !! level) 0 in
  (<[level := (positionInLevel + 1)%nat]> st.1,
   <[current := treePosition orientation levelSeparation siblingSeparation
                  levelCount level positionInLevel]> st.2).

(** The positions that the two passes compute from [root]. *)
Definition treePositions {N : Type} `{JsNumber N} (orientation : Orientation)
    (levelSeparation siblingSeparation : N) (childrenMap : gmap string (list string))
    (root : string) : result (gmap string (N * N)) :=
  r1 ←ᵣ treeWalk countLevel (pathway_fuel childrenMap) childrenMap
          ([], ∅, [(root, O)]);
  let levelWidths := r1.2 in
  r2 ←ᵣ treeWalk (placeNode orientation levelSeparation siblingSeparation levelWidths)
          (pathway_fuel childrenMap) childrenMap ([], (∅, ∅), [(root, O)]);
  Ok r2.2.2.

(** [applyTreeLayout(data, rootNodeId, options)].  When no root is found
    (the graph has no node) the loops run on the key [undefined], which is
    the id of no node: the positions are then read from an empty map. *)
Definition applyTreeLayout {N : Type} `{JsNumber N} (data : PGraph N)
    (rootNodeId : option string) (options : TreeLayoutOptions N) : result (PGraph N) :=
  let orientation := default Vertical (orientation options) in
  let levelSeparation := default (jofZ 100) (levelSeparation options) in
  let siblingSeparation := default (jofZ 50) (siblingSeparation options) in
  let childrenMap :=
    childrenMap_of ((fun node => id (pn_node node)) <$> pg_nodes data)
                   (link_ends <$> pg_links data) in
  positions ←ᵣ match treeRoot data rootNodeId with
               | Some root =>
                   treePositions orientation levelSeparation siblingSeparation
                     childrenMap root
               | None => Ok ∅
               end;
  let layoutNodes :=
    List.map (fun node =>
      let pos := default (jofZ 0, jofZ 0) (positions !! id (pn_node node)) in
      mkPNode (pn_node node) (Some pos.1) (Some pos.2) (Some pos.1) (Some pos.2)
              (pn_fz node)) (pg_nodes data) in
  Ok (mkPGraph layoutNodes (pg_links data)).


(** * Part II: the vocabulary of the properties, and the example graphs *)

(** ** Graphs *)

(** The endpoints of every link are ids of nodes of the graph. *)
Definition links_reference_nodes {N : Type} (ns : list (Node N)) (ls : list (Link N))
  : Prop :=
  ∀ l, l ∈ ls → sourceId l ∈ id <$> ns ∧ targetId l ∈ id <$> ns.

(** Two ids are the ends of a link, in either direction. *)
Definition linked {N : Type} (ls : list (Link N)) (a b : string) : Prop :=
  ∃ l, l ∈ ls ∧ ((sourceId l = a ∧ targetId l = b) ∨ (sourceId l = b ∧ targetId l = a)).

(** There is an undirected path between two ids. *)
Definition connected {N : Type} (ls : list (Link N)) : relation string :=
  rtc (linked ls).

(** [b] is in the neighbour set that the adjacency map holds for [a]. *)
Definition nbr (adj : gmap string (list string)) (a b : string) : Prop :=
  b ∈ neighbors adj a.

Definition reach (adj : gmap string (list string)) : relation string := rtc (nbr adj).

(** The ids the traversal can meet. *)
Definition universe {N : Type} (ns : list (Node N)) (ls : list (Link N)) : list string :=
  (id <$> ns) ++ concat ((fun l => [sourceId l; targetId l]) <$> ls).

(** The number of ids of [U] that are not in [V]. *)
Definition unvisited (U V : list string) : nat :=
  length (List.filter (fun u => negb (js_set_has u V)) U).

(** ** The traversal *)

(** What a traversal started at [x] may add to the state [(visited, component)]:
    both sets only grow, what is new in one is new in the other and
    reachable from [x], and every new visited node has all its neighbours
    visited. *)
Record grows (adj : gmap string (list string)) (x : string)
    (st st' : list string * list string) : Prop := {
  grows_visited : ∀ y, y ∈ st.1 → y ∈ st'.1;
  grows_component : st.2 `prefix_of` st'.2;
  grows_new_visited : ∀ y, y ∈ st'.1 → y ∈ st.1 ∨ (y ∈ st'.2 ∧ reach adj x y);
  grows_new_member : ∀ y, y ∈ st'.2 → y ∈ st.2 ∨ (y ∈ st'.1 ∧ reach adj x y);
  grows_closed : ∀ y, y ∈ st'.1 → y ∉ st.1 → ∀ z, nbr adj y z → z ∈ st'.1
}.

(** What [dfs] at [x] establishes. *)
Definition dfs_post (adj : gmap string (list string)) (x : string)
    (st st' : list string * list string) : Prop :=
  grows adj x st st' ∧ x ∈ st'.1 ∧ js_set_add x st.2 `prefix_of` st'.2.

(** The invariant of the loop of [findComponents]: every component found
    so far starts with a node id and holds only visited ids reachable from
    it, every visited id is in a component, and the visited set is closed
    under neighbours. *)
Record components_inv {N : Type} (ns : list (Node N)) (ls : list (Link N))
    (st : list string * list (list string)) : Prop := {
  inv_component : ∀ c, c ∈ st.2 →
    ∃ h t, c = h :: t ∧ h ∈ id <$> ns
           ∧ ∀ y, y ∈ c → y ∈ st.1 ∧ reach (adjacency_of ns ls) h y;
  inv_covered : ∀ y, y ∈ st.1 → ∃ c, c ∈ st.2 ∧ y ∈ c;
  inv_closed : ∀ y, y ∈ st.1 → ∀ z, nbr (adjacency_of ns ls) y z → z ∈ st.1
}.

(** Sizes do not increase along the list. *)
Fixpoint size_desc (cs : list (list string)) : Prop :=
  match cs with
  | [] => True
  | d :: ds => Forall (fun e => length e ≤ length d) ds ∧ size_desc ds
  end.

(** ** Numbers *)

(** A finite number. *)
Definition finite (x : num) : Prop := ∃ q, x = Fin q.

(** A finite number that is not negative. *)
Definition nonneg (x : num) : Prop := ∃ q, x = Fin q ∧ (0 <= q)%Q.

(** [x] is the finite number [e], up to the representation of the
    rational. *)
Definition is_val (x : num) (e : Q) : Prop := ∃ q, x = Fin q ∧ (q == e)%Q.

(** Sums of rationals. *)
Fixpoint Qsum (l : list Q) : Q :=
  match l with
  | [] => 0
  | x :: r => x + Qsum r
  end.

(** ** The repair *)

(** The links the repair synthesizes for the pairs [(isolated, best match)]. *)
Definition added_links {N : Type} `{JsNumber N} (added : list (string * string))
  : list (Link N) :=
  (fun ht => inferred_link ht.1 ht.2) <$> added.

(** Nodes A, B, C, D with the links A-B and C-D. *)
Definition scenario_node (i : string) : Node num := mkNode i 1 None None None None.

Definition scenario_link (s t : string) : Link num :=
  mkLink (EndId s) (EndId t) (Fin 1) None None None None.

Definition scenario_nodes : list (Node num) :=
  [scenario_node "A"; scenario_node "B"; scenario_node "C"; scenario_node "D"].

Definition scenario_links : list (Link num) :=
  [scenario_link "A" "B"; scenario_link "C" "D"].

(** ** Curvature *)

(** The links drawn between the ends of [link], in the order of [allLinks]. *)
Definition parallelLinks {N : Type} (link : Ref (Link N)) (allLinks : list (Ref (Link N)))
  : list (Ref (Link N)) :=
  List.filter (is_parallel (sourceId (obj link)) (targetId (obj link))) allLinks.

(** Two links join the same unordered pair of ids. *)
Definition same_pair {N : Type} (l1 l2 : Ref (Link N)) : Prop :=
  (sourceId (obj l1) = sourceId (obj l2) ∧ targetId (obj l1) = targetId (obj l2))
  ∨ (sourceId (obj l1) = targetId (obj l2) ∧ targetId (obj l1) = sourceId (obj l2)).

(** The value the code computes for the link at place [i] among [k]. *)
Definition fan (i k : nat) : Q :=
  ((1 # 2) * (inject_Z (Z.of_nat i) - (inject_Z (Z.of_nat k) - 1) / 2))%Q.

(** Three distinct links from X to Y. *)
Definition curvature_scenario : list (Ref (Link num)) :=
  [mkRef 0 (scenario_link "X" "Y"); mkRef 1 (scenario_link "X" "Y");
   mkRef 2 (scenario_link "X" "Y")].

(** ** Layout *)

(** The number of links that end in [k]. *)
Definition incoming {N : Type} (ls : list (Link N)) (k : string) : nat :=
  length (List.filter (fun l => String.eqb (targetId l) k) ls).

(** Every node has at most one incoming link. *)
Definition tree_shaped {N : Type} (data : GraphData N) : Prop :=
  ∀ n, n ∈ nodes data → incoming (links data) (id n) ≤ 1.

(** No link is a self-link. *)
Definition loop_free {N : Type} (data : GraphData N) : Prop :=
  ∀ l, l ∈ links data → sourceId l ≠ targetId l.

(** The average degree [2 * links / nodes] is below 3. *)
Definition sparse (data : GraphData num) : Prop :=
  (inject_Z (Z.of_nat (2 * length (links data)))
   / inject_Z (Z.of_nat (length (nodes data))) < 3)%Q.

(** A centre Z with a link to each of five leaves. *)
Definition star_node (i : string) : Node num := mkNode i 1 None None None None.

Definition star_graph : GraphData num :=
  mkGraph (star_node <$> ["Z"; "L1"; "L2"; "L3"; "L4"; "L5"]%string)
          (scenario_link "Z" <$> ["L1"; "L2"; "L3"; "L4"; "L5"]%string).

(** ** Analytics *)

(** Nodes A, B, C of groups 5, 6, 7 and the link A-B. *)
Definition community_nodes : list (Node num) :=
  [mkNode "A" 5 None None None None; mkNode "B" 6 None None None None;
   mkNode "C" 7 None None None None].

Definition community_links : list (Link num) := [scenario_link "A" "B"].

(** The weight of a link and the rank of an id, as rationals. *)
Definition weight (l : Link num) : Q :=
  match value l with Fin q => q | _ => 0%Q end.

Definition rank_value (pr : gmap string num) (k : string) : Q :=
  match pr !! k with Some (Fin q) => q | _ => 0%Q end.

Definition degree_value (nodeMap : gmap string (num * num)) (s : string) : Q :=
  match num_or (snd <$> nodeMap !! s) (jofZ 1) with Fin d => d | _ => 1%Q end.

(** The weight that leaves [s]. *)
Definition out_weight (ls : list (Link num)) (s : string) : Q :=
  Qsum ((fun l => if String.eqb (sourceId l) s then weight l else 0%Q) <$> ls).

(** What a link carries to its target in one pass. *)
Definition share (pr : gmap string num) (nodeMap : gmap string (num * num))
    (l : Link num) : Q :=
  (rank_value pr (sourceId l) * weight l / degree_value nodeMap (sourceId l))%Q.

(** The ranks are finite and positive on the ids, absent elsewhere. *)
Definition ranks_wf (ns : list (Node num)) (pr : gmap string num) : Prop :=
  ∀ s, (s ∈ id <$> ns → ∃ q, pr !! s = Some (Fin q) ∧ (0 < q)%Q)
       ∧ (s ∉ id <$> ns → pr !! s = None).

(** The part of a new rank that does not come from the links. *)
Definition base_rank (ns : list (Node num)) : Q :=
  ((1 - (85 # 100)) / inject_Z (Z.of_nat (length ns)))%Q.





(** ** Pathway highlighting *)

(** The invariant of the loop of pathway mode.  [done] lists the entries
    taken from the queue so far. *)
Record pathway_inv (nm : gmap string (list string)) (focus : string) (maxDepth : nat)
    (done : list (string * nat))
    (st : list string * list string * list (string * nat)) : Prop := {
  pinv_same : st.1.2 = st.1.1;
  pinv_visited : ∀ x, x ∈ st.1.1 ↔ ∃ d, (x, d) ∈ done ++ st.2;
  pinv_walk : ∀ x d, (x, d) ∈ done ++ st.2 → d ≤ maxDepth ∧ nsteps (nbr nm) d focus x;
  pinv_closed : ∀ x d, (x, d) ∈ done → d < maxDepth →
                ∀ z, nbr nm x z → ∃ e, (z, e) ∈ done ++ st.2 ∧ e ≤ S d;
  pinv_focus : (focus, O) ∈ done ++ st.2;
  pinv_levels : ∃ k Qa Qb, st.2 = Qa ++ Qb
                  ∧ Forall (fun e : string * nat => e.2 = k) Qa
                  ∧ Forall (fun e : string * nat => e.2 = S k) Qb
                  ∧ Forall (fun e : string * nat => e.2 ≤ k) done
}.

(** Nodes A, B, C, D, E in a chain A-B-C-D-E. *)
Definition chain_node (i : string) : Node num := mkNode i 1 None None None None.

Definition chain_graph : GraphData num :=
  mkGraph (chain_node <$> ["A"; "B"; "C"; "D"; "E"]%string)
          [scenario_link "A" "B"; scenario_link "B" "C";
           scenario_link "C" "D"; scenario_link "D" "E"].

(** From [M] to [M'] exactly the ids that [V'] adds to [V] were given the
    community [c]. *)
Definition marks (c : Z) (V V' : list string) (M M' : gmap string Z) : Prop :=
  ∀ y, M' !! y = if bool_decide (y ∈ V' ∧ y ∉ V) then Some c else M !! y.

(** The invariant of the loop of [detectCommunities]; the state is
    [(communityId, (visited, communities))]. *)
Record communities_inv {N : Type} (ns : list (Node N)) (ls : list (Link N))
    (st : Z * (list string * gmap string Z)) : Prop := {
  cinv_next : (0 ≤ st.1)%Z;
  cinv_dom : ∀ y, y ∈ st.2.1 ↔ is_Some (st.2.2 !! y);
  cinv_ids : ∀ y, y ∈ st.2.1 → y ∈ id <$> ns;
  cinv_range : ∀ y c, st.2.2 !! y = Some c → (0 ≤ c < st.1)%Z;
  cinv_used : ∀ c, (0 ≤ c < st.1)%Z → ∃ y, st.2.2 !! y = Some c;
  cinv_same : ∀ y z c, st.2.2 !! y = Some c → linked ls y z → st.2.2 !! z = Some c;
  cinv_conn : ∀ y z c, st.2.2 !! y = Some c → st.2.2 !! z = Some c → connected ls y z
}.

(** Nodes A, B, C with the links A-B, A-C and B-C. *)
Definition triangle_graph : GraphData num :=
  mkGraph (scenario_node <$> ["A"; "B"; "C"]%string)
          [scenario_link "A" "B"; scenario_link "A" "C"; scenario_link "B" "C"].

(** The event has a modifier key that makes the click a toggle. *)
Definition isMultiSelect (event : MouseEvent) : bool :=
  ctrlKey event || metaKey event || shiftKey event || altKey event.

(** The weight of an entry, as a rational. *)
Definition dr_value (r : DirectRelationship num) : Q :=
  match dr_weight r with Fin q => q | _ => 0%Q end.

(** Weights do not increase along the list. *)
Fixpoint weight_desc (rs : list (DirectRelationship num)) : Prop :=
  match rs with
  | [] => True
  | d :: ds => Forall (fun e => (dr_value e <= dr_value d)%Q) ds ∧ weight_desc ds
  end.

(** A node with links of weights 1, 4, 2, 3 to four others. *)
Definition weighted_link (s t : string) (w : Z) : Link num :=
  mkLink (EndId s) (EndId t) (Fin (inject_Z w)) None None None None.

Definition weighted_graph : GraphData num :=
  mkGraph (scenario_node <$> ["H"; "P"; "Q"; "R"; "S"]%string)
          [weighted_link "H" "P" 1; weighted_link "Q" "H" 4;
           weighted_link "H" "R" 2; weighted_link "S" "H" 3].

(** The value of a finite number. *)
Definition num_value (x : num) : Q :=
  match x with Fin q => q | _ => 0%Q end.

(** The key under which two matches are the same entity. *)
Definition entityKey {N : Type} (e : Node N) : string := toLowerCase (id e).

(** What the merged list [R] is for the matches [es]. *)
Record merged {N : Type} (es R : list (Node N)) : Prop := {
  merged_keys : NoDup (entityKey <$> R);
  merged_covers : ∀ e, e ∈ es →
    ∃ r, r ∈ R ∧ entityKey r = entityKey e ∧ context_length e ≤ context_length r;
  merged_from : ∀ r, r ∈ R →
    ∃ pre e post e', es = pre ++ e :: post
      ∧ (∀ x, x ∈ pre → entityKey x ≠ entityKey r)
      ∧ id r = id e ∧ group r = group e ∧ ntype r = ntype e
      ∧ e' ∈ es ∧ entityKey e' = entityKey r ∧ context r = context e'
}.

(** Two links between X and Y in one direction and one in the other. *)
Definition mixed_scenario : list (Ref (Link num)) :=
  [mkRef 0 (scenario_link "X" "Y"); mkRef 1 (scenario_link "Y" "X");
   mkRef 2 (scenario_link "X" "Y")].

(** [b] is in the array of children of [a]. *)
Definition child (childrenMap : gmap string (list string)) (a b : string) : Prop :=
  b ∈ default [] (childrenMap !! a).

(** The children that the ids not yet visited will push. *)
Definition pending (childrenMap : gmap string (list string)) (V : list string) : nat :=
  length (concat ((fun kv : string * list string =>
                     if js_set_has kv.1 V then [] else kv.2)
                  <$> map_to_list childrenMap)).

(** The walk that only records the entries it visits; the state is
    [(visited, trace, queue)]. *)
Definition record_entry (current : string) (level : nat) (tr : list (string * nat))
  : list (string * nat) :=
  tr ++ [(current, level)].

Definition treeTrace (fuel : nat) (childrenMap : gmap string (list string))
    (root : string) : result (list string * list (string * nat)) :=
  treeWalk record_entry fuel childrenMap ([], [], [(root, O)]).

(** The invariant of the recording walk. *)
Record trace_inv (childrenMap : gmap string (list string)) (root : string)
    (st : list string * list (string * nat) * list (string * nat)) : Prop := {
  tinv_visited : st.1.1 = st.1.2.*1;
  tinv_nodup : NoDup st.1.1;
  tinv_walk : ∀ x L, (x, L) ∈ st.1.2 ++ st.2 → nsteps (child childrenMap) L root x;
  tinv_closed : ∀ v d c, (v, d) ∈ st.1.2 → child childrenMap v c →
    ∃ e, (c, e) ∈ st.1.2 ++ st.2 ∧ e ≤ S d;
  tinv_root : (root, O) ∈ st.1.2 ++ st.2;
  tinv_levels : ∃ k Qa Qb, st.2 = Qa ++ Qb
    ∧ Forall (fun e : string * nat => e.2 = k) Qa
    ∧ Forall (fun e : string * nat => e.2 = S k) Qb
    ∧ Forall (fun e : string * nat => e.2 ≤ k) st.1.2;
  tinv_first : (st.1.2 = [] ∧ st.2 = [(root, O)])
    ∨ ∃ tr', st.1.2 = (root, O) :: tr'
             ∧ Forall (fun e : string * nat => 1 ≤ e.2) tr'
             ∧ Forall (fun e : string * nat => 1 ≤ e.2) st.2
}.

(** [tr] lists, in breadth-first order from [root] along [R], every id
    that [R] reaches from [root], once, with the least number of steps
    that reaches it. *)
Record bfs_order (R : relation string) (root : string) (tr : list (string * nat))
  : Prop := {
  bfs_first : ∃ tr', tr = (root, O) :: tr'
                     ∧ Forall (fun e : string * nat => 1 ≤ e.2) tr';
  bfs_once : NoDup tr.*1;
  bfs_reached : ∀ x, x ∈ tr.*1 ↔ rtc R root x;
  bfs_level : ∀ x L, (x, L) ∈ tr →
    nsteps R L root x ∧ ∀ L', nsteps R L' root x → L ≤ L'
}.

(** The number of entries of [tr] on level [L]. *)
Definition level_count (tr : list (string * nat)) (L : nat) : nat :=
  length (List.filter (fun e : string * nat => Nat.eqb e.2 L) tr).

(** A link leads from the node [a] to [b]. *)
Definition tree_child {N : Type} (data : PGraph N) (a b : string) : Prop :=
  a ∈ (fun node => id (pn_node node)) <$> pg_nodes data
  ∧ ∃ l, l ∈ pg_links data ∧ sourceId l = a ∧ targetId l = b.

(** The coordinate along the levels, and the one across a level of [c]
    entries for the entry of rank [j]. *)
Definition along (L : nat) (levelSeparation : Q) : Q :=
  (inject_Z (Z.of_nat L) * levelSeparation)%Q.

Definition across (j c : nat) (siblingSeparation : Q) : Q :=
  ((inject_Z (Z.of_nat j) - (inject_Z (Z.of_nat c) - 1) / 2) * siblingSeparation)%Q.

(** The pair (along, across) of a position. *)
Definition oriented (o : Orientation) (x y : num) : num * num :=
  match o with
  | Vertical => (y, x)
  | _ => (x, y)
  end.

(** A root R with the children A and B, A with the child C, and a node D
    that no link reaches. *)
Definition tree_pnode (i : string) : PNode num :=
  mkPNode (scenario_node i) None None None None None.

Definition tree_scenario : PGraph num :=
  mkPGraph (tree_pnode <$> ["R"; "A"; "B"; "C"; "D"]%string)
           [scenario_link "R" "A"; scenario_link "R" "B"; scenario_link "A" "C"].

(** Some link ends in [x]. *)
Definition is_target {N : Type} (data : PGraph N) (x : string) : Prop :=
  ∃ l, l ∈ pg_links data ∧ targetId l = x.

(** [applyTreeLayout(data)]: no root, no options. *)
Definition no_options : TreeLayoutOptions num := mkTreeLayoutOptions None None None.

(** * Part III: lemmas and theorems *)

(** ** Sets and the adjacency map *)

Lemma js_set_has_true x s : js_set_has x s = true ↔ x ∈ s.
Proof. unfold js_set_has. apply bool_decide_eq_true. Qed.

Lemma js_set_has_false x s : js_set_has x s = false ↔ x ∉ s.
Proof. unfold js_set_has. apply bool_decide_eq_false. Qed.

Lemma elem_of_js_set_add x y s : x ∈ js_set_add y s ↔ x = y ∨ x ∈ s.
Proof.
  unfold js_set_add. destruct (js_set_has y s) eqn:E.
  - apply js_set_has_true in E. split; [by right|]. by intros [->|].
  - rewrite elem_of_app, list_elem_of_singleton. tauto.
Qed.

Lemma js_set_add_NoDup y s : NoDup s → NoDup (js_set_add y s).
Proof.
  intros Hs. unfold js_set_add. destruct (js_set_has y s) eqn:E; [done|].
  apply js_set_has_false in E. apply NoDup_app. split_and!; [done| |apply NoDup_singleton].
  intros x Hx ->%list_elem_of_singleton. done.
Qed.

Section adjacency.
Implicit Types (m : gmap string (list string)) (a b s t : string).

Lemma lookup_init_adjacency (ids : list string) m a :
  foldl (fun m i => <[i := []]> m) m ids !! a
  = if bool_decide (a ∈ ids) then Some [] else m !! a.
Proof.
  revert m. induction ids as [|i ids IH]; intros m; simpl; [done|].
  rewrite IH. destruct (decide (a ∈ ids)) as [Hin|Hin].
  - rewrite !bool_decide_eq_true_2; [done| |done]. by right.
  - rewrite (bool_decide_eq_false_2 (a ∈ ids)) by done.
    destruct (decide (a = i)) as [->|Hne].
    + rewrite bool_decide_eq_true_2 by left. by rewrite lookup_insert_eq.
    + rewrite bool_decide_eq_false_2 by (intros [?|?]%elem_of_cons; done).
      by rewrite lookup_insert_ne.
Qed.

Lemma neighbors_adj_add m k v a b :
  b ∈ neighbors (adj_add k v m) a
  ↔ b ∈ neighbors m a ∨ (is_Some (m !! a) ∧ a = k ∧ b = v).
Proof.
  unfold neighbors, adj_add. rewrite lookup_alter.
  case_decide as Hk; [subst k|].
  - destruct (m !! a) as [s|] eqn:E; simpl.
    + rewrite elem_of_js_set_add. split; [intros [->|]; eauto|].
      intros [|(_ & _ & ->)]; eauto.
    + split; [intros []%elem_of_nil|]. intros [[]%elem_of_nil|([? [=]] & _)].
  - split; [eauto|]. intros [|(_ & ? & _)]; [done|congruence].
Qed.

Lemma is_Some_adj_add m k v a : is_Some (adj_add k v m !! a) ↔ is_Some (m !! a).
Proof.
  unfold adj_add. rewrite lookup_alter. case_decide; [subst|done].
  by rewrite fmap_is_Some.
Qed.

Lemma is_Some_fold_adjacency (ends : list (string * string)) m a :
  is_Some (foldl (fun m '(s, t) => adj_add t s (adj_add s t m)) m ends !! a)
  ↔ is_Some (m !! a).
Proof.
  revert m. induction ends as [|[s t] ends IH]; intros m; simpl; [done|].
  by rewrite IH, !is_Some_adj_add.
Qed.

Lemma neighbors_fold_adjacency (ends : list (string * string)) m a b :
  b ∈ neighbors (foldl (fun m '(s, t) => adj_add t s (adj_add s t m)) m ends) a
  ↔ b ∈ neighbors m a ∨ (is_Some (m !! a) ∧ ((a, b) ∈ ends ∨ (b, a) ∈ ends)).
Proof.
  revert m. induction ends as [|[s t] ends IH]; intros m; simpl.
  - split; [eauto|]. intros [|(_ & [[]%elem_of_nil|[]%elem_of_nil])]; done.
  - rewrite IH, !is_Some_adj_add, !neighbors_adj_add, is_Some_adj_add.
    rewrite !elem_of_cons. split.
    + intros [[[|(?&->&->)]|(?&->&->)]|(? & [|])]; eauto 10.
    + intros [|(? & [[[=]|]|[[=]|]])]; subst; eauto 10.
Qed.

Lemma lookup_build_adjacency ids ends a :
  is_Some (build_adjacency ids ends !! a) ↔ a ∈ ids.
Proof.
  unfold build_adjacency. rewrite is_Some_fold_adjacency, lookup_init_adjacency.
  case_bool_decide; rewrite ?lookup_empty; split; try done.
Qed.

Lemma neighbors_build_adjacency ids ends a b :
  b ∈ neighbors (build_adjacency ids ends) a
  ↔ a ∈ ids ∧ ((a, b) ∈ ends ∨ (b, a) ∈ ends).
Proof.
  unfold build_adjacency. rewrite neighbors_fold_adjacency.
  unfold neighbors at 1. rewrite lookup_init_adjacency.
  case_bool_decide as Ha; rewrite ?lookup_empty; simpl.
  - split; [intros [[]%elem_of_nil|[_ ?]]; done|]. intros [_ ?]. right. eauto.
  - split; [intros [[]%elem_of_nil|[[? [=]] _]]|]. by intros [? _].
Qed.

End adjacency.

(** C8: in a graph all of whose link ends are ids of nodes, the map built
    by [useNeighborMap] is symmetric: [b] is among the neighbours of [a]
    exactly when [a] is among the neighbours of [b]. *)
Theorem useNeighborMap_symmetric {N : Type} (data : GraphData N) (a b : string) :
  links_reference_nodes (nodes data) (links data) →
  b ∈ neighbors (useNeighborMap data) a ↔ a ∈ neighbors (useNeighborMap data) b.
Proof.
  intros Href. unfold useNeighborMap, adjacency_of. rewrite !neighbors_build_adjacency.
  assert (Hends : ∀ x y, (x, y) ∈ link_ends <$> links data →
                         x ∈ id <$> nodes data ∧ y ∈ id <$> nodes data).
  { intros x y (l & [= -> ->] & Hl)%list_elem_of_fmap. by apply Href. }
  split; intros [_ [H|H]]; destruct (Hends _ _ H); eauto.
Qed.

Lemma useNeighborMap_symmetric_witness :
  "B"%string ∈ neighbors (useNeighborMap (mkGraph scenario_nodes scenario_links)) "A"%string
  ↔ "A"%string ∈ neighbors (useNeighborMap (mkGraph scenario_nodes scenario_links)) "B"%string.
Proof.
  apply (useNeighborMap_symmetric (mkGraph scenario_nodes scenario_links)).
  intros l Hl. cbn [links nodes] in *. unfold scenario_links in Hl.
  repeat (apply elem_of_cons in Hl as [->|Hl]); [| |by apply elem_of_nil in Hl];
    split; apply (bool_decide_unpack _); by vm_compute.
Defined.

(** ** The result monad *)

Lemma rbind_Ok {A B : Type} (r : result A) (k : A → result B) (b : B) :
  rbind r k = Ok b ↔ ∃ a, r = Ok a ∧ k a = Ok b.
Proof.
  destruct r; simpl; split; try done; eauto.
  - by intros (? & [= <-] & ?).
  - by intros (? & [=] & _).
  - by intros (? & [=] & _).
Qed.

(** An invariant of a [forEach] loop that returns. *)
Lemma forEachM_inv {A S : Type} (I : S → Prop) (f : S → A → result S) xs s s' :
  (∀ s x s', x ∈ xs → I s → f s x = Ok s' → I s') →
  I s → forEachM f xs s = Ok s' → I s'.
Proof.
  revert s. induction xs as [|x xs IH]; intros s Hf Hs; simpl.
  - by intros [= <-].
  - intros (s1 & H1 & H2)%rbind_Ok. eapply IH, H2.
    + intros ???? ; apply Hf. by right.
    + eapply Hf, H1; [by left|done].
Qed.

(** A [forEach] loop returns when its body does on every state it meets. *)
Lemma forEachM_total {A S : Type} (I : S → Prop) (f : S → A → result S) xs s :
  (∀ s x, x ∈ xs → I s → ∃ s', f s x = Ok s' ∧ I s') →
  I s → ∃ s', forEachM f xs s = Ok s' ∧ I s'.
Proof.
  revert s. induction xs as [|x xs IH]; intros s Hf Hs; simpl; [eauto|].
  destruct (Hf s x) as (s1 & -> & H1); [by left|done|]. simpl.
  apply IH; [|done]. intros ????; apply Hf; [by right|done].
Qed.

(** ** Depth-first search *)

Lemma unvisited_mono U V V' :
  (∀ y, y ∈ V → y ∈ V') → unvisited U V' ≤ unvisited U V.
Proof.
  intros HV. unfold unvisited. induction U as [|u U IH]; simpl; [done|].
  destruct (js_set_has u V') eqn:E'; destruct (js_set_has u V) eqn:E; simpl; try lia.
  apply js_set_has_true in E. apply js_set_has_false in E'. naive_solver.
Qed.

Lemma unvisited_add U V x :
  x ∈ U → x ∉ V → unvisited U (js_set_add x V) < unvisited U V.
Proof.
  intros HU HV. unfold unvisited. induction U as [|u U IH]; [by apply elem_of_nil in HU|].
  pose proof (unvisited_mono U V (js_set_add x V)) as Hm. unfold unvisited in Hm.
  specialize (Hm ltac:(intros; apply elem_of_js_set_add; right; assumption)).
  simpl. destruct (decide (u = x)) as [->|Hne].
  - assert (js_set_has x (js_set_add x V) = true) as ->
      by (apply js_set_has_true, elem_of_js_set_add; by left).
    assert (js_set_has x V = false) as -> by by apply js_set_has_false.
    simpl. lia.
  - apply elem_of_cons in HU as [?|HU]; [done|]. specialize (IH HU).
    destruct (js_set_has u V) eqn:E.
    + assert (js_set_has u (js_set_add x V) = true) as ->
        by (apply js_set_has_true, elem_of_js_set_add; right; by apply js_set_has_true).
      simpl. lia.
    + assert (js_set_has u (js_set_add x V) = false) as ->.
      { apply js_set_has_false. rewrite elem_of_js_set_add.
        apply js_set_has_false in E. naive_solver. }
      simpl. lia.
Qed.

Lemma unvisited_le_length U V : unvisited U V ≤ length U.
Proof. unfold unvisited. induction U; simpl; [done|]. destruct (negb _); simpl; lia. Qed.

Section dfs.
Variable adj : gmap string (list string).

Lemma grows_refl x st : grows adj x st st.
Proof. split; eauto. done. Qed.

Lemma grows_trans x st1 st2 st3 :
  grows adj x st1 st2 → grows adj x st2 st3 → grows adj x st1 st3.
Proof.
  intros [A1 B1 C1 D1 E1] [A2 B2 C2 D2 E2]. split.
  - eauto.
  - by etrans.
  - intros y Hy. destruct (C2 y Hy) as [H|H]; [|by right].
    destruct (C1 y H) as [|[Hc ?]]; [by left|right]. split; [|done].
    by eapply elem_of_prefix.
  - intros y Hy. destruct (D2 y Hy) as [H|H]; [|by right].
    destruct (D1 y H) as [|[Hc ?]]; [by left|right]. split; [|done]. eauto.
  - intros y Hy Hn z Hz. destruct (decide (y ∈ st2.1)) as [Hin|Hin]; [|by eapply E2].
    eapply A2, E1; done.
Qed.

Lemma grows_step x nb st st' : nbr adj x nb → grows adj nb st st' → grows adj x st st'.
Proof.
  intros Hx [A B C D E]. split; [done|done| | |done].
  - intros y Hy. destruct (C y Hy) as [|[? ?]]; [by left|right]. split; [done|].
    by eapply rtc_l.
  - intros y Hy. destruct (D y Hy) as [|[? ?]]; [by left|right]. split; [done|].
    by eapply rtc_l.
Qed.

Lemma dfs_unfold fuel x st :
  dfs (S fuel) adj x st =
  match adj !! x with
  | None => Ok (js_set_add x st.1, js_set_add x st.2)
  | Some nbrs => forEachM (dfs_step adj fuel) nbrs (js_set_add x st.1, js_set_add x st.2)
  end.
Proof. done. Qed.

Lemma dfs_neighbours_spec fuel x nbrs st st' :
  (∀ y st st', dfs fuel adj y st = Ok st' → dfs_post adj y st st') →
  (∀ nb, nb ∈ nbrs → nbr adj x nb) →
  forEachM (dfs_step adj fuel) nbrs st = Ok st' →
  grows adj x st st' ∧ ∀ nb, nb ∈ nbrs → nb ∈ st'.1.
Proof.
  intros IH. revert st. induction nbrs as [|nb nbrs IHn]; intros st Hn; simpl.
  - intros [= <-]. split; [apply grows_refl|]. by intros ? ?%elem_of_nil.
  - intros (st1 & H1 & H2)%rbind_Ok.
    destruct (IHn st1) as [G2 V2]; [intros; apply Hn; by right|done|].
    assert (grows adj x st st1 ∧ nb ∈ st1.1) as [G1 V1].
    { unfold dfs_step in H1. destruct (js_set_has nb st.1) eqn:E.
      - injection H1 as <-. split; [apply grows_refl|]. by apply js_set_has_true.
      - apply IH in H1 as (G & ? & _). split; [|done].
        eapply grows_step, G. apply Hn. by left. }
    split; [by eapply grows_trans|].
    intros y [->|Hy]%elem_of_cons; [|by apply V2]. by apply G2.
Qed.

Lemma dfs_spec fuel x st st' : dfs fuel adj x st = Ok st' → dfs_post adj x st st'.
Proof.
  revert x st st'. induction fuel as [|fuel IH]; intros x st st'; [done|].
  rewrite dfs_unfold.
  set (st1 := (js_set_add x st.1, js_set_add x st.2)). intros Hrun.
  assert (grows adj x st1 st' ∧ ∀ z, nbr adj x z → z ∈ st'.1) as [[A B C D E] Hx].
  { unfold nbr, neighbors.
    destruct (adj !! x) as [nbrs|] eqn:Hadj; simpl.
    - eapply dfs_neighbours_spec; [done| |done].
      intros nb Hnb. unfold nbr, neighbors. by rewrite Hadj.
    - injection Hrun as <-. split; [apply grows_refl|]. by intros ? ?%elem_of_nil. }
  assert (Hx1 : x ∈ st1.1) by (apply elem_of_js_set_add; by left).
  assert (Hx2 : x ∈ st1.2) by (apply elem_of_js_set_add; by left).
  split_and!; [split| |done].
  - intros y Hy. apply A, elem_of_js_set_add. by right.
  - etrans; [|done]. simpl. unfold js_set_add.
    destruct (js_set_has x st.2); [done|]. by apply prefix_app_r.
  - intros y Hy. destruct (C y Hy) as [[->|?]%elem_of_js_set_add|?]; [right|by left|by right].
    split; [eapply elem_of_prefix; [exact Hx2|exact B]|apply rtc_refl].
  - intros y Hy. destruct (D y Hy) as [[->|?]%elem_of_js_set_add|?]; [right|by left|by right].
    split; [by apply A|apply rtc_refl].
  - intros y Hy Hn z Hz. destruct (decide (y = x)) as [->|Hne]; [by apply Hx|].
    eapply E; [done| |done]. simpl. rewrite elem_of_js_set_add. naive_solver.
  - by apply A.
Qed.

(** Enough fuel: the depth of the recursion is bounded by the number of
    ids of [U] not yet visited. *)
Lemma dfs_total (U : list string) fuel x st :
  (∀ a b, nbr adj a b → b ∈ U) →
  x ∈ U → x ∉ st.1 → unvisited U st.1 ≤ fuel →
  ∃ st', dfs fuel adj x st = Ok st'.
Proof.
  intros HU. revert x st. induction fuel as [|fuel IH]; intros x st Hx Hn Hf.
  { pose proof (unvisited_add U st.1 x Hx Hn). lia. }
  rewrite dfs_unfold.
  set (st1 := (js_set_add x st.1, js_set_add x st.2)).
  assert (H1 : unvisited U st1.1 ≤ fuel).
  { pose proof (unvisited_add U st.1 x Hx Hn). simpl. lia. }
  destruct (adj !! x) as [nbrs|] eqn:Hadj; [|eauto].
  assert (Hnb : ∀ nb, nb ∈ nbrs → nb ∈ U).
  { intros nb Hnb. apply (HU x). unfold nbr, neighbors. by rewrite Hadj. }
  destruct (forEachM_total (fun s => unvisited U s.1 ≤ fuel) (dfs_step adj fuel) nbrs st1)
    as (st' & ? & _); [|done|eauto].
  intros s nb Hin Hs. unfold dfs_step.
  destruct (js_set_has nb s.1) eqn:E; [eauto|].
  apply js_set_has_false in E.
  destruct (IH nb s) as [s' Hs']; [by apply Hnb|done|done|].
  exists s'. split; [done|].
  apply dfs_spec in Hs' as ([A _ _ _ _] & _).
  pose proof (unvisited_mono U s.1 s'.1 A). lia.
Qed.

End dfs.

(** ** Connectivity of a graph, as a relation on ids *)

Lemma linked_sym {N : Type} (ls : list (Link N)) a b : linked ls a b → linked ls b a.
Proof. intros (l & ? & [?|?]); exists l; eauto. Qed.

Lemma connected_sym {N : Type} (ls : list (Link N)) a b :
  connected ls a b → connected ls b a.
Proof.
  induction 1 as [|a b c H1 _ IH]; [apply rtc_refl|].
  eapply rtc_r; [exact IH|]. by apply linked_sym.
Qed.

Lemma connected_mono {N : Type} (ls ls' : list (Link N)) a b :
  (∀ l, l ∈ ls → l ∈ ls') → connected ls a b → connected ls' a b.
Proof.
  intros Hsub. apply rtc_subrel. intros x y (l & ? & ?). exists l. eauto.
Qed.

Lemma elem_of_link_ends {N : Type} (ls : list (Link N)) a b :
  (a, b) ∈ link_ends <$> ls ↔ ∃ l, l ∈ ls ∧ sourceId l = a ∧ targetId l = b.
Proof.
  rewrite list_elem_of_fmap. unfold link_ends. split.
  - intros (l & [= -> ->] & ?). eauto.
  - intros (l & ? & <- & <-). eauto.
Qed.

Section graph.
Context {N : Type}.
Variables (ns : list (Node N)) (ls : list (Link N)).

Local Abbreviation adj := (adjacency_of ns ls).

Lemma nbr_linked a b : nbr adj a b ↔ a ∈ id <$> ns ∧ linked ls a b.
Proof.
  unfold nbr, adjacency_of. rewrite neighbors_build_adjacency, !elem_of_link_ends.
  unfold linked. naive_solver.
Qed.

Lemma reach_connected a b : reach adj a b → connected ls a b.
Proof. apply rtc_subrel. by intros x y [_ ?]%nbr_linked. Qed.

Hypothesis Href : links_reference_nodes ns ls.

Lemma linked_ids a b : linked ls a b → a ∈ id <$> ns ∧ b ∈ id <$> ns.
Proof. intros (l & [? ?]%Href & [[<- <-]|[<- <-]]); done. Qed.

Lemma connected_reach a b : a ∈ id <$> ns → connected ls a b → reach adj a b.
Proof.
  intros Ha Hc. induction Hc as [|a b c H1 _ IH]; [apply rtc_refl|].
  eapply rtc_l; [apply nbr_linked; eauto|]. apply IH. by apply linked_ids in H1 as [_ ?].
Qed.

Lemma reach_ids a b : a ∈ id <$> ns → reach adj a b → b ∈ id <$> ns.
Proof.
  intros Ha Hc. induction Hc as [|a b c H1 _ IH]; [done|].
  apply IH. apply nbr_linked in H1 as [_ H1]. by apply linked_ids in H1 as [_ ?].
Qed.

Lemma universe_length : length (universe ns ls) = length ns + 2 * length ls.
Proof.
  unfold universe. rewrite length_app, length_fmap. f_equal.
  clear. induction ls as [|l ls' IH]; csimpl; [done|]. rewrite IH. lia.
Qed.

Lemma nbr_universe a b : nbr adj a b → b ∈ (universe ns ls).
Proof.
  intros [_ H]%nbr_linked. apply linked_ids in H as [_ ?].
  unfold universe. apply elem_of_app. by left.
Qed.

(** *** The loop that collects the components *)

Lemma components_inv_init : components_inv ns ls ([], []).
Proof. split; simpl; intros ? []%elem_of_nil. Qed.

Lemma components_body_spec fuel st node st' :
  node ∈ ns → components_inv ns ls st → components_body fuel adj st node = Ok st' →
  components_inv ns ls st' ∧ (∀ y, y ∈ st.1 → y ∈ st'.1) ∧ id node ∈ st'.1.
Proof.
  intros Hnode [IC IV IL]. unfold components_body.
  destruct (js_set_has (id node) st.1) eqn:E.
  { intros [= <-]. apply js_set_has_true in E. done. }
  intros (r & Hr & [= <-])%rbind_Ok. simpl.
  apply dfs_spec in Hr as ([A B C D Ecl] & Hx & P). simpl in *.
  assert (Hhd : ∃ t, r.2 = id node :: t).
  { destruct P as [k ->]. eauto. }
  split_and!; [split; simpl| |]; try done.
  - intros c [Hc| ->%list_elem_of_singleton]%elem_of_app.
    + destruct (IC c Hc) as (h & t & -> & ? & Hy). exists h, t. split_and!; [done..|].
      intros y Hin. destruct (Hy y Hin). eauto.
    + destruct Hhd as [t Ht]. exists (id node), t. split_and!; [done| |].
      * apply list_elem_of_fmap. eauto.
      * intros y Hy. destruct (D y Hy) as [[]%elem_of_nil|]. done.
  - intros y Hy. destruct (C y Hy) as [Hold|[? _]].
    + destruct (IV y Hold) as (c & ? & ?). exists c. split; [|done].
      apply elem_of_app. by left.
    + exists r.2. split; [|done]. apply elem_of_app. right. by apply list_elem_of_singleton.
  - intros y Hy z Hz. destruct (decide (y ∈ st.1)) as [Hin|Hin]; [|by eapply Ecl].
    eapply A, IL; done.
Qed.

Lemma components_loop_spec fuel nodes' st st' :
  (∀ n, n ∈ nodes' → n ∈ ns) → components_inv ns ls st →
  forEachM (components_body fuel adj) nodes' st = Ok st' →
  components_inv ns ls st' ∧ (∀ y, y ∈ st.1 → y ∈ st'.1) ∧ ∀ n, n ∈ nodes' → id n ∈ st'.1.
Proof.
  revert st. induction nodes' as [|n nodes' IH]; intros st Hsub Hinv; simpl.
  - intros [= <-]. split_and!; [done..|]. by intros ? ?%elem_of_nil.
  - intros (st1 & H1 & H2)%rbind_Ok.
    apply components_body_spec in H1 as (I1 & M1 & V1); [|apply Hsub; by left|done].
    apply IH in H2 as (I2 & M2 & V2); [|intros; apply Hsub; by right|done].
    split_and!; [done|eauto|]. intros m [->|?]%elem_of_cons; eauto.
Qed.

Lemma components_body_total st node :
  node ∈ ns → ∃ st', components_body (dfs_fuel ns ls) adj st node = Ok st'.
Proof.
  intros Hnode. unfold components_body.
  destruct (js_set_has (id node) st.1) eqn:E; [eauto|].
  apply js_set_has_false in E.
  destruct (dfs_total adj (universe ns ls) (dfs_fuel ns ls) (id node) (st.1, [])) as [r ->]; simpl.
  - apply nbr_universe.
  - unfold universe. apply elem_of_app. left. apply list_elem_of_fmap. eauto.
  - done.
  - pose proof (unvisited_le_length (universe ns ls) st.1). rewrite universe_length in *.
    unfold dfs_fuel. lia.
  - eauto.
Qed.

Lemma findComponents_spec :
  ∃ st, findComponents (dfs_fuel ns ls) adj ns = Ok st
        ∧ components_inv ns ls st ∧ ∀ n, n ∈ ns → id n ∈ st.1.
Proof.
  change (findComponents (dfs_fuel ns ls) adj ns)
    with (forEachM (components_body (dfs_fuel ns ls) adj) ns ([], [])).
  destruct (forEachM_total (fun _ => True) (components_body (dfs_fuel ns ls) adj) ns ([], []))
    as (st & Hst & _); [|done|].
  { intros s x Hx _. destruct (components_body_total s x Hx) as [s' ?]. eauto. }
  exists st. split; [done|].
  apply components_loop_spec in Hst as (? & _ & ?); [done|done|apply components_inv_init].
Qed.

(** On a connected graph the loop stops after the first traversal. *)
Lemma components_loop_skip fuel (nodes' : list (Node N)) st :
  (∀ n, n ∈ nodes' → id n ∈ st.1) →
  forEachM (components_body fuel adj) nodes' st = Ok st.
Proof.
  induction nodes' as [|n nodes' IH]; intros Hall; simpl; [done|].
  unfold components_body at 1.
  assert (js_set_has (id n) st.1 = true) as ->
    by (apply js_set_has_true, Hall; by left).
  simpl. apply IH. intros; apply Hall; by right.
Qed.

Lemma components_loop_connected fuel nodes' st :
  (∀ n, n ∈ nodes' → n ∈ ns) →
  (∀ n, n ∈ nodes' → ∀ a, a ∈ id <$> nodes' → connected ls (id n) a) →
  forEachM (components_body fuel adj) nodes' ([], []) = Ok st →
  length st.2 ≤ 1.
Proof.
  intros Hsub Hconn. destruct nodes' as [|n0 rest]; simpl.
  { intros [= <-]. simpl. lia. }
  intros (st1 & H1 & H2)%rbind_Ok.
  pose proof H1 as H1'.
  apply components_body_spec in H1 as (I1 & _ & V1);
    [|apply Hsub; by left|apply components_inv_init].
  assert (Hall : ∀ n, n ∈ rest → id n ∈ st1.1).
  { intros n Hn. destruct I1 as [_ _ IL].
    assert (Hr : reach adj (id n0) (id n)).
    { apply connected_reach.
      - apply list_elem_of_fmap. exists n0. split; [done|]. apply Hsub. by left.
      - apply Hconn; [by left|]. apply list_elem_of_fmap. exists n. split; [done|]. by right. }
    clear -Hr V1 IL. induction Hr as [|a b c Hab _ IH]; [done|]. apply IH. by eapply IL. }
  rewrite components_loop_skip in H2 by done. injection H2 as <-.
  unfold components_body in H1'. simpl in H1'.
  apply rbind_Ok in H1' as (r & _ & [= <-]). simpl. lia.
Qed.

Lemma findComponents_connected st :
  findComponents (dfs_fuel ns ls) adj ns = Ok st →
  (∀ a b, a ∈ id <$> ns → b ∈ id <$> ns → connected ls a b) →
  length st.2 ≤ 1.
Proof.
  intros Hrun Hconn. eapply components_loop_connected; [| |exact Hrun]; [done|].
  intros n Hn a Ha. apply Hconn; [|done]. apply list_elem_of_fmap. eauto.
Qed.

End graph.

(** ** The sort of the components *)

Lemma insert_by_size_perm c cs : insert_by_size c cs ≡ₚ c :: cs.
Proof.
  induction cs as [|d ds IH]; simpl; [done|].
  destruct (length d <? length c)%nat; [done|]. rewrite IH. apply Permutation_swap.
Qed.

Lemma sort_by_size_perm cs : sort_by_size cs ≡ₚ cs.
Proof.
  unfold sort_by_size.
  assert (H : ∀ acc, foldl (fun acc c => insert_by_size c acc) acc cs ≡ₚ acc ++ cs).
  { induction cs as [|c cs' IH]; intros acc; simpl; [by rewrite app_nil_r|].
    rewrite IH, insert_by_size_perm. simpl. apply Permutation_middle. }
  apply H.
Qed.

Lemma insert_by_size_desc c cs : size_desc cs → size_desc (insert_by_size c cs).
Proof.
  induction cs as [|d ds IH]; simpl; [by intros _; split|].
  intros [Hd Hds]. destruct (length d <? length c)%nat eqn:E; simpl.
  - apply Nat.ltb_lt in E. split_and!; [|done..]. constructor; [lia|].
    eapply Forall_impl; [exact Hd|]. simpl. intros; lia.
  - apply Nat.ltb_ge in E. split; [|by apply IH].
    rewrite insert_by_size_perm. by constructor.
Qed.

Lemma sort_by_size_desc cs : size_desc (sort_by_size cs).
Proof.
  unfold sort_by_size.
  assert (H : ∀ acc, size_desc acc →
                     size_desc (foldl (fun acc c => insert_by_size c acc) acc cs)).
  { induction cs as [|c cs' IH]; intros acc Hacc; simpl; [done|].
    by apply IH, insert_by_size_desc. }
  by apply H.
Qed.

Lemma sort_by_size_head cs main others :
  sort_by_size cs = main :: others → ∀ c, c ∈ cs → length c ≤ length main.
Proof.
  intros Hs c Hc. pose proof (sort_by_size_desc cs) as Hd.
  rewrite <-(sort_by_size_perm cs), Hs in Hc. rewrite Hs in Hd. destruct Hd as [Hd _].
  apply elem_of_cons in Hc as [->|Hc]; [done|].
  by eapply Forall_forall in Hd.
Qed.

(** ** The similarity score *)

Lemma split_nonword_nonempty s cur insep : split_nonword s cur insep ≠ [].
Proof.
  revert cur insep. induction s as [|c r IH]; intros cur insep; simpl; [done|].
  destruct (is_word_char c); [apply IH|]. destruct insep; simpl; [apply IH|done].
Qed.

Lemma js_set_add_nonempty x s : js_set_add x s ≠ [].
Proof.
  unfold js_set_add. destruct (js_set_has x s) eqn:E.
  - apply js_set_has_true in E. intros ->. by apply elem_of_nil in E.
  - by destruct s.
Qed.

Lemma js_set_fold_nonempty xs acc :
  acc ≠ [] → foldl (fun s x => js_set_add x s) acc xs ≠ [].
Proof.
  revert acc. induction xs as [|x xs' IH]; intros acc Hacc; simpl; [done|].
  apply IH, js_set_add_nonempty.
Qed.

Lemma js_set_of_nonempty xs : xs ≠ [] → js_set_of xs ≠ [].
Proof.
  unfold js_set_of. destruct xs as [|x xs']; [done|]. intros _. simpl.
  apply js_set_fold_nonempty, js_set_add_nonempty.
Qed.

Lemma context_words_length ctx : 1 ≤ length (context_words ctx).
Proof.
  unfold context_words.
  pose proof (js_set_of_nonempty _ (split_nonword_nonempty (toLowerCase (join_space ctx)) EmptyString false)) as H.
  destruct (js_set_of _); [done|simpl; lia].
Qed.

Lemma Qeq_bool_false_iff (x y : Q) : Qeq_bool x y = false ↔ ¬ (x == y)%Q.
Proof.
  split.
  - intros H Heq. apply Qeq_bool_iff in Heq. congruence.
  - intros H. destruct (Qeq_bool x y) eqn:E; [|done]. by apply Qeq_bool_iff in E.
Qed.

Lemma Qltb_lt (x y : Q) : Qltb x y = true ↔ (x < y)%Q.
Proof.
  unfold Qltb. rewrite negb_true_iff. split.
  - intros H. apply Qnot_le_lt. intros Hle. apply Qle_bool_iff in Hle. congruence.
  - intros H. destruct (Qle_bool y x) eqn:E; [|done].
    apply Qle_bool_iff in E. exfalso. lra.
Qed.

Lemma Qltb_ge (x y : Q) : Qltb x y = false ↔ (y <= x)%Q.
Proof.
  unfold Qltb. rewrite negb_false_iff. apply Qle_bool_iff.
Qed.

Lemma nonneg_nadd x y : nonneg x → nonneg y → nonneg (nadd x y).
Proof.
  intros (a & -> & ?) (b & -> & ?). exists (Qred (a + b)). split; [done|].
  rewrite Qred_correct. lra.
Qed.

Lemma nonneg_ndiv_nat n m : (1 ≤ m)%nat → nonneg (ndiv (nofnat n) (nofnat m)).
Proof.
  intros Hm. unfold nofnat, nofZ, ndiv.
  assert (0 < inject_Z (Z.of_nat m))%Q as Hpos.
  { change 0%Q with (inject_Z 0). rewrite <-Zlt_Qlt. lia. }
  assert (0 <= inject_Z (Z.of_nat n))%Q as Hn.
  { change 0%Q with (inject_Z 0). rewrite <-Zle_Qle. lia. }
  rewrite (proj2 (Qeq_bool_false_iff _ _)) by lra.
  eexists. split; [done|]. rewrite Qred_correct.
  apply Qle_shift_div_l; [done|]. lra.
Qed.

Lemma calculateNodeSimilarity_nonneg (node1 node2 : Node num) :
  nonneg (calculateNodeSimilarity node1 node2).
Proof.
  unfold calculateNodeSimilarity, jofnat. cbn [jadd jofZ jlit jdiv num_JsNumber].
  change (nofZ (Z.of_nat ?n)) with (nofnat n).
  assert (H0 : nonneg (nofZ 0)) by (exists 0%Q; split; [done|lra]).
  assert (H5 : nonneg (Fin (5 # 10))) by (eexists; split; [done|]; lra).
  assert (H3 : nonneg (Fin (3 # 10))) by (eexists; split; [done|]; lra).
  set (s1 := if (group node1 =? group node2)%Z then _ else _).
  assert (Hs1 : nonneg s1) by (unfold s1; destruct (_ =? _)%Z; auto using nonneg_nadd).
  set (s2 := match context node1 with Some _ => _ | None => _ end).
  assert (Hs2 : nonneg s2).
  { unfold s2. destruct (context node1) as [c1|]; [|done].
    destruct (context node2) as [c2|]; [|done].
    apply nonneg_nadd; [done|]. apply nonneg_ndiv_nat.
    pose proof (context_words_length c1). lia. }
  destruct (bool_decide _); auto using nonneg_nadd.
Qed.

(** ** The best match *)

Lemma find_node_Some {N : Type} x (ns : list (Node N)) n :
  find_node x ns = Some n → id n = x ∧ n ∈ ns.
Proof.
  unfold find_node. intros [Hin Heq]%find_some.
  apply String.eqb_eq in Heq. split; [done|]. by apply list_elem_of_In.
Qed.

Lemma find_node_is_Some {N : Type} x (ns : list (Node N)) :
  x ∈ id <$> ns → is_Some (find_node x ns).
Proof.
  intros (n & -> & Hn)%list_elem_of_fmap. unfold find_node.
  destruct (List.find _ ns) eqn:E; [done|].
  eapply find_none in E; [|by apply list_elem_of_In].
  simpl in E. by rewrite String.eqb_refl in E.
Qed.

Lemma findBestMatch_eq {N : Type} `{JsNumber N} (nodes : list (Node N)) isolatedNode main :
  findBestMatch nodes isolatedNode main
  = forEachM (bestMatch_body nodes isolatedNode) main (EmptyString, jofZ (-1)).
Proof. done. Qed.

Lemma findBestMatch_spec (nodes : list (Node num)) n1 main :
  main ≠ [] → (∀ m, m ∈ main → m ∈ id <$> nodes) →
  ∃ bestMatch, findBestMatch nodes (Some n1) main = Ok bestMatch
               ∧ bestMatch.1 ∈ main ∧ nonneg bestMatch.2.
Proof.
  intros Hne Hids. rewrite findBestMatch_eq.
  destruct main as [|m0 rest]; [done|]. cbn [forEachM].
  assert (Hstep : ∀ b m, m ∈ m0 :: rest →
            ∃ b', bestMatch_body nodes (Some n1) b m = Ok b'
                  ∧ (b' = b ∨ (b'.1 = m ∧ nonneg b'.2))
                  ∧ (b.2 = Fin (-1) → b'.1 = m ∧ nonneg b'.2)).
  { intros b m Hm. unfold bestMatch_body.
    destruct (find_node_is_Some m nodes (Hids m Hm)) as [mainNode ->].
    destruct (calculateNodeSimilarity_nonneg n1 mainNode) as (q & Hq & Hpos).
    simpl. rewrite Hq. destruct (nltb b.2 (Fin q)) eqn:E.
    - eexists. split; [done|]. split; [right|intros _]; (split; [done|by exists q]).
    - eexists. split; [done|]. split; [by left|]. intros Hb. rewrite Hb in E.
      simpl in E. apply Qltb_ge in E.
      assert (-1 == inject_Z (-1))%Q by done. lra. }
  destruct (Hstep (EmptyString, jofZ (-1)) m0) as (b0 & -> & _ & Hb0); [by left|].
  destruct Hb0 as [Hb0 Hq0]; [done|]. cbn [rbind].
  destruct (forEachM_total (fun b => b.1 ∈ m0 :: rest ∧ nonneg b.2)
              (bestMatch_body nodes (Some n1)) rest b0) as (b & Hb & ?).
  - intros b m Hm [Hb1 Hb2].
    destruct (Hstep b m) as (b' & -> & [->|[Heq ?]] & _); [by right|eauto|].
    exists b'. split; [done|]. split; [|done]. rewrite Heq. by right.
  - split; [rewrite Hb0; by left|done].
  - eauto.
Qed.

(** ** connectIsolatedNodes *)

Lemma connectIsolatedNodes_unfold {N : Type} `{JsNumber N}
    (ns : list (Node N)) (ls : list (Link N)) :
  connectIsolatedNodes ns ls =
  (r ←ᵣ findComponents (dfs_fuel ns ls)
          (build_adjacency (id <$> ns) (link_ends <$> ls)) ns;
   if (length r.2 <=? 1)%nat then Ok (mkGraph ns ls)
   else match sort_by_size r.2 with
        | [] => Ok (mkGraph ns ls)
        | mainComponent :: others =>
            newLinks ←ᵣ forEachM (repair_body ns mainComponent) others ls;
            Ok (mkGraph ns newLinks)
        end).
Proof. done. Qed.

(** Whatever the loop returns is the given links followed by inferred ones. *)
Lemma repair_loop_shape {N : Type} `{JsNumber N} (ns : list (Node N)) main others ls0 r :
  forEachM (repair_body ns main) others ls0 = Ok r →
  ∃ added, r = ls0 ++ added_links added.
Proof.
  revert ls0. induction others as [|c others IH]; intros ls0; simpl.
  - intros [= <-]. exists []. by rewrite app_nil_r.
  - intros (l1 & H1 & H2)%rbind_Ok. destruct c as [|h t]; [done|]. simpl in H1.
    apply rbind_Ok in H1 as (b & _ & [= <-]).
    apply IH in H2 as (added & ->). exists ((h, b.1) :: added).
    by rewrite <-app_assoc.
Qed.

Lemma repair_loop_spec (ns : list (Node num)) main others ls0 :
  main ≠ [] → (∀ m, m ∈ main → m ∈ id <$> ns) →
  (∀ c, c ∈ others → ∃ h t, c = h :: t ∧ h ∈ id <$> ns) →
  ∃ added, forEachM (repair_body ns main) others ls0 = Ok (ls0 ++ added_links added)
           ∧ Forall2 (fun c ht => (∃ t, c = ht.1 :: t) ∧ ht.2 ∈ main) others added.
Proof.
  intros Hne Hmain. revert ls0. induction others as [|c others IH]; intros ls0 Hc; simpl.
  - exists []. rewrite app_nil_r. by split.
  - destruct (Hc c) as (h & t & -> & Hh); [by left|]. simpl.
    destruct (find_node_is_Some h ns Hh) as [n1 ->].
    destruct (findBestMatch_spec ns n1 main Hne Hmain) as (b & -> & Hb & _). simpl.
    destruct (IH (ls0 ++ [inferred_link h b.1])) as (added & -> & HF).
    { intros; apply Hc; by right. }
    exists ((h, b.1) :: added). rewrite <-app_assoc. split; [done|].
    constructor; [|done]. simpl. eauto.
Qed.

(** The structure of a repair. *)
Lemma connectIsolatedNodes_spec (ns : list (Node num)) (ls : list (Link num)) :
  links_reference_nodes ns ls →
  ∃ st, findComponents (dfs_fuel ns ls) (adjacency_of ns ls) ns = Ok st
    ∧ components_inv ns ls st ∧ (∀ n, n ∈ ns → id n ∈ st.1)
    ∧ ((length st.2 ≤ 1 ∧ connectIsolatedNodes ns ls = Ok (mkGraph ns ls))
       ∨ (1 < length st.2 ∧ ∃ main others added,
            sort_by_size st.2 = main :: others
            ∧ Forall2 (fun c ht => (∃ t, c = ht.1 :: t) ∧ ht.2 ∈ main) others added
            ∧ connectIsolatedNodes ns ls = Ok (mkGraph ns (ls ++ added_links added)))).
Proof.
  intros Href. destruct (findComponents_spec ns ls Href) as (st & Hst & Hinv & Hall).
  exists st. split_and!; [done..|].
  rewrite connectIsolatedNodes_unfold. unfold adjacency_of in Hst. rewrite Hst. simpl.
  destruct (length st.2 <=? 1)%nat eqn:E.
  { apply Nat.leb_le in E. by left. }
  apply Nat.leb_gt in E. right. split; [done|].
  pose proof (sort_by_size_perm st.2) as Hperm.
  destruct (sort_by_size st.2) as [|main others] eqn:Hsort.
  { apply Permutation_length in Hperm. simpl in Hperm. lia. }
  assert (Hcomp : ∀ c, c ∈ main :: others →
            ∃ h t, c = h :: t ∧ h ∈ id <$> ns ∧ ∀ y, y ∈ c → y ∈ id <$> ns).
  { intros c Hc. rewrite Hperm in Hc.
    destruct (inv_component _ _ _ Hinv c Hc) as (h & t & -> & Hh & Hy).
    exists h, t. split_and!; [done..|]. intros y Hin.
    eapply reach_ids; [done|done|]. by apply Hy. }
  destruct (repair_loop_spec ns main others ls) as (added & -> & HF).
  - destruct (Hcomp main) as (h & t & -> & _); [by left|done].
  - intros m Hm. destruct (Hcomp main) as (h & t & _ & _ & Hy); [by left|]. by apply Hy.
  - intros c Hc. destruct (Hcomp c) as (h & t & -> & ? & _); [by right|]. eauto.
  - exists main, others, added. done.
Qed.

Lemma added_links_ids (ns : list (Node num)) (ls : list (Link num)) st main others added :
  links_reference_nodes ns ls →
  components_inv ns ls st →
  sort_by_size st.2 = main :: others →
  Forall2 (fun c ht => (∃ t, c = ht.1 :: t) ∧ ht.2 ∈ main) others added →
  ∀ ht, ht ∈ added →
    ht.1 ∈ id <$> ns ∧ ht.2 ∈ id <$> ns
    ∧ ∃ c, c ∈ others ∧ head c = Some ht.1.
Proof.
  intros Href Hinv Hsort HF ht Hht.
  pose proof (sort_by_size_perm st.2) as Hperm. rewrite Hsort in Hperm.
  assert (Hcomp : ∀ c, c ∈ main :: others →
            ∃ h t, c = h :: t ∧ h ∈ id <$> ns ∧ ∀ y, y ∈ c → y ∈ id <$> ns).
  { intros c Hc. rewrite Hperm in Hc.
    destruct (inv_component _ _ _ Hinv c Hc) as (h & t & -> & Hh & Hy).
    exists h, t. split_and!; [done..|]. intros y Hin.
    eapply reach_ids; [done|done|]. by apply Hy. }
  apply list_elem_of_lookup in Hht as [i Hi].
  destruct (Forall2_lookup_r _ _ _ _ _ HF Hi) as (c & Hc & (t & ->) & Hmain).
  apply list_elem_of_lookup_2 in Hc.
  destruct (Hcomp (ht.1 :: t)) as (h & t' & [= <- <-] & Hh & _); [by right|].
  destruct (Hcomp main) as (_ & _ & _ & _ & Hm); [by left|].
  split_and!; [done|by apply Hm|]. exists (ht.1 :: t). done.
Qed.

Lemma links_reference_nodes_app {N : Type} (ns : list (Node N)) (ls ls' : list (Link N)) :
  links_reference_nodes ns ls → links_reference_nodes ns ls' →
  links_reference_nodes ns (ls ++ ls').
Proof. intros H1 H2 l [?|?]%elem_of_app; eauto. Qed.

Lemma elem_of_added_links {N : Type} `{JsNumber N} (added : list (string * string))
    (l : Link N) :
  l ∈ added_links added ↔ ∃ ht, ht ∈ added ∧ l = inferred_link ht.1 ht.2.
Proof. unfold added_links. rewrite list_elem_of_fmap. naive_solver. Qed.

(** The repaired graph keeps its endpoints among the nodes and joins all of
    them. *)
Lemma repair_connected (ns : list (Node num)) (ls : list (Link num)) :
  links_reference_nodes ns ls →
  ∃ added, connectIsolatedNodes ns ls = Ok (mkGraph ns (ls ++ added_links added))
    ∧ links_reference_nodes ns (ls ++ added_links added)
    ∧ ∀ a b, a ∈ id <$> ns → b ∈ id <$> ns →
             connected (ls ++ added_links added) a b.
Proof.
  intros Href.
  destruct (connectIsolatedNodes_spec ns ls Href) as (st & Hst & Hinv & Hall & Hcase).
  assert (Hcov : ∀ a, a ∈ id <$> ns → ∃ h t, h :: t ∈ st.2 ∧ a ∈ h :: t ∧ connected ls h a).
  { intros a (n & -> & Hn)%list_elem_of_fmap.
    destruct (inv_covered _ _ _ Hinv (id n) (Hall n Hn)) as (c & Hc & Hin).
    destruct (inv_component _ _ _ Hinv c Hc) as (h & t & -> & _ & Hy).
    exists h, t. split_and!; [done..|]. eapply reach_connected. by apply Hy. }
  destruct Hcase as [[Hlen Hout]|(Hlen & main & others & added & Hsort & HF & Hout)].
  - exists []. unfold added_links. simpl. rewrite app_nil_r.
    split_and!; [done..|]. intros a b Ha Hb.
    destruct (Hcov a Ha) as (h & t & Hc & _ & Hca).
    destruct (Hcov b Hb) as (h' & t' & Hc' & _ & Hcb).
    destruct st.2 as [|c0 [|c1 cs]]; [by apply elem_of_nil in Hc| |simpl in Hlen; lia].
    apply list_elem_of_singleton in Hc as <-. apply list_elem_of_singleton in Hc' as [= -> ->].
    etrans; [by apply connected_sym|done].
  - exists added. split; [done|].
    assert (Hids := added_links_ids ns ls st main others added Href Hinv Hsort HF).
    assert (Href' : links_reference_nodes ns (ls ++ added_links added)).
    { apply links_reference_nodes_app; [done|].
      intros l (ht & Hht & ->)%elem_of_added_links.
      destruct (Hids ht Hht) as (? & ? & _). done. }
    split; [done|].
    pose proof (sort_by_size_perm st.2) as Hperm. rewrite Hsort in Hperm.
    assert (Hmain : ∃ m0 t0, main = m0 :: t0 ∧ ∀ y, y ∈ main → connected ls m0 y).
    { destruct (inv_component _ _ _ Hinv main) as (m0 & t0 & -> & _ & Hy).
      { rewrite <-Hperm. by left. }
      exists m0, t0. split; [done|]. intros y Hin. eapply reach_connected. by apply Hy. }
    destruct Hmain as (m0 & t0 & Hmain & Hm0).
    assert (Hmono : ∀ x y, connected ls x y → connected (ls ++ added_links added) x y).
    { intros x y. apply connected_mono. intros l ?. apply elem_of_app. by left. }
    assert (Hto : ∀ a, a ∈ id <$> ns → connected (ls ++ added_links added) m0 a).
    { intros a Ha. destruct (Hcov a Ha) as (h & t & Hc & Hin & Hca).
      rewrite <-Hperm in Hc. apply elem_of_cons in Hc as [<-|Hc].
      - apply Hmono, Hm0. done.
      - apply list_elem_of_lookup in Hc as [i Hi].
        destruct (Forall2_lookup_l _ _ _ _ _ HF Hi) as (ht & Hht & (t' & [= -> ->]) & Hmn).
        apply list_elem_of_lookup_2 in Hht.
        etrans; [apply Hmono, Hm0, Hmn|].
        eapply rtc_l; [|by apply Hmono].
        exists (inferred_link ht.1 ht.2). split; [|by right].
        apply elem_of_app. right. apply elem_of_added_links. eauto. }
    intros a b Ha Hb. etrans; [apply connected_sym|]; eauto.
Qed.

Lemma scenario_links_reference_nodes : links_reference_nodes scenario_nodes scenario_links.
Proof.
  intros l Hl. unfold scenario_links in Hl.
  repeat (apply elem_of_cons in Hl as [->|Hl]); [| |by apply elem_of_nil in Hl];
    split; apply (bool_decide_unpack _); by vm_compute.
Qed.

(** C1: for every graph whose links refer to node ids,
    [connectIsolatedNodes] returns a graph on the same nodes in which any
    two node ids are joined by an undirected path, in which the component
    search of the code finds exactly one component when there is a node,
    and on which a second repair returns the graph unchanged.  On the nodes
    A, B, C, D with the links A-B and C-D the result has 3 links and one
    component. *)
Theorem connectIsolatedNodes_connected_idempotent :
  (∀ (ns : list (Node num)) (ls : list (Link num)),
     links_reference_nodes ns ls →
     ∃ out, connectIsolatedNodes ns ls = Ok out
       ∧ nodes out = ns
       ∧ (∀ a b, a ∈ id <$> ns → b ∈ id <$> ns → connected (links out) a b)
       ∧ (ns ≠ [] → ∃ visited component,
            findComponents (dfs_fuel ns (links out)) (adjacency_of ns (links out)) ns
            = Ok (visited, [component]))
       ∧ connectIsolatedNodes (nodes out) (links out) = Ok out)
  ∧ (∃ out visited component,
       connectIsolatedNodes scenario_nodes scenario_links = Ok out
       ∧ length (links out) = 3
       ∧ findComponents (dfs_fuel scenario_nodes (links out))
           (adjacency_of scenario_nodes (links out)) scenario_nodes
         = Ok (visited, [component])).
Proof.
  split.
  - intros ns ls Href.
    destruct (repair_connected ns ls Href) as (added & Hout & Href' & Hconn).
    exists (mkGraph ns (ls ++ added_links added)). simpl.
    destruct (connectIsolatedNodes_spec ns _ Href') as (st & Hst & Hinv & Hall & Hcase).
    assert (Hlen : length st.2 ≤ 1) by (eapply findComponents_connected; done).
    split_and!; [done..| |].
    + intros Hne. destruct st as [visited comps]. simpl in *.
      exists visited. destruct comps as [|c [|c' cs]]; [|eauto|simpl in Hlen; lia].
      destruct ns as [|n0 ns']; [done|].
      destruct (inv_covered _ _ _ Hinv (id n0)) as (c & []%elem_of_nil & _).
      apply Hall. by left.
    + destruct Hcase as [[_ ?]|[? _]]; [done|lia].
  - eexists _, _, _. split_and!; [by vm_compute|by vm_compute|by vm_compute].
Qed.

Lemma connectIsolatedNodes_scenario_witness :
  ∃ out, connectIsolatedNodes scenario_nodes scenario_links = Ok out
    ∧ nodes out = scenario_nodes
    ∧ (∀ a b, a ∈ id <$> scenario_nodes → b ∈ id <$> scenario_nodes →
              connected (links out) a b)
    ∧ (scenario_nodes ≠ [] → ∃ visited component,
         findComponents (dfs_fuel scenario_nodes (links out))
           (adjacency_of scenario_nodes (links out)) scenario_nodes
         = Ok (visited, [component]))
    ∧ connectIsolatedNodes (nodes out) (links out) = Ok out.
Proof.
  exact (proj1 connectIsolatedNodes_connected_idempotent
           scenario_nodes scenario_links scenario_links_reference_nodes).
Defined.

(** C10: every link the repair adds starts at the first member of a
    component other than the main one and ends in the main component, a
    largest one; both ends are ids of nodes.  Every similarity score is a
    finite number that is at least 0, above the initial -1. *)
Theorem connectIsolatedNodes_endpoints (ns : list (Node num)) (ls : list (Link num)) :
  links_reference_nodes ns ls →
  ∃ st added,
    findComponents (dfs_fuel ns ls) (adjacency_of ns ls) ns = Ok st
    ∧ connectIsolatedNodes ns ls = Ok (mkGraph ns (ls ++ added_links added))
    ∧ (added = [] ∨
       ∃ mainComponent others,
         sort_by_size st.2 = mainComponent :: others
         ∧ (∀ c, c ∈ st.2 → length c ≤ length mainComponent)
         ∧ Forall2 (fun c ht => head c = Some ht.1 ∧ ht.2 ∈ mainComponent)
             others added)
    ∧ (∀ l, l ∈ added_links added →
         sourceId l ∈ id <$> ns ∧ targetId l ∈ id <$> ns)
    ∧ (∀ n1 n2 : Node num,
         ∃ q, calculateNodeSimilarity n1 n2 = Fin q ∧ (0 <= q)%Q ∧ (-1 < q)%Q).
Proof.
  intros Href.
  destruct (connectIsolatedNodes_spec ns ls Href) as (st & Hst & Hinv & Hall & Hcase).
  assert (Hsim : ∀ n1 n2 : Node num,
            ∃ q, calculateNodeSimilarity n1 n2 = Fin q ∧ (0 <= q)%Q ∧ (-1 < q)%Q).
  { intros n1 n2. destruct (calculateNodeSimilarity_nonneg n1 n2) as (q & ? & ?).
    exists q. split_and!; [done..|lra]. }
  destruct Hcase as [[Hlen Hout]|(Hlen & main & others & added & Hsort & HF & Hout)].
  - exists st, []. unfold added_links. simpl. rewrite app_nil_r.
    split_and!; [done|done|by left| |done]. by intros l ?%elem_of_nil.
  - exists st, added. split_and!; [done|done| | |done].
    + right. exists main, others. split_and!; [done| |].
      * by apply sort_by_size_head with others.
      * eapply Forall2_impl; [exact HF|]. simpl. intros c ht [[t ->] ?]. done.
    + intros l (ht & Hht & ->)%elem_of_added_links.
      destruct (added_links_ids ns ls st main others added Href Hinv Hsort HF ht Hht)
        as (? & ? & _). done.
Qed.

Lemma connectIsolatedNodes_endpoints_witness :
  ∃ st added,
    findComponents (dfs_fuel scenario_nodes scenario_links)
      (adjacency_of scenario_nodes scenario_links) scenario_nodes = Ok st
    ∧ connectIsolatedNodes scenario_nodes scenario_links
      = Ok (mkGraph scenario_nodes (scenario_links ++ added_links added))
    ∧ (added = [] ∨
       ∃ mainComponent others,
         sort_by_size st.2 = mainComponent :: others
         ∧ (∀ c, c ∈ st.2 → length c ≤ length mainComponent)
         ∧ Forall2 (fun c ht => head c = Some ht.1 ∧ ht.2 ∈ mainComponent)
             others added)
    ∧ (∀ l, l ∈ added_links added →
         sourceId l ∈ id <$> scenario_nodes ∧ targetId l ∈ id <$> scenario_nodes)
    ∧ (∀ n1 n2 : Node num,
         ∃ q, calculateNodeSimilarity n1 n2 = Fin q ∧ (0 <= q)%Q ∧ (-1 < q)%Q).
Proof.
  exact (connectIsolatedNodes_endpoints scenario_nodes scenario_links
           scenario_links_reference_nodes).
Defined.

(** C4, as the code has it: the repair returns on every graph whose links
    refer to node ids, and whenever it returns, the links of the result are
    the given links followed by the synthesized ones, each of which has
    weight 1, type "inferred_relation" and the fixed context text; no
    [isInferred] property is set on it. *)
Theorem inferred_links_shape (ns : list (Node num)) (ls : list (Link num)) :
  (links_reference_nodes ns ls → ∃ out, connectIsolatedNodes ns ls = Ok out)
  ∧ ∀ out, connectIsolatedNodes ns ls = Ok out →
    ∃ added, links out = ls ++ added
      ∧ ∀ l, l ∈ added →
          value l = Fin 1
          ∧ ltype l = Some "inferred_relation"%string
          ∧ lcontext l = Some "Inferred relationship based on domain similarity"%string
          ∧ isInferred l = None.
Proof.
  split.
  { intros Href. destruct (repair_connected ns ls Href) as (added & Hout & _). eauto. }
  intros out.
  rewrite connectIsolatedNodes_unfold. intros (r & _ & Hr)%rbind_Ok.
  assert (Hnil : ∃ added : list (Link num), ls = ls ++ added ∧
            ∀ l, l ∈ added → value l = Fin 1
              ∧ ltype l = Some "inferred_relation"%string
              ∧ lcontext l = Some "Inferred relationship based on domain similarity"%string
              ∧ isInferred l = None).
  { exists []. rewrite app_nil_r. split; [done|]. by intros l ?%elem_of_nil. }
  destruct (length r.2 <=? 1)%nat; [by injection Hr as <-|].
  destruct (sort_by_size r.2) as [|main others]; [by injection Hr as <-|].
  apply rbind_Ok in Hr as (newLinks & Hloop & [= <-]). simpl.
  apply repair_loop_shape in Hloop as (added & ->).
  exists (added_links added). split; [done|].
  intros l (ht & _ & ->)%elem_of_added_links. done.
Qed.

Lemma inferred_links_shape_witness :
  ∃ added, scenario_links ++ [inferred_link "C" "A"] = scenario_links ++ added
    ∧ ∀ l, l ∈ added →
        value l = Fin 1
        ∧ ltype l = Some "inferred_relation"%string
        ∧ lcontext l = Some "Inferred relationship based on domain similarity"%string
        ∧ isInferred l = None.
Proof.
  apply (proj2 (inferred_links_shape scenario_nodes scenario_links)
           (mkGraph scenario_nodes (scenario_links ++ [inferred_link "C" "A"]))).
  vm_compute. reflexivity.
Defined.

(** C4 as stated fails: on the nodes A, B, C, D with the links A-B and C-D
    the repair adds one link, and its [isInferred] property is not [true]. *)
Lemma inferred_link_isInferred_unset :
  ∃ l, connectIsolatedNodes scenario_nodes scenario_links
       = Ok (mkGraph scenario_nodes (scenario_links ++ [l]))
    ∧ isInferred l ≠ Some true.
Proof. exists (inferred_link "C" "A"). split; [by vm_compute|done]. Qed.

(** ** Link curvature *)

Lemma addr_inj {A : Type} (xs : list (Ref A)) x y :
  NoDup (addr <$> xs) → x ∈ xs → y ∈ xs → addr x = addr y → x = y.
Proof.
  induction xs as [|z xs IH]; [by intros _ ?%elem_of_nil|].
  rewrite fmap_cons, NoDup_cons. intros [Hz Hnd] Hx Hy Heq.
  apply elem_of_cons in Hx as [->|Hx]; apply elem_of_cons in Hy as [->|Hy]; auto.
  - exfalso. apply Hz. rewrite Heq. apply list_elem_of_fmap. eauto.
  - exfalso. apply Hz. rewrite <-Heq. apply list_elem_of_fmap. eauto.
Qed.

Lemma indexOf_from_spec {A : Type} (i : Z) (x : Ref A) (xs : list (Ref A)) :
  NoDup (addr <$> xs) → x ∈ xs →
  ∃ n : nat, xs !! n = Some x ∧ indexOf_from i x xs = (i + Z.of_nat n)%Z.
Proof.
  revert i. induction xs as [|y xs IH]; intros i Hnd Hx; [by apply elem_of_nil in Hx|].
  simpl. destruct (Nat.eqb (addr y) (addr x)) eqn:E.
  - apply Nat.eqb_eq in E. exists O. split; [|lia]. simpl. f_equal.
    eapply addr_inj; [done|by left|done|done].
  - apply Nat.eqb_neq in E. apply elem_of_cons in Hx as [->|Hx]; [done|].
    rewrite fmap_cons in Hnd. apply NoDup_cons in Hnd as [_ Hnd].
    destruct (IH (i + 1)%Z Hnd Hx) as (n & Hn & ->). exists (S n). split; [done|lia].
Qed.

Lemma indexOf_spec {A : Type} (x : Ref A) (xs : list (Ref A)) :
  NoDup (addr <$> xs) → x ∈ xs →
  ∃ n : nat, xs !! n = Some x ∧ indexOf x xs = Z.of_nat n.
Proof.
  intros Hnd Hx. unfold indexOf.
  destruct (indexOf_from_spec 0 x xs Hnd Hx) as (n & ? & ->). eauto.
Qed.

Lemma filter_addr_NoDup {A : Type} (P : Ref A → bool) (xs : list (Ref A)) :
  NoDup (addr <$> xs) → NoDup (addr <$> List.filter P xs).
Proof.
  induction xs as [|y xs IH]; [done|].
  rewrite fmap_cons, NoDup_cons. intros [Hy Hnd]. cbn [List.filter].
  destruct (P y); [|by apply IH].
  rewrite fmap_cons. apply NoDup_cons. split; [|by apply IH].
  intros (z & Hz & Hin)%list_elem_of_fmap. apply Hy. apply list_elem_of_fmap.
  exists z. split; [done|]. apply list_elem_of_In, filter_In in Hin as [Hin _].
  by apply list_elem_of_In.
Qed.

Lemma elem_of_list_filter_bool {A : Type} (P : A → bool) (xs : list A) x :
  x ∈ List.filter P xs ↔ x ∈ xs ∧ P x = true.
Proof. rewrite !list_elem_of_In. apply filter_In. Qed.

Lemma is_parallel_true {N : Type} (s t : string) (l : Ref (Link N)) :
  is_parallel s t l = true ↔
  (sourceId (obj l) = s ∧ targetId (obj l) = t) ∨ (sourceId (obj l) = t ∧ targetId (obj l) = s).
Proof.
  unfold is_parallel. rewrite orb_true_iff, !andb_true_iff, !String.eqb_eq. done.
Qed.

Lemma is_parallel_swap {N : Type} (s t : string) (l : Ref (Link N)) :
  is_parallel s t l = is_parallel t s l.
Proof. unfold is_parallel. apply orb_comm. Qed.

Lemma parallelLinks_same_pair {N : Type} (l1 l2 : Ref (Link N)) allLinks :
  same_pair l1 l2 → parallelLinks l1 allLinks = parallelLinks l2 allLinks.
Proof.
  unfold parallelLinks. intros [[-> ->]|[-> ->]]; [done|].
  induction allLinks as [|l ls IH]; simpl; [done|].
  rewrite IH, is_parallel_swap. done.
Qed.

Lemma nsub_Fin a b : nsub (Fin a) (Fin b) = Fin (Qred (a + Qred (- b))).
Proof. done. Qed.

Lemma nmul_Fin a b : nmul (Fin a) (Fin b) = Fin (Qred (a * b)).
Proof. done. Qed.


Lemma ndiv_Fin a b : ¬ (b == 0)%Q → ndiv (Fin a) (Fin b) = Fin (Qred (a / b)).
Proof. intros Hb. unfold ndiv. by rewrite (proj2 (Qeq_bool_false_iff _ _)). Qed.

Lemma calculateLinkCurvature_fan (link : Ref (Link num)) allLinks :
  NoDup (addr <$> allLinks) → link ∈ allLinks →
  sourceId (obj link) ≠ targetId (obj link) →
  length (parallelLinks link allLinks) ≠ 1 →
  ∃ i q, parallelLinks link allLinks !! i = Some link
         ∧ calculateLinkCurvature link allLinks = Fin q
         ∧ (q == fan i (length (parallelLinks link allLinks)))%Q.
Proof.
  intros Hnd Hin Hne Hk. unfold calculateLinkCurvature.
  fold (parallelLinks link allLinks).
  rewrite (proj2 (String.eqb_neq _ _)) by done.
  rewrite (proj2 (Nat.eqb_neq _ _)) by done.
  destruct (indexOf_spec link (parallelLinks link allLinks)) as (i & Hi & ->).
  { by apply filter_addr_NoDup. }
  { apply elem_of_list_filter_bool. split; [done|]. apply is_parallel_true. by left. }
  exists i. unfold jofnat. cbn [jmul jsub jdiv jofZ jlit num_JsNumber]. unfold nofZ.
  rewrite nsub_Fin, ndiv_Fin, nsub_Fin, nmul_Fin by done.
  eexists. split; [done|]. split; [reflexivity|].
  unfold fan. rewrite !Qred_correct.
  change (inject_Z 1) with 1%Q. change (inject_Z 2) with 2%Q.
  assert ((5 # 10) == (1 # 2))%Q as -> by done. unfold Qdiv. ring.
Qed.

(** C5: over distinct link objects, a self-link gets a positive curvature;
    a link between two different nodes gets 0 when it is the only one on
    its unordered pair, and [0.5 * (i - (k - 1) / 2)] when it is at place
    [i], in the order of the sequence, among the [k > 1] links on its pair;
    two different links on the same pair never get equal values.  Three
    links from X to Y get -0.5, 0, 0.5 in this order. *)
Theorem calculateLinkCurvature_spec :
  (∀ (allLinks : list (Ref (Link num))) (link : Ref (Link num)),
     NoDup (addr <$> allLinks) → link ∈ allLinks →
     (sourceId (obj link) = targetId (obj link) →
      ∃ q, calculateLinkCurvature link allLinks = Fin q ∧ (0 < q)%Q)
     ∧ (sourceId (obj link) ≠ targetId (obj link) →
        (parallelLinks link allLinks = [link] →
         calculateLinkCurvature link allLinks = Fin 0)
        ∧ (1 < length (parallelLinks link allLinks) →
           ∃ i q, parallelLinks link allLinks !! i = Some link
             ∧ calculateLinkCurvature link allLinks = Fin q
             ∧ (q == (1 # 2) * (inject_Z (Z.of_nat i)
                       - (inject_Z (Z.of_nat (length (parallelLinks link allLinks))) - 1) / 2))%Q)
        ∧ (∀ link', link' ∈ allLinks → link' ≠ link → same_pair link link' →
           ∃ q q', calculateLinkCurvature link allLinks = Fin q
             ∧ calculateLinkCurvature link' allLinks = Fin q'
             ∧ ¬ (q == q')%Q)))
  ∧ curvature <$> enrichLinksWithCurvature curvature_scenario
    = [Some (Fin (-1 # 2)); Some (Fin 0); Some (Fin (1 # 2))].
Proof.
  split; [|by vm_compute].
  intros allLinks link Hnd Hin. split.
  { intros Heq. unfold calculateLinkCurvature.
    rewrite (proj2 (String.eqb_eq _ _)) by done. eexists. split; [reflexivity|done]. }
  intros Hne. split_and!.
  - intros Hone. unfold calculateLinkCurvature. fold (parallelLinks link allLinks).
    rewrite (proj2 (String.eqb_neq _ _)) by done. by rewrite Hone.
  - intros Hk. destruct (calculateLinkCurvature_fan link allLinks) as (i & q & ? & ? & ?);
      [done|done|done|lia|]. exists i, q. done.
  - intros link' Hin' Hdiff Hpair.
    assert (Hne' : sourceId (obj link') ≠ targetId (obj link')).
    { destruct Hpair as [[H1 H2]|[H1 H2]]; congruence. }
    pose proof (parallelLinks_same_pair link link' allLinks Hpair) as Hpar.
    assert (Hmem : link ∈ parallelLinks link allLinks ∧ link' ∈ parallelLinks link allLinks).
    { split; apply elem_of_list_filter_bool; (split; [done|]); apply is_parallel_true.
      - by left.
      - destruct Hpair as [[H1 H2]|[H1 H2]]; eauto. }
    destruct Hmem as [Hm Hm'].
    assert (Hk : length (parallelLinks link allLinks) ≠ 1).
    { destruct (parallelLinks link allLinks) as [|x [|y r]]; simpl; [done| |lia].
      apply list_elem_of_singleton in Hm, Hm'. congruence. }
    destruct (calculateLinkCurvature_fan link allLinks) as (i & q & Hi & Hq & Hqi);
      [done..|].
    destruct (calculateLinkCurvature_fan link' allLinks) as (i' & q' & Hi' & Hq' & Hqi');
      [done|done|done|by rewrite <-Hpar|].
    exists q, q'. split_and!; [done..|]. rewrite Hqi, Hqi', <-Hpar.
    assert (i ≠ i') as Hii.
    { intros ->. rewrite <-Hpar in Hi'. congruence. }
    unfold fan. intros Heq.
    assert (inject_Z (Z.of_nat i) == inject_Z (Z.of_nat i'))%Q as Hz.
    { revert Heq.
      generalize (inject_Z (Z.of_nat i)), (inject_Z (Z.of_nat i')),
        (inject_Z (Z.of_nat (length (parallelLinks link allLinks)))).
      clear. intros a b k Heq. lra. }
    unfold Qeq in Hz. simpl in Hz. clear -Hz Hii. lia.
Qed.

Lemma calculateLinkCurvature_spec_witness :
  (sourceId (obj (mkRef 1 (scenario_link "X" "Y")))
   = targetId (obj (mkRef 1 (scenario_link "X" "Y"))) →
   ∃ q, calculateLinkCurvature (mkRef 1 (scenario_link "X" "Y")) curvature_scenario = Fin q
        ∧ (0 < q)%Q)
  ∧ (sourceId (obj (mkRef 1 (scenario_link "X" "Y")))
     ≠ targetId (obj (mkRef 1 (scenario_link "X" "Y"))) →
     (parallelLinks (mkRef 1 (scenario_link "X" "Y")) curvature_scenario
      = [mkRef 1 (scenario_link "X" "Y")] →
      calculateLinkCurvature (mkRef 1 (scenario_link "X" "Y")) curvature_scenario = Fin 0)
     ∧ (1 < length (parallelLinks (mkRef 1 (scenario_link "X" "Y")) curvature_scenario) →
        ∃ i q, parallelLinks (mkRef 1 (scenario_link "X" "Y")) curvature_scenario !! i
               = Some (mkRef 1 (scenario_link "X" "Y"))
          ∧ calculateLinkCurvature (mkRef 1 (scenario_link "X" "Y")) curvature_scenario = Fin q
          ∧ (q == (1 # 2) * (inject_Z (Z.of_nat i)
                    - (inject_Z (Z.of_nat (length (parallelLinks
                         (mkRef 1 (scenario_link "X" "Y")) curvature_scenario))) - 1) / 2))%Q)
     ∧ (∀ link', link' ∈ curvature_scenario → link' ≠ mkRef 1 (scenario_link "X" "Y") →
        same_pair (mkRef 1 (scenario_link "X" "Y")) link' →
        ∃ q q', calculateLinkCurvature (mkRef 1 (scenario_link "X" "Y")) curvature_scenario = Fin q
          ∧ calculateLinkCurvature link' curvature_scenario = Fin q'
          ∧ ¬ (q == q')%Q)).
Proof.
  apply (proj1 calculateLinkCurvature_spec curvature_scenario
           (mkRef 1 (scenario_link "X" "Y"))).
  - apply (bool_decide_unpack _). by vm_compute.
  - unfold curvature_scenario. apply elem_of_cons. right. by left.
Defined.

(** ** The automatic choice of a layout *)

Lemma parentCount_fold {N : Type} (ls : list (Link N)) (m : gmap string nat) k :
  default O (foldl (fun m link =>
     <[targetId link := (default O (m !! targetId link) + 1)%nat]> m) m ls !! k)
  = (default O (m !! k) + incoming ls k)%nat
  ∧ (is_Some (foldl (fun m link =>
     <[targetId link := (default O (m !! targetId link) + 1)%nat]> m) m ls !! k)
     ↔ is_Some (m !! k) ∨ 0 < incoming ls k).
Proof.
  revert m. induction ls as [|l ls IH]; intros m.
  { unfold incoming. simpl. split; [lia|]. split; [by left|]. intros [|]; [done|lia]. }
  cbn [foldl]. destruct (IH (<[targetId l := (default O (m !! targetId l) + 1)%nat]> m))
    as [IH1 IH2]. rewrite IH1, IH2. unfold incoming. cbn [List.filter].
  destruct (String.eqb_spec (targetId l) k) as [->|Hne].
  - rewrite lookup_insert_eq. simpl. split; [lia|]. split; [right; lia|]. left. done.
  - rewrite lookup_insert_ne by done. split; [done|]. done.
Qed.

Lemma parentCount_init {N : Type} (ns : list (Node N)) (m : gmap string nat) k :
  default O (foldl (fun m n => <[id n := O]> m) m ns !! k) =
    (if bool_decide (k ∈ id <$> ns) then O else default O (m !! k))
  ∧ (is_Some (foldl (fun m n => <[id n := O]> m) m ns !! k)
     ↔ k ∈ id <$> ns ∨ is_Some (m !! k)).
Proof.
  revert m. induction ns as [|n ns IH]; intros m.
  { simpl. split; [done|]. split; [by right|]. by intros [?%elem_of_nil|]. }
  cbn [foldl]. destruct (IH (<[id n := O]> m)) as [IH1 IH2]. rewrite IH1, IH2.
  rewrite fmap_cons. destruct (decide (k ∈ id <$> ns)) as [Hin|Hin].
  - rewrite !bool_decide_eq_true_2; [|by right|done]. split; [done|].
    split; intros _; left; [by right|done].
  - rewrite (bool_decide_eq_false_2 (k ∈ id <$> ns)) by done.
    destruct (decide (id n = k)) as [->|Hne].
    + rewrite lookup_insert_eq, bool_decide_eq_true_2 by left. simpl.
      split; [done|]. split; intros _; [left; by left|right; done].
    + rewrite lookup_insert_ne by done.
      rewrite bool_decide_eq_false_2 by (intros [?|?]%elem_of_cons; done).
      split; [done|]. rewrite elem_of_cons. naive_solver.
Qed.

Lemma parentCount_lookup {N : Type} (ns : list (Node N)) (ls : list (Link N)) k c :
  parentCount ns ls !! k = Some c → c = incoming ls k.
Proof.
  intros Hk. unfold parentCount in Hk.
  destruct (parentCount_fold ls (foldl (fun m n => <[id n := O]> m) ∅ ns) k) as [H1 _].
  rewrite Hk in H1. simpl in H1.
  destruct (parentCount_init ns ∅ k) as [H2 _]. rewrite H2 in H1.
  rewrite lookup_empty in H1. simpl in H1. destruct (bool_decide _); lia.
Qed.

Lemma parentCount_is_Some {N : Type} (ns : list (Node N)) (ls : list (Link N)) k :
  is_Some (parentCount ns ls !! k) ↔ k ∈ id <$> ns ∨ 0 < incoming ls k.
Proof.
  unfold parentCount.
  destruct (parentCount_fold ls (foldl (fun m n => <[id n := O]> m) ∅ ns) k) as [_ ->].
  destruct (parentCount_init ns ∅ k) as [_ ->]. rewrite lookup_empty.
  split; [intros [[|[? [=]]]|]; eauto|intros [|]; eauto].
Qed.

Lemma incoming_pos {N : Type} (ls : list (Link N)) k :
  0 < incoming ls k ↔ ∃ l, l ∈ ls ∧ targetId l = k.
Proof.
  unfold incoming. split.
  - intros Hpos. destruct (List.filter _ ls) as [|l r] eqn:E; [simpl in Hpos; lia|].
    assert (Hl : l ∈ List.filter (fun l => String.eqb (targetId l) k) ls)
      by (rewrite E; by left).
    apply elem_of_list_filter_bool in Hl as [? ?%String.eqb_eq]. eauto.
  - intros (l & Hl & Heq).
    assert (Hin : l ∈ List.filter (fun l => String.eqb (targetId l) k) ls).
    { apply elem_of_list_filter_bool. split; [done|]. by apply String.eqb_eq. }
    destruct (List.filter _ ls); [by apply elem_of_nil in Hin|simpl; lia].
Qed.

Lemma isTree_true {N : Type} (ns : list (Node N)) (ls : list (Link N)) :
  links_reference_nodes ns ls →
  isTree ns ls = true ↔ ∀ n, n ∈ ns → incoming ls (id n) ≤ 1.
Proof.
  intros Href. unfold isTree. rewrite forallb_forall. split.
  - intros H n Hn.
    destruct (proj2 (parentCount_is_Some ns ls (id n))) as [c Hc].
    { left. apply list_elem_of_fmap. eauto. }
    specialize (H (id n, c)). simpl in H.
    rewrite <-(parentCount_lookup ns ls (id n) c Hc).
    apply Nat.leb_le, H, list_elem_of_In, elem_of_map_to_list. done.
  - intros H [k c] Hkc. simpl.
    apply list_elem_of_In, elem_of_map_to_list in Hkc.
    apply Nat.leb_le. rewrite (parentCount_lookup ns ls k c Hkc).
    destruct (proj1 (parentCount_is_Some ns ls k)) as [Hk|Hk]; [done| |].
    + apply list_elem_of_fmap in Hk as (n & -> & Hn). by apply H.
    + apply incoming_pos in Hk as (l & Hl & <-).
      destruct (Href l Hl) as [_ (n & -> & Hn)%list_elem_of_fmap]. by apply H.
Qed.

Lemma hasLoops_true {N : Type} (ls : list (Link N)) :
  hasLoops ls = true ↔ ∃ l, l ∈ ls ∧ sourceId l = targetId l.
Proof.
  unfold hasLoops. rewrite existsb_exists. split.
  - intros (l & ?%list_elem_of_In & ?%String.eqb_eq). eauto.
  - intros (l & ?%list_elem_of_In & ?%String.eqb_eq). eauto.
Qed.

(** [2 * |links| / |nodes| < 3] as the code tests it. *)
Lemma avgDegree_lt_3 (data : GraphData num) :
  nodes data ≠ [] →
  jltb (avgDegree data) (jofZ 3) = true
  ↔ (inject_Z (Z.of_nat (2 * length (links data)))
     / inject_Z (Z.of_nat (length (nodes data))) < 3)%Q.
Proof.
  intros Hne. unfold avgDegree, jofnat. cbn [jltb jdiv jofZ num_JsNumber]. unfold nofZ.
  assert (0 < inject_Z (Z.of_nat (length (nodes data))))%Q as Hpos.
  { change 0%Q with (inject_Z 0). rewrite <-Zlt_Qlt. destruct (nodes data); [done|].
    simpl. lia. }
  rewrite ndiv_Fin by lra. cbn [nltb]. rewrite Qltb_lt, Qred_correct.
  change (inject_Z 3) with 3%Q. by rewrite Nat.mul_comm.
Qed.

(** C7: on a non-empty graph whose links refer to nodes, [applyAutoLayout]
    applies the tree layout when every node has at most one incoming link
    and no link is a self-link; else the hierarchical layout when the
    average degree is below 3 and there are more than 10 links; else the
    circular layout when there are fewer than 50 nodes and no self-link;
    else it returns its input.  The star with centre Z and five leaves
    gets the tree layout. *)
Theorem applyAutoLayout_priority :
  (∀ (tree dagre circular : GraphData num → GraphData num) (data : GraphData num),
     nodes data ≠ [] →
     links_reference_nodes (nodes data) (links data) →
     (tree_shaped data ∧ loop_free data →
      autoLayoutChoice data = TreeLayout
      ∧ applyAutoLayout tree dagre circular data = tree data)
     ∧ (¬ (tree_shaped data ∧ loop_free data) →
        (sparse data ∧ 10 < length (links data) →
         autoLayoutChoice data = DagreLayout
         ∧ applyAutoLayout tree dagre circular data = dagre data)
        ∧ (¬ (sparse data ∧ 10 < length (links data)) →
           (length (nodes data) < 50 ∧ loop_free data →
            autoLayoutChoice data = CircularLayout
            ∧ applyAutoLayout tree dagre circular data = circular data)
           ∧ (¬ (length (nodes data) < 50 ∧ loop_free data) →
              autoLayoutChoice data = ForceLayout
              ∧ applyAutoLayout tree dagre circular data = data))))
  ∧ autoLayoutChoice star_graph = TreeLayout.
Proof.
  split; [|by vm_compute].
  intros tree dagre circular data Hne Href.
  assert (Htree : isTree (nodes data) (links data) = true ↔ tree_shaped data)
    by by apply isTree_true.
  assert (Hloop : negb (hasLoops (links data)) = true ↔ loop_free data).
  { rewrite negb_true_iff, <-not_true_iff_false, hasLoops_true. unfold loop_free.
    split; [intros H l Hl Heq; apply H; eauto|intros H (l & Hl & Heq); by eapply H]. }
  assert (Hsparse : jltb (avgDegree data) (jofZ 3) = true ↔ sparse data)
    by by apply avgDegree_lt_3.
  unfold applyAutoLayout, autoLayoutChoice.
  destruct (isTree _ _ && negb (hasLoops _)) eqn:E1.
  { apply andb_true_iff in E1 as [?%Htree ?%Hloop].
    split; [done|]. intros []. done. }
  assert (¬ (tree_shaped data ∧ loop_free data)) as Hn1.
  { intros [?%Htree ?%Hloop]. apply andb_false_iff in E1 as [|]; congruence. }
  split; [done|]. intros _.
  destruct (jltb _ _ && (10 <? length (links data))%nat) eqn:E2.
  { apply andb_true_iff in E2 as [?%Hsparse ?%Nat.ltb_lt].
    split; [done|]. intros []. done. }
  assert (¬ (sparse data ∧ 10 < length (links data))) as Hn2.
  { intros [?%Hsparse ?%Nat.ltb_lt]. apply andb_false_iff in E2 as [|]; congruence. }
  split; [done|]. intros _.
  destruct ((length (nodes data) <? 50)%nat && negb (hasLoops _)) eqn:E3.
  { apply andb_true_iff in E3 as [?%Nat.ltb_lt ?%Hloop].
    split; [done|]. intros []. done. }
  assert (¬ (length (nodes data) < 50 ∧ loop_free data)) as Hn3.
  { intros [?%Nat.ltb_lt ?%Hloop]. apply andb_false_iff in E3 as [|]; congruence. }
  split; [done|]. done.
Qed.

Lemma applyAutoLayout_priority_witness :
  autoLayoutChoice star_graph = TreeLayout
  ∧ applyAutoLayout (fun d => d) (fun d => d) (fun d => d) star_graph = star_graph.
Proof.
  apply (proj1 applyAutoLayout_priority (fun d => d) (fun d => d) (fun d => d) star_graph).
  - done.
  - intros l Hl. unfold star_graph in *. cbn [links nodes fmap list_fmap] in *.
    repeat (apply elem_of_cons in Hl as [->|Hl]); try (by apply elem_of_nil in Hl);
      split; apply (bool_decide_unpack _); by vm_compute.
  - split.
    + intros n Hn. unfold star_graph in *. cbn [links nodes fmap list_fmap] in *.
      repeat (apply elem_of_cons in Hn as [->|Hn]); try (by apply elem_of_nil in Hn);
        apply (bool_decide_unpack _); by vm_compute.
    + intros l Hl. unfold star_graph in *. cbn [links nodes fmap list_fmap] in *.
      repeat (apply elem_of_cons in Hl as [->|Hl]); try (by apply elem_of_nil in Hl);
        apply (bool_decide_unpack _); by vm_compute.
Defined.

(** ** Maximum and minimum of finite numbers *)

Lemma fold_nmax2_fin (xs : list num) (a : Q) :
  Forall finite xs →
  ∃ b, foldl nmax2 (Fin a) xs = Fin b ∧ (a <= b)%Q
       ∧ (∀ q, Fin q ∈ xs → (q <= b)%Q)
       ∧ (b = a ∨ Fin b ∈ xs).
Proof.
  revert a. induction xs as [|x xs IH]; intros a Hfin.
  { exists a. split_and!; [done|lra| |by left]. by intros q ?%elem_of_nil. }
  apply Forall_cons in Hfin as [[q ->] Hfin]. cbn [foldl nmax2 nltb].
  destruct (Qltb a q) eqn:E.
  - apply Qltb_lt in E. destruct (IH q Hfin) as (b & -> & Hqb & Hall & Hin).
    exists b. split_and!; [done|lra| |].
    + intros q' [[= ->]|?]%elem_of_cons; [done|by apply Hall].
    + right. destruct Hin as [->|?]; [by left|by right].
  - apply Qltb_ge in E. destruct (IH a Hfin) as (b & -> & Hab & Hall & Hin).
    exists b. split_and!; [done..| |].
    + intros q' [[= ->]|?]%elem_of_cons; [lra|by apply Hall].
    + destruct Hin as [->|?]; [by left|right; by right].
Qed.


Lemma Math_max_fin (xs : list num) :
  xs ≠ [] → Forall finite xs →
  ∃ b, Math_max xs = Fin b ∧ Fin b ∈ xs ∧ ∀ q, Fin q ∈ xs → (q <= b)%Q.
Proof.
  intros Hne Hfin. destruct xs as [|x xs]; [done|].
  apply Forall_cons in Hfin as [[a ->] Hfin]. unfold Math_max. cbn [foldl jmax2 num_JsNumber].
  change (nmax2 jneg_infinity (Fin a)) with (Fin a).
  destruct (fold_nmax2_fin xs a Hfin) as (b & -> & Hab & Hall & Hin).
  exists b. split_and!; [done| |].
  - destruct Hin as [->|?]; [by left|by right].
  - intros q [[= ->]|?]%elem_of_cons; [done|by apply Hall].
Qed.


(** ** Link weights *)



(** ** The empty graph *)





(** ** Communities *)

(** C2, on the code: for the nodes A, B, C of groups 5, 6, 7 and the link
    A-B, [detectCommunities] gives A and B the community 0 and C the
    community 1, and [analyzeGraph] returns the groups 5, 6, 1: the nodes of
    the first component, whose community id is 0, keep their group. *)
Lemma analyzeGraph_keeps_group_of_community_0 :
  ∃ communities out,
    detectCommunities community_nodes community_links = Ok communities
    ∧ communities !! "A"%string = Some 0%Z
    ∧ communities !! "B"%string = Some 0%Z
    ∧ communities !! "C"%string = Some 1%Z
    ∧ analyzeGraph (mkGraph community_nodes community_links) = Ok out
    ∧ (fun n => (id n, group n)) <$> nodes out
      = [("A"%string, 5%Z); ("B"%string, 6%Z); ("C"%string, 1%Z)].
Proof. eexists _, _. split_and!; by vm_compute. Qed.

(** ** Pathway mode: breadth-first traversal to a bounded depth *)

Lemma pathway_visit_eq k V H Q z :
  pathway_visit k (V, H, Q) z =
  if js_set_has z V then (V, H, Q)
  else (js_set_add z V, js_set_add z H, Q ++ [(z, S k)]).
Proof. done. Qed.

Lemma pathwayLoop_nil fuel nm maxDepth V H :
  pathwayLoop fuel nm maxDepth (V, H, []) = Ok (V, H).
Proof. by destruct fuel. Qed.

Lemma pathwayLoop_cons fuel nm maxDepth V H c rest :
  pathwayLoop (S fuel) nm maxDepth (V, H, c :: rest) =
  if (maxDepth <=? c.2)%nat then pathwayLoop fuel nm maxDepth (V, H, rest)
  else pathwayLoop fuel nm maxDepth
         (foldl (pathway_visit c.2) (V, H, rest) (neighbors nm c.1)).
Proof. done. Qed.

Section pathway.
Variables (nm : gmap string (list string)) (focus : string) (maxDepth : nat).

Local Abbreviation near := (nbr nm).

(** What visiting the neighbours of a node at depth [k] adds. *)
Lemma pathway_visit_fold k nbrs V H Q :
  ∃ new,
    (foldl (pathway_visit k) (V, H, Q) nbrs).2 = Q ++ new
    ∧ (H = V → (foldl (pathway_visit k) (V, H, Q) nbrs).1.2
               = (foldl (pathway_visit k) (V, H, Q) nbrs).1.1)
    ∧ (∀ y, y ∈ (foldl (pathway_visit k) (V, H, Q) nbrs).1.1
            ↔ y ∈ V ∨ (y, S k) ∈ new)
    ∧ Forall (fun e : string * nat => e.2 = S k ∧ e.1 ∈ nbrs) new
    ∧ (∀ z, z ∈ nbrs → z ∈ (foldl (pathway_visit k) (V, H, Q) nbrs).1.1).
Proof.
  revert V H Q. induction nbrs as [|z nbrs IH]; intros V H Q.
  { exists []. simpl. rewrite app_nil_r. split_and!; [done..| | |].
    - intros y. split; [eauto|]. by intros [|?%elem_of_nil].
    - constructor.
    - by intros ? ?%elem_of_nil. }
  cbn [foldl]. rewrite pathway_visit_eq.
  destruct (js_set_has z V) eqn:E.
  - apply js_set_has_true in E.
    destruct (IH V H Q) as (new & H1 & H2 & H3 & H4 & H5).
    exists new. split_and!; [done..| |].
    + eapply Forall_impl; [exact H4|]. intros e [? ?]. split; [done|by right].
    + intros y [->|?]%elem_of_cons; [apply H3; by left|by apply H5].
  - apply js_set_has_false in E.
    destruct (IH (js_set_add z V) (js_set_add z H) (Q ++ [(z, S k)]))
      as (new & H1 & H2 & H3 & H4 & H5).
    exists ((z, S k) :: new). split_and!.
    + rewrite H1. by rewrite <-app_assoc.
    + intros ->. by apply H2.
    + intros y. rewrite H3, elem_of_js_set_add, elem_of_cons. naive_solver.
    + constructor; [split; [done|by left]|].
      eapply Forall_impl; [exact H4|]. intros e [? ?]. split; [done|by right].
    + intros y [->|?]%elem_of_cons; [|by apply H5].
      apply H3. left. apply elem_of_js_set_add. by left.
Qed.

(** The measure that bounds the number of turns of the loop. *)
Lemma pathway_visit_measure (U : list string) k nbrs V H Q :
  (∀ z, z ∈ nbrs → z ∈ U) →
  length (foldl (pathway_visit k) (V, H, Q) nbrs).2
  + unvisited U (foldl (pathway_visit k) (V, H, Q) nbrs).1.1
  ≤ length Q + unvisited U V.
Proof.
  revert V H Q. induction nbrs as [|z nbrs IH]; intros V H Q HU; [done|].
  cbn [foldl]. rewrite pathway_visit_eq.
  destruct (js_set_has z V) eqn:E.
  - apply IH. intros; apply HU; by right.
  - apply js_set_has_false in E. etrans; [apply IH; intros; apply HU; by right|].
    rewrite length_app. simpl.
    pose proof (unvisited_add U V z (HU z ltac:(by left)) E). lia.
Qed.

Lemma pathwayLoop_total (U : list string) fuel st :
  (∀ a b, near a b → b ∈ U) →
  length st.2 + unvisited U st.1.1 ≤ fuel →
  ∃ r, pathwayLoop fuel nm maxDepth st = Ok r.
Proof.
  intros HU. revert st. induction fuel as [|fuel IH]; intros [[V H] Q] Hm; simpl in Hm.
  { destruct Q; [|simpl in Hm; lia]. rewrite pathwayLoop_nil. eauto. }
  destruct Q as [|c rest]; [rewrite pathwayLoop_nil; eauto|].
  rewrite pathwayLoop_cons. simpl in Hm. destruct (maxDepth <=? c.2)%nat.
  - apply IH. simpl. lia.
  - apply IH.
    pose proof (pathway_visit_measure U c.2 (neighbors nm c.1) V H rest (HU c.1)). lia.
Qed.

Lemma pathway_inv_init : pathway_inv nm focus maxDepth [] ([focus], [focus], [(focus, O)]).
Proof.
  split; simpl.
  - done.
  - intros x. rewrite list_elem_of_singleton. split.
    + intros ->. exists O. by left.
    + by intros [d [= -> _]%list_elem_of_singleton].
  - intros x d [= -> ->]%list_elem_of_singleton. split; [lia|constructor].
  - by intros x d ?%elem_of_nil.
  - by left.
  - exists O, [(focus, O)], []. split_and!; [done|by repeat constructor|constructor..].
Qed.

(** The head of the queue has the least depth that is still waiting. *)
Lemma pathway_levels_head (done : list (string * nat)) c rest :
  (∃ k Qa Qb, c :: rest = Qa ++ Qb
     ∧ Forall (fun e : string * nat => e.2 = k) Qa ∧ Forall (fun e : string * nat => e.2 = S k) Qb
     ∧ Forall (fun e : string * nat => e.2 ≤ k) done) →
  ∃ Qa Qb, rest = Qa ++ Qb
     ∧ Forall (fun e : string * nat => e.2 = c.2) Qa ∧ Forall (fun e : string * nat => e.2 = S c.2) Qb
     ∧ Forall (fun e : string * nat => e.2 ≤ c.2) done.
Proof.
  intros (k & Qa & Qb & Heq & Ha & Hb & Hd). destruct Qa as [|a Qa].
  - simpl in Heq. subst Qb. apply Forall_cons in Hb as [Hc Hb].
    exists rest, []. rewrite app_nil_r. split_and!; [done| |constructor|].
    + eapply Forall_impl; [exact Hb|]. simpl. intros; lia.
    + eapply Forall_impl; [exact Hd|]. simpl. intros; lia.
  - injection Heq as <- ->. apply Forall_cons in Ha as [Hc Ha]. subst k.
    exists Qa, Qb. done.
Qed.

Lemma pathway_inv_skip done V H c rest :
  pathway_inv nm focus maxDepth done (V, H, c :: rest) → maxDepth ≤ c.2 →
  pathway_inv nm focus maxDepth (done ++ [c]) (V, H, rest).
Proof.
  intros [I1 I2 I3 I4 I5 I6] Hc. simpl in *.
  assert (Hperm : ∀ e, e ∈ (done ++ [c]) ++ rest ↔ e ∈ done ++ c :: rest).
  { intros e. set_solver. }
  split; simpl.
  - done.
  - intros x. rewrite I2. by setoid_rewrite Hperm.
  - intros x d ?%Hperm. by apply I3.
  - intros x d [Hin|[= <-]%list_elem_of_singleton]%elem_of_app Hd z Hz.
    + destruct (I4 x d Hin Hd z Hz) as (e & ? & ?). exists e. by rewrite Hperm.
    + simpl in *. lia.
  - by apply Hperm.
  - destruct (pathway_levels_head done c rest I6) as (Qa & Qb & -> & Ha & Hb & Hd).
    destruct Qa as [|a Qa].
    + exists (S c.2), Qb, []. rewrite app_nil_r. split_and!; [done..|constructor|].
      apply Forall_app. split; [|by repeat constructor; lia].
      eapply Forall_impl; [exact Hd|]. simpl. intros; lia.
    + exists c.2, (a :: Qa), Qb. split_and!; [done..|].
      apply Forall_app. split; [done|by repeat constructor].
Qed.

Lemma pathway_inv_expand done V H x k rest :
  pathway_inv nm focus maxDepth done (V, H, (x, k) :: rest) → k < maxDepth →
  pathway_inv nm focus maxDepth (done ++ [(x, k)])
    (foldl (pathway_visit k) (V, H, rest) (neighbors nm x)).
Proof.
  intros [I1 I2 I3 I4 I5 I6] Hc. simpl in *.
  destruct (pathway_visit_fold k (neighbors nm x) V H rest)
    as (new & H1 & H2 & H3 & H4 & H5).
  set (st' := foldl (pathway_visit k) (V, H, rest) (neighbors nm x)) in *.
  assert (Hold : ∀ e, e ∈ done ++ (x, k) :: rest → e ∈ (done ++ [(x, k)]) ++ st'.2).
  { intros e. rewrite H1. set_solver. }
  assert (Hsplit : ∀ e, e ∈ (done ++ [(x, k)]) ++ st'.2
                        ↔ e ∈ done ++ (x, k) :: rest ∨ e ∈ new).
  { intros e. rewrite H1. set_solver. }
  assert (Hc3 : k ≤ maxDepth ∧ nsteps near k focus x).
  { apply I3. apply elem_of_app. right. by left. }
  destruct (pathway_levels_head done (x, k) rest I6) as (Qa & Qb & -> & Ha & Hb & Hdn).
  simpl in *.
  split.
  - by apply H2.
  - intros y. rewrite H3, I2. setoid_rewrite Hsplit. split.
    + intros [[d ?]|?]; eauto.
    + intros [d [?|Hn]]; [eauto|]. right.
      eapply Forall_forall in H4 as [Heq _]; [|exact Hn]. simpl in Heq. by subst d.
  - intros y d [?|Hn]%Hsplit; [by apply I3|].
    eapply Forall_forall in H4 as [Heq Hnb]; [|exact Hn]. simpl in *. subst d.
    split; [lia|]. eapply nsteps_r; [apply Hc3|done].
  - intros y d [Hin|[= -> ->]%list_elem_of_singleton]%elem_of_app Hd z Hz.
    + destruct (I4 y d Hin Hd z Hz) as (e & ? & ?). exists e. split; [by apply Hold|done].
    + specialize (H5 z Hz). apply H3 in H5 as [Hv|Hn].
      * apply I2 in Hv as [e He]. exists e. split; [by apply Hold|].
        apply elem_of_app in He as [He|[[= _ ->]|[He|He]%elem_of_app]%elem_of_cons].
        -- eapply Forall_forall in Hdn; [|exact He]. simpl in Hdn. lia.
        -- lia.
        -- eapply Forall_forall in Ha; [|exact He]. simpl in Ha. lia.
        -- eapply Forall_forall in Hb; [|exact He]. simpl in Hb. lia.
      * exists (S k). split; [apply Hsplit; by right|lia].
  - by apply Hold.
  - assert (Hnew : Forall (fun e : string * nat => e.2 = S k) new).
    { eapply Forall_impl; [exact H4|]. by intros e [? _]. }
    rewrite H1. destruct Qa as [|a Qa].
    + exists (S k), (Qb ++ new), []. rewrite app_nil_r. split_and!; [done| |constructor|].
      * by apply Forall_app.
      * apply Forall_app. split; [|by repeat constructor; lia].
        eapply Forall_impl; [exact Hdn|]. simpl. intros; lia.
    + exists k, (a :: Qa), (Qb ++ new). split_and!.
      * by rewrite app_assoc.
      * done.
      * by apply Forall_app.
      * apply Forall_app. split; [done|by repeat constructor].
Qed.

Lemma pathwayLoop_inv fuel done st r :
  pathway_inv nm focus maxDepth done st → pathwayLoop fuel nm maxDepth st = Ok r →
  ∃ done', pathway_inv nm focus maxDepth done' (r.1, r.2, []).
Proof.
  revert done st. induction fuel as [|fuel IH]; intros done [[V H] Q] Hinv.
  { destruct Q; [|done]. intros [= <-]. eauto. }
  destruct Q as [|c rest]; [rewrite pathwayLoop_nil; intros [= <-]; eauto|].
  rewrite pathwayLoop_cons. destruct (maxDepth <=? c.2)%nat eqn:E.
  - apply Nat.leb_le in E. apply IH with (done ++ [c]). by apply pathway_inv_skip.
  - apply Nat.leb_gt in E. destruct c as [x k]. apply IH with (done ++ [(x, k)]).
    by apply pathway_inv_expand.
Qed.

(** When the queue is empty the visited set is the ball of radius
    [maxDepth] around the focus. *)
Lemma pathway_inv_final done V H :
  pathway_inv nm focus maxDepth done (V, H, []) →
  ∀ y, y ∈ H ↔ ∃ n, n ≤ maxDepth ∧ nsteps near n focus y.
Proof.
  intros [I1 I2 I3 I4 I5 I6] y. simpl in *. subst H. rewrite app_nil_r in *.
  rewrite I2. split.
  - intros [d Hd]. exists d. by apply I3.
  - intros (n & Hn & Hsteps).
    assert (∃ e, (y, e) ∈ done ∧ e ≤ n) as (e & ? & _); [|eauto].
    revert y Hsteps. induction n as [|n IHn]; intros y Hsteps.
    + inversion Hsteps; subst. eauto.
    + apply nsteps_inv_r in Hsteps as (x & Hx & Hxy).
      destruct (IHn ltac:(lia) x Hx) as (d & Hd & Hdn).
      destruct (I4 x d Hd ltac:(lia) y Hxy) as (e & ? & ?). exists e. split; [done|lia].
Qed.

End pathway.

Lemma elem_of_concat {A : Type} (x : A) (ls : list (list A)) :
  x ∈ concat ls ↔ ∃ l, l ∈ ls ∧ x ∈ l.
Proof.
  rewrite list_elem_of_In, in_concat. setoid_rewrite list_elem_of_In. naive_solver.
Qed.

Lemma neighbors_in_values (nm : gmap string (list string)) a b :
  b ∈ neighbors nm a → b ∈ concat (snd <$> map_to_list nm).
Proof.
  unfold neighbors. destruct (nm !! a) as [l|] eqn:E; simpl; [|intros []%elem_of_nil].
  intros Hb. apply elem_of_concat. exists l. split; [|done].
  apply list_elem_of_fmap. exists (a, l). split; [done|]. by apply elem_of_map_to_list.
Qed.

Lemma link_key_inj i j : link_key i = link_key j → i = j.
Proof.
  unfold link_key. cbn [String.append]. intros [= H].
  change (pretty i = pretty j) in H. by apply (inj (pretty (A:=nat))) in H.
Qed.

Lemma highlight_links_fold {N : Type} (keep : Link N → bool) xs acc key :
  key ∈ foldl (keep_link keep) acc xs
  ↔ key ∈ acc ∨ ∃ il, il ∈ xs ∧ keep il.2 = true ∧ key = link_key il.1.
Proof.
  revert acc. induction xs as [|il xs IH]; intros acc; cbn [foldl].
  { split; [eauto|]. intros [|(? & []%elem_of_nil & _)]. done. }
  rewrite IH. unfold keep_link. destruct (keep il.2) eqn:E.
  - rewrite elem_of_js_set_add. split.
    + intros [[->|?]|(il' & ? & ?)]; [right; exists il; split; [by left|done]|by left|].
      right. exists il'. split; [by right|done].
    + intros [?|(il' & [->|?]%elem_of_cons & ? & ->)]; eauto.
  - split.
    + intros [?|(il' & ? & ?)]; [by left|]. right. exists il'. split; [by right|done].
    + intros [?|(il' & [->|?]%elem_of_cons & ? & ->)]; [eauto|congruence|eauto].
Qed.

Lemma elem_of_highlight_links {N : Type} (keep : Link N → bool) (ls : list (Link N)) key :
  key ∈ highlight_links keep ls ↔ ∃ i l, ls !! i = Some l ∧ keep l = true ∧ key = link_key i.
Proof.
  unfold highlight_links.
  change (foldl _ [] ?xs) with (foldl (keep_link keep) [] xs).
  rewrite highlight_links_fold. split.
  - intros [[]%elem_of_nil|(il & Hil & ? & ->)].
    apply elem_of_lookup_imap in Hil as (i & l & -> & ?). eauto.
  - intros (i & l & Hl & ? & ->). right. exists (i, l). split; [|done].
    apply elem_of_lookup_imap. eauto.
Qed.

Section pathway_graph.
Context {N : Type}.
Variable data : GraphData N.
Hypothesis Href : links_reference_nodes (nodes data) (links data).

Lemma nsteps_neighbors_linked n a b :
  a ∈ id <$> nodes data →
  nsteps (fun x y => y ∈ neighbors (useNeighborMap data) x) n a b
  ↔ nsteps (linked (links data)) n a b.
Proof.
  intros Ha. split.
  - clear Ha. induction 1 as [|n x y z Hxy _ IH]; [constructor|].
    apply (nbr_linked (nodes data) (links data)) in Hxy as [_ ?]. by econstructor.
  - intros Hs. induction Hs as [|n x y z Hxy _ IH]; [constructor|].
    econstructor.
    + apply (nbr_linked (nodes data) (links data)). eauto.
    + apply IH. by apply (linked_ids (nodes data) (links data) Href) in Hxy as [_ ?].
Qed.

Lemma pathway_highlight (maxDepth : nat) (focus : Node N) :
  focus ∈ nodes data →
  ∃ hs, highlightState data (useNeighborMap data) true maxDepth (Some focus) = Ok hs
    ∧ (∀ y, y ∈ hl_nodes hs
            ↔ ∃ n, n ≤ maxDepth ∧ nsteps (linked (links data)) n (id focus) y)
    ∧ (∀ i l, links data !! i = Some l →
         link_key i ∈ hl_links hs
         ↔ sourceId l ∈ hl_nodes hs ∧ targetId l ∈ hl_nodes hs)
    ∧ (∀ key, key ∈ hl_links hs → ∃ i l, links data !! i = Some l ∧ key = link_key i).
Proof.
  intros Hfocus. unfold highlightState.
  set (nm := useNeighborMap data).
  destruct (pathwayLoop_total nm maxDepth (concat (snd <$> map_to_list nm))
              (pathway_fuel nm) ([id focus], [id focus], [(id focus, O)])) as [r Hr].
  { intros a b. apply neighbors_in_values. }
  { simpl. unfold pathway_fuel.
    pose proof (unvisited_le_length (concat (snd <$> map_to_list nm)) [id focus]). lia. }
  rewrite Hr. cbn [rbind]. eexists. split; [done|]. cbn [hl_nodes hl_links].
  destruct (pathwayLoop_inv nm (id focus) maxDepth _ [] _ r
              (pathway_inv_init nm (id focus) maxDepth) Hr) as [done' Hinv].
  pose proof (pathway_inv_final nm (id focus) maxDepth done' r.1 r.2 Hinv) as Hball.
  split_and!.
  - intros y. rewrite Hball. unfold nm.
    assert (Hid : id focus ∈ id <$> nodes data) by (apply list_elem_of_fmap; eauto).
    split; intros (n & ? & Hs); exists n; (split; [done|]);
      by apply (nsteps_neighbors_linked n (id focus) y Hid).
  - intros i l Hl. rewrite elem_of_highlight_links. split.
    + intros (j & l' & Hj & Hkeep & ->%link_key_inj). rewrite Hl in Hj. injection Hj as <-.
      apply andb_true_iff in Hkeep as [?%js_set_has_true ?%js_set_has_true]. done.
    + intros [? ?]. exists i, l. split_and!; [done| |done].
      apply andb_true_iff. split; by apply js_set_has_true.
  - intros key (i & l & ? & _ & ->)%elem_of_highlight_links. eauto.
Qed.

End pathway_graph.

Lemma chain_graph_links_reference_nodes :
  links_reference_nodes (nodes chain_graph) (links chain_graph).
Proof.
  intros l Hl. unfold chain_graph in Hl. cbn [links] in Hl.
  repeat (apply elem_of_cons in Hl as [->|Hl]); try (by apply elem_of_nil in Hl);
    split; apply (bool_decide_unpack _); by vm_compute.
Qed.

(** C6: in pathway mode with depth 3, for a focus node of a graph whose
    links refer to nodes, the highlighted nodes are exactly the ids within
    3 undirected steps of the focus, and the highlighted links are exactly
    the keys of the links with both ends highlighted.  On the chain
    A-B-C-D-E with focus A these are A, B, C, D and the first three links;
    E is not highlighted. *)
Theorem pathway_highlight_depth_3 :
  (∀ (data : GraphData num) (focus : Node num),
     links_reference_nodes (nodes data) (links data) →
     focus ∈ nodes data →
     ∃ hs, highlightState data (useNeighborMap data) true 3 (Some focus) = Ok hs
       ∧ (∀ y, y ∈ hl_nodes hs
               ↔ ∃ n, n ≤ 3 ∧ nsteps (linked (links data)) n (id focus) y)
       ∧ (∀ i l, links data !! i = Some l →
            link_key i ∈ hl_links hs
            ↔ sourceId l ∈ hl_nodes hs ∧ targetId l ∈ hl_nodes hs)
       ∧ (∀ key, key ∈ hl_links hs →
            ∃ i l, links data !! i = Some l ∧ key = link_key i))
  ∧ highlightState chain_graph (useNeighborMap chain_graph) true 3
      (Some (chain_node "A"))
    = Ok (mkHighlight ["A"; "B"; "C"; "D"]%string
            ["link-0"; "link-1"; "link-2"]%string).
Proof.
  split; [|by vm_compute].
  intros data focus Href Hfocus. by apply pathway_highlight.
Qed.

Lemma pathway_highlight_depth_3_witness :
  ∃ hs, highlightState chain_graph (useNeighborMap chain_graph) true 3
          (Some (chain_node "A")) = Ok hs
    ∧ (∀ y, y ∈ hl_nodes hs
            ↔ ∃ n, n ≤ 3 ∧ nsteps (linked (links chain_graph)) n (id (chain_node "A")) y)
    ∧ (∀ i l, links chain_graph !! i = Some l →
         link_key i ∈ hl_links hs
         ↔ sourceId l ∈ hl_nodes hs ∧ targetId l ∈ hl_nodes hs)
    ∧ (∀ key, key ∈ hl_links hs →
         ∃ i l, links chain_graph !! i = Some l ∧ key = link_key i).
Proof.
  apply (proj1 pathway_highlight_depth_3 chain_graph (chain_node "A")
           chain_graph_links_reference_nodes).
  unfold chain_graph. cbn [nodes]. by left.
Defined.

(** ** PageRank in exact arithmetic *)

Lemma is_val_Fin q : is_val (Fin q) q.
Proof. by exists q. Qed.

Lemma is_val_eq x a b : is_val x a → (a == b)%Q → is_val x b.
Proof. intros (q & -> & Hq) Hab. exists q. split; [done|]. by rewrite Hq. Qed.

Lemma is_val_nadd x y a b : is_val x a → is_val y b → is_val (nadd x y) (a + b).
Proof.
  intros (p & -> & Hp) (q & -> & Hq). eexists. split; [done|].
  by rewrite Qred_correct, Hp, Hq.
Qed.

Lemma is_val_nsub x y a b : is_val x a → is_val y b → is_val (nsub x y) (a - b).
Proof.
  intros (p & -> & Hp) (q & -> & Hq). eexists. split; [done|].
  rewrite !Qred_correct, Hp, Hq. ring.
Qed.

Lemma is_val_nmul x y a b : is_val x a → is_val y b → is_val (nmul x y) (a * b).
Proof.
  intros (p & -> & Hp) (q & -> & Hq). eexists. split; [done|].
  by rewrite Qred_correct, Hp, Hq.
Qed.

Lemma is_val_ndiv x y a b :
  is_val x a → is_val y b → ¬ (b == 0)%Q → is_val (ndiv x y) (a / b).
Proof.
  intros (p & -> & Hp) (q & -> & Hq) Hb. rewrite ndiv_Fin by (by rewrite Hq).
  eexists. split; [done|]. by rewrite Qred_correct, Hp, Hq.
Qed.

Lemma is_val_nofZ z : is_val (nofZ z) (inject_Z z).
Proof. apply is_val_Fin. Qed.

Lemma Qsum_ext {A : Type} (f g : A → Q) (l : list A) :
  (∀ x, x ∈ l → (f x == g x)%Q) → (Qsum (f <$> l) == Qsum (g <$> l))%Q.
Proof.
  induction l as [|x l IH]; intros H; csimpl; [done|].
  rewrite (H x) by left. rewrite IH; [done|]. intros; apply H; by right.
Qed.

Lemma Qsum_le {A : Type} (f g : A → Q) (l : list A) :
  (∀ x, x ∈ l → (f x <= g x)%Q) → (Qsum (f <$> l) <= Qsum (g <$> l))%Q.
Proof.
  induction l as [|x l IH]; intros H; csimpl; [lra|].
  pose proof (H x ltac:(by left)). pose proof (IH ltac:(intros; apply H; by right)). lra.
Qed.

Lemma Qsum_nonneg {A : Type} (f : A → Q) (l : list A) :
  (∀ x, x ∈ l → (0 <= f x)%Q) → (0 <= Qsum (f <$> l))%Q.
Proof.
  induction l as [|x l IH]; intros H; csimpl; [lra|].
  pose proof (H x ltac:(by left)). pose proof (IH ltac:(intros; apply H; by right)). lra.
Qed.

Lemma Qsum_plus {A : Type} (f g : A → Q) (l : list A) :
  (Qsum ((fun x => f x + g x) <$> l) == Qsum (f <$> l) + Qsum (g <$> l))%Q.
Proof. induction l as [|x l IH]; csimpl; [lra|]. rewrite IH. ring. Qed.

Lemma Qsum_scale {A : Type} (a : Q) (f : A → Q) (l : list A) :
  (Qsum ((fun x => a * f x) <$> l) == a * Qsum (f <$> l))%Q.
Proof. induction l as [|x l IH]; csimpl; [lra|]. rewrite IH. ring. Qed.

Lemma Qsum_const {A : Type} (a : Q) (l : list A) :
  (Qsum ((fun _ => a) <$> l) == inject_Z (Z.of_nat (length l)) * a)%Q.
Proof.
  induction l as [|x l IH]; [csimpl; change (inject_Z (Z.of_nat 0)) with 0%Q; ring|].
  csimpl. rewrite IH. rewrite Nat2Z.inj_succ, <-Z.add_1_r, inject_Z_plus.
  change (inject_Z 1) with 1%Q. ring.
Qed.

(** The sum of an indicator over a list without repetition *)
Lemma Qsum_indicator (ids : list string) (x : string) (v : Q) :
  NoDup ids →
  (Qsum ((fun s => if String.eqb x s then v else 0) <$> ids)
   == if bool_decide (x ∈ ids) then v else 0)%Q.
Proof.
  induction ids as [|s ids IH]; intros Hnd; [done|].
  apply NoDup_cons in Hnd as [Hs Hnd]. csimpl. rewrite (IH Hnd).
  destruct (String.eqb_spec x s) as [->|Hne].
  - rewrite (bool_decide_eq_true_2 (s ∈ s :: ids)) by left.
    rewrite (bool_decide_eq_false_2 (s ∈ ids)) by done. ring.
  - destruct (decide (x ∈ ids)).
    + rewrite (bool_decide_eq_true_2 (x ∈ ids)) by done.
      rewrite (bool_decide_eq_true_2 (x ∈ s :: ids)) by (by right). ring.
    + rewrite (bool_decide_eq_false_2 (x ∈ ids)) by done.
      rewrite (bool_decide_eq_false_2 (x ∈ s :: ids)) by (by intros [?|?]%elem_of_cons).
      ring.
Qed.

Lemma Qsum_filter {A : Type} (P : A → bool) (f : A → Q) (l : list A) :
  (Qsum (f <$> List.filter P l) == Qsum ((fun x => if P x then f x else 0) <$> l))%Q.
Proof.
  induction l as [|x l IH]; [done|]. cbn [List.filter]. csimpl.
  destruct (P x); csimpl; rewrite IH; ring.
Qed.

(** Exchanging a sum over ids with a sum over links *)
Lemma Qsum_swap {A : Type} (ids : list string) (k : A → string) (c : A → Q) (l : list A) :
  NoDup ids →
  (Qsum ((fun s => Qsum ((fun x => if String.eqb (k x) s then c x else 0) <$> l)) <$> ids)
   == Qsum ((fun x => if bool_decide (k x ∈ ids) then c x else 0) <$> l))%Q.
Proof.
  intros Hnd. induction l as [|x l IH].
  { csimpl. rewrite (Qsum_const 0 ids). ring. }
  csimpl. rewrite Qsum_plus, IH, Qsum_indicator by done. done.
Qed.

Lemma lookup_fold_insert_id {N V : Type} (f : Node N → V) (g : string → V)
    (ns : list (Node N)) (m : gmap string V) (k : string) :
  (∀ n, f n = g (id n)) →
  foldl (fun m n => <[id n := f n]> m) m ns !! k
  = if bool_decide (k ∈ id <$> ns) then Some (g k) else m !! k.
Proof.
  intros Hfg. revert m. induction ns as [|n ns IH]; intros m; [done|].
  cbn [foldl]. rewrite IH, fmap_cons. destruct (decide (k ∈ id <$> ns)) as [Hin|Hin].
  - rewrite (bool_decide_eq_true_2 (k ∈ id <$> ns)) by done.
    by rewrite (bool_decide_eq_true_2 (k ∈ id n :: (id <$> ns))) by (by right).
  - rewrite (bool_decide_eq_false_2 (k ∈ id <$> ns)) by done.
    destruct (decide (k = id n)) as [->|Hne].
    + rewrite bool_decide_eq_true_2 by left. by rewrite lookup_insert_eq, Hfg.
    + rewrite bool_decide_eq_false_2 by (by intros [?|?]%elem_of_cons).
      by rewrite lookup_insert_ne.
Qed.

Section pagerank.
Variables (ns : list (Node num)) (ls : list (Link num)).
Hypothesis Hne : ns ≠ [].
Hypothesis Hnd : NoDup (id <$> ns).
Hypothesis Hw : ∀ l, l ∈ ls → ∃ w, value l = Fin w ∧ (0 <= w)%Q.

Local Abbreviation nodeMap := (degreeMap ns ls).

Lemma weight_nonneg l : l ∈ ls → value l = Fin (weight l) ∧ (0 <= weight l)%Q.
Proof. intros (w & Hv & ?)%Hw. unfold weight. by rewrite Hv. Qed.

Lemma out_weight_nonneg ls' s : (∀ l, l ∈ ls' → l ∈ ls) → (0 <= out_weight ls' s)%Q.
Proof.
  intros Hsub. apply Qsum_nonneg. intros l Hl. destruct (String.eqb _ _); [|lra].
  by apply weight_nonneg, Hsub.
Qed.

Lemma degree_fold ls' (m : gmap string (num * num)) s :
  (∀ l, l ∈ ls' → l ∈ ls) →
  (m !! s = None → foldl degree_step m ls' !! s = None)
  ∧ (∀ i o, m !! s = Some (i, Fin o) →
       ∃ i' o', foldl degree_step m ls' !! s = Some (i', Fin o')
                ∧ (o' == o + out_weight ls' s)%Q).
Proof.
  revert m. induction ls' as [|l ls' IH]; intros m Hsub.
  { split; [done|]. intros i o Hm. exists i, o. split; [done|].
    unfold out_weight. csimpl. ring. }
  destruct (weight_nonneg l (Hsub l ltac:(by left))) as [Hv _].
  cbn [foldl]. destruct (IH (degree_step m l)) as [IH1 IH2].
  { intros; apply Hsub; by right. }
  assert (Hstep : (m !! s = None → degree_step m l !! s = None)
    ∧ (∀ i o, m !! s = Some (i, Fin o) →
        ∃ i', degree_step m l !! s
              = Some (i', if String.eqb (sourceId l) s then nadd (Fin o) (value l) else Fin o))).
  { unfold degree_step; cbv zeta. split.
    - intros Hm. by rewrite !lookup_alter_None.
    - intros i o Hm.
      assert (H1 : alter (fun d : num * num => (d.1, jadd d.2 (value l))) (sourceId l) m !! s
                   = Some (i, if String.eqb (sourceId l) s
                              then nadd (Fin o) (value l) else Fin o)).
      { rewrite lookup_alter. destruct (String.eqb_spec (sourceId l) s) as [->|Hs].
        - by rewrite decide_True, Hm.
        - by rewrite decide_False. }
      rewrite lookup_alter. destruct (decide (targetId l = s)) as [->|Ht].
      + rewrite H1. simpl. eauto.
      + rewrite H1. eauto. }
  destruct Hstep as [Hs1 Hs2]. split; [by intros ?%Hs1%IH1|].
  intros i o Hm. destruct (Hs2 i o Hm) as [i1 Hi1].
  unfold out_weight. csimpl. destruct (String.eqb (sourceId l) s).
  - rewrite Hv in Hi1. cbn [nadd] in Hi1.
    destruct (IH2 _ _ Hi1) as (i' & o' & -> & Ho'). exists i', o'. split; [done|].
    rewrite Ho', Qred_correct. unfold out_weight. ring.
  - destruct (IH2 _ _ Hi1) as (i' & o' & -> & Ho'). exists i', o'. split; [done|].
    rewrite Ho'. unfold out_weight. ring.
Qed.

Lemma degreeMap_lookup s :
  (s ∉ id <$> ns → nodeMap !! s = None)
  ∧ (s ∈ id <$> ns →
     ∃ i o, nodeMap !! s = Some (i, Fin o) ∧ (o == out_weight ls s)%Q).
Proof.
  unfold degreeMap.
  change (foldl _ ?m ls) with (foldl degree_step m ls).
  set (m0 := foldl _ ∅ ns).
  assert (Hm0 : m0 !! s = if bool_decide (s ∈ id <$> ns)
                          then Some (Fin (inject_Z 0), Fin (inject_Z 0)) else None).
  { unfold m0. rewrite (lookup_fold_insert_id _ (fun _ => (jofZ 0, jofZ 0))) by done.
    by rewrite lookup_empty. }
  destruct (degree_fold ls m0 s ltac:(done)) as [H1 H2]. split.
  - intros Hs. apply H1. by rewrite Hm0, bool_decide_eq_false_2.
  - intros Hs. rewrite bool_decide_eq_true_2 in Hm0 by done.
    destruct (H2 _ _ Hm0) as (i & o & ? & Ho). exists i, o. split; [done|].
    rewrite Ho. change (inject_Z 0) with 0%Q. ring.
Qed.

Lemma degree_value_spec s :
  num_or (snd <$> nodeMap !! s) (jofZ 1) = Fin (degree_value nodeMap s)
  ∧ (0 < degree_value nodeMap s)%Q
  ∧ (s ∈ id <$> ns → out_weight ls s <= degree_value nodeMap s)%Q.
Proof.
  unfold degree_value. destruct (degreeMap_lookup s) as [H1 H2].
  destruct (decide (s ∈ id <$> ns)) as [Hs|Hs].
  - destruct (H2 Hs) as (i & o & -> & Ho). cbn [fmap option_fmap option_map snd num_or].
    cbn [jtruthy num_JsNumber ntruthy].
    pose proof (out_weight_nonneg ls s ltac:(done)) as Hpos.
    destruct (Qeq_bool o 0) eqn:E; cbn [negb].
    + apply Qeq_bool_iff in E. cbn [jofZ num_JsNumber]. unfold nofZ.
      change (inject_Z 1) with 1%Q. split_and!; [done|lra|intros _; lra].
    + apply Qeq_bool_false_iff in E. split_and!; [done|lra|intros _; lra].
  - rewrite (H1 Hs). cbn. split_and!; [done|done|done].
Qed.

Lemma rank_value_nonneg pr s : ranks_wf ns pr → (0 <= rank_value pr s)%Q.
Proof.
  intros Hwf. unfold rank_value. destruct (Hwf s) as [H1 H2].
  destruct (decide (s ∈ id <$> ns)) as [Hs|Hs].
  - destruct (H1 Hs) as (q & -> & ?). lra.
  - rewrite (H2 Hs). lra.
Qed.

Lemma sourceRank_spec pr s :
  ranks_wf ns pr → is_val (num_or (pr !! s) (jofZ 0)) (rank_value pr s).
Proof.
  intros Hwf. unfold rank_value. destruct (Hwf s) as [H1 H2].
  destruct (decide (s ∈ id <$> ns)) as [Hs|Hs].
  - destruct (H1 Hs) as (q & -> & Hq). cbn [num_or jtruthy num_JsNumber ntruthy].
    rewrite (proj2 (Qeq_bool_false_iff q 0)) by lra. apply is_val_Fin.
  - rewrite (H2 Hs). apply is_val_Fin.
Qed.

Lemma share_nonneg pr l : ranks_wf ns pr → l ∈ ls → (0 <= share pr nodeMap l)%Q.
Proof.
  intros Hwf Hl. unfold share.
  pose proof (rank_value_nonneg pr (sourceId l) Hwf).
  destruct (weight_nonneg l Hl) as [_ ?].
  destruct (degree_value_spec (sourceId l)) as (_ & ? & _).
  apply Qle_shift_div_l; [done|]. nra.
Qed.

Lemma rankSum_spec pr ls' acc a :
  ranks_wf ns pr → (∀ l, l ∈ ls' → l ∈ ls) → is_val acc a →
  is_val (foldl (rankSum_step pr nodeMap) acc ls')
         (a + Qsum (share pr nodeMap <$> ls')).
Proof.
  intros Hwf. revert acc a. induction ls' as [|l ls' IH]; intros acc a Hsub Hacc.
  { csimpl. eapply is_val_eq; [done|ring]. }
  cbn [foldl]. csimpl. eapply is_val_eq.
  - apply IH; [intros; apply Hsub; by right|].
    unfold rankSum_step.
    destruct (degree_value_spec (sourceId l)) as (Hdv & Hd & _).
    cbn [jofZ num_JsNumber] in Hdv. rewrite Hdv.
    destruct (weight_nonneg l (Hsub l ltac:(by left))) as [-> _].
    apply is_val_nadd; [done|]. apply is_val_ndiv; [|apply is_val_Fin|lra].
    apply is_val_nmul; [by apply sourceRank_spec|apply is_val_Fin].
  - unfold share. ring.
Qed.

Lemma length_pos : (0 < inject_Z (Z.of_nat (length ns)))%Q.
Proof.
  change 0%Q with (inject_Z 0). rewrite <-Zlt_Qlt. destruct ns; [done|simpl; lia].
Qed.

Lemma base_rank_pos : (0 < (base_rank ns))%Q.
Proof. unfold base_rank. apply Qlt_shift_div_l; [apply length_pos|lra]. Qed.

Lemma newRank_spec pr k :
  ranks_wf ns pr →
  is_val (newRank ns ls nodeMap pr k)
    ((base_rank ns) + (85 # 100)
       * Qsum (share pr nodeMap <$> List.filter (fun l => String.eqb (targetId l) k) ls)).
Proof.
  intros Hwf. unfold newRank, dampingFactor, jofnat; cbv zeta.
  cbn [jadd jdiv jmul jsub jlit jofZ num_JsNumber].
  apply is_val_nadd.
  - unfold base_rank. apply is_val_ndiv; [|apply is_val_nofZ|].
    + eapply is_val_eq; [apply is_val_nsub; [apply is_val_nofZ|apply is_val_Fin]|].
      change (inject_Z 1) with 1%Q. ring.
    + pose proof length_pos. lra.
  - apply is_val_nmul; [apply is_val_Fin|].
    eapply is_val_eq.
    + apply rankSum_spec; [done| |apply is_val_nofZ].
      intros l ?%elem_of_list_filter_bool. tauto.
    + change (inject_Z 0) with 0%Q. ring.
Qed.

Lemma rankStep_lookup pr k :
  rankStep ns ls nodeMap pr !! k
  = if bool_decide (k ∈ id <$> ns) then Some (newRank ns ls nodeMap pr k) else None.
Proof.
  unfold rankStep.
  rewrite (lookup_fold_insert_id _ (newRank ns ls nodeMap pr)) by done.
  by rewrite lookup_empty.
Qed.

Lemma rankStep_value pr k :
  ranks_wf ns pr → k ∈ id <$> ns →
  (rank_value (rankStep ns ls nodeMap pr) k
   == (base_rank ns) + (85 # 100)
        * Qsum (share pr nodeMap <$> List.filter (fun l => String.eqb (targetId l) k) ls))%Q.
Proof.
  intros Hwf Hk. unfold rank_value. rewrite rankStep_lookup, bool_decide_eq_true_2 by done.
  by destruct (newRank_spec pr k Hwf) as (q & -> & Hq).
Qed.

Lemma rankStep_wf pr : ranks_wf ns pr → ranks_wf ns (rankStep ns ls nodeMap pr).
Proof.
  intros Hwf s. rewrite rankStep_lookup. split; intros Hs.
  - rewrite bool_decide_eq_true_2 by done.
    destruct (newRank_spec pr s Hwf) as (q & -> & Hq). exists q. split; [done|].
    rewrite Hq. pose proof base_rank_pos.
    assert (0 <= Qsum (share pr nodeMap
              <$> List.filter (fun l => String.eqb (targetId l) s) ls))%Q.
    { apply Qsum_nonneg. intros l [? _]%elem_of_list_filter_bool. by apply share_nonneg. }
    lra.
  - by rewrite bool_decide_eq_false_2.
Qed.

(** What the links carry is at most what the nodes hold. *)
Lemma shares_le_ranks pr :
  ranks_wf ns pr →
  (Qsum (share pr nodeMap <$> ls) <= Qsum (rank_value pr <$> (id <$> ns)))%Q.
Proof.
  intros Hwf.
  set (g := fun s => (rank_value pr s / degree_value nodeMap s)%Q).
  assert (Hg0 : ∀ s, s ∉ id <$> ns → (g s == 0)%Q).
  { intros s Hs. unfold g, rank_value. destruct (Hwf s) as [_ H2]. rewrite (H2 Hs).
    unfold Qdiv. ring. }
  assert (H1 : (Qsum (share pr nodeMap <$> ls)
    == Qsum ((fun l => if bool_decide (sourceId l ∈ id <$> ns)
                       then g (sourceId l) * weight l else 0) <$> ls))%Q).
  { apply Qsum_ext. intros l _. unfold share. case_bool_decide as Hs.
    - unfold g. unfold Qdiv. ring.
    - specialize (Hg0 _ Hs). unfold g in Hg0. unfold Qdiv in *.
      transitivity (rank_value pr (sourceId l) * / degree_value nodeMap (sourceId l)
                    * weight l)%Q; [ring|]. rewrite Hg0. ring. }
  rewrite H1, <-(Qsum_swap (id <$> ns) sourceId (fun l => g (sourceId l) * weight l)%Q ls Hnd).
  apply Qsum_le. intros s Hs.
  assert (H2 : (Qsum ((fun l => if String.eqb (sourceId l) s
                                then g (sourceId l) * weight l else 0) <$> ls)
                == g s * out_weight ls s)%Q).
  { unfold out_weight. rewrite <-Qsum_scale. apply Qsum_ext. intros l _.
    destruct (String.eqb_spec (sourceId l) s) as [->|]; ring. }
  rewrite H2. unfold g.
  destruct (degree_value_spec s) as (_ & Hd & Ho). specialize (Ho Hs).
  pose proof (rank_value_nonneg pr s Hwf) as Hr.
  pose proof (out_weight_nonneg ls s ltac:(done)) as Hout.
  assert (out_weight ls s / degree_value nodeMap s <= 1)%Q as Hfrac
    by (apply Qle_shift_div_r; lra).
  assert (0 <= out_weight ls s / degree_value nodeMap s)%Q as Hfrac0
    by (apply Qle_shift_div_l; lra).
  assert (rank_value pr s / degree_value nodeMap s * out_weight ls s
          == rank_value pr s * (out_weight ls s / degree_value nodeMap s))%Q as ->
    by (unfold Qdiv; ring).
  revert Hfrac Hfrac0 Hr. generalize (out_weight ls s / degree_value nodeMap s)%Q.
  generalize (rank_value pr s). clear. intros r f ? ? ?. nra.
Qed.

Lemma rankStep_sum pr :
  ranks_wf ns pr →
  (Qsum (rank_value pr <$> (id <$> ns)) <= 1)%Q →
  (Qsum (rank_value (rankStep ns ls nodeMap pr) <$> (id <$> ns)) <= 1)%Q.
Proof.
  intros Hwf Hsum.
  set (T := fun s => Qsum (share pr nodeMap
                    <$> List.filter (fun l => String.eqb (targetId l) s) ls)).
  assert (H1 : (Qsum (rank_value (rankStep ns ls nodeMap pr) <$> (id <$> ns))
                == Qsum ((fun s => (base_rank ns) + (85 # 100) * T s) <$> (id <$> ns)))%Q).
  { apply Qsum_ext. intros s Hs. by apply rankStep_value. }
  rewrite H1, (Qsum_plus (fun _ => (base_rank ns)) (fun s => (85 # 100) * T s)%Q),
    Qsum_const, Qsum_scale.
  assert (H2 : (inject_Z (Z.of_nat (length (id <$> ns))) * (base_rank ns) == 1 - (85 # 100))%Q).
  { rewrite length_fmap. unfold base_rank. pose proof length_pos. field. lra. }
  assert (H3 : (Qsum (T <$> (id <$> ns)) <= Qsum (share pr nodeMap <$> ls))%Q).
  { unfold T.
    assert (He : (Qsum ((fun s => Qsum (share pr nodeMap
                     <$> List.filter (fun l => String.eqb (targetId l) s) ls)) <$> (id <$> ns))
      == Qsum ((fun s => Qsum ((fun l => if String.eqb (targetId l) s
                                         then share pr nodeMap l else 0) <$> ls))
               <$> (id <$> ns)))%Q).
    { apply Qsum_ext. intros s _. apply Qsum_filter. }
    rewrite He, (Qsum_swap (id <$> ns) targetId (share pr nodeMap) ls Hnd).
    apply Qsum_le. intros l Hl. pose proof (share_nonneg pr l Hwf Hl).
    case_bool_decide; lra. }
  pose proof (shares_le_ranks pr Hwf). rewrite H2. lra.
Qed.

Lemma initialRanks_lookup k :
  initialRanks ns !! k
  = if bool_decide (k ∈ id <$> ns)
    then Some (ndiv (nofZ 1) (nofZ (Z.of_nat (length ns)))) else None.
Proof.
  unfold initialRanks.
  rewrite (lookup_fold_insert_id _ (fun _ => ndiv (nofZ 1) (nofZ (Z.of_nat (length ns)))))
    by done.
  by rewrite lookup_empty.
Qed.

Lemma initialRanks_val :
  is_val (ndiv (nofZ 1) (nofZ (Z.of_nat (length ns))))
         (1 / inject_Z (Z.of_nat (length ns))).
Proof.
  apply is_val_ndiv; [apply is_val_nofZ|apply is_val_nofZ|]. pose proof length_pos. lra.
Qed.

Lemma initialRanks_wf : ranks_wf ns (initialRanks ns).
Proof.
  intros s. rewrite initialRanks_lookup. split; intros Hs.
  - rewrite bool_decide_eq_true_2 by done.
    destruct initialRanks_val as (q & -> & Hq). exists q. split; [done|].
    rewrite Hq. apply Qlt_shift_div_l; [apply length_pos|lra].
  - by rewrite bool_decide_eq_false_2.
Qed.

Lemma initialRanks_sum : (Qsum (rank_value (initialRanks ns) <$> (id <$> ns)) <= 1)%Q.
Proof.
  assert (H1 : (Qsum (rank_value (initialRanks ns) <$> (id <$> ns))
    == Qsum ((fun _ => 1 / inject_Z (Z.of_nat (length ns))) <$> (id <$> ns)))%Q).
  { apply Qsum_ext. intros s Hs. unfold rank_value.
    rewrite initialRanks_lookup, bool_decide_eq_true_2 by done.
    by destruct initialRanks_val as (q & -> & Hq). }
  rewrite H1, Qsum_const, length_fmap. pose proof length_pos.
  assert (inject_Z (Z.of_nat (length ns)) * (1 / inject_Z (Z.of_nat (length ns))) == 1)%Q
    as -> by (field; lra). lra.
Qed.

Lemma pageRankLoop_spec n :
  ranks_wf ns (pageRankLoop n ns ls)
  ∧ (Qsum (rank_value (pageRankLoop n ns ls) <$> (id <$> ns)) <= 1)%Q.
Proof.
  unfold pageRankLoop. induction n as [|n [IH1 IH2]]; simpl.
  - split; [apply initialRanks_wf|apply initialRanks_sum].
  - split; [by apply rankStep_wf|by apply rankStep_sum].
Qed.

End pagerank.

Lemma elem_of_calculateCentrality (ns : list (Node num)) (ls : list (Link num)) n' :
  n' ∈ calculateCentrality ns ls →
  ∃ n, n ∈ ns
    ∧ pageRank n' = Some (ndiv (num_or (pageRankLoop iterations ns ls !! id n) (nofZ 0))
                            (Math_max (snd <$> map_to_list (pageRankLoop iterations ns ls)))).
Proof.
  unfold calculateCentrality. rewrite list_elem_of_In, in_map_iff.
  intros (n & <- & Hn). exists n. split; [by apply list_elem_of_In|done].
Qed.

Lemma calculateCentrality_elem (ns : list (Node num)) (ls : list (Link num)) n :
  n ∈ ns →
  ∃ n', n' ∈ calculateCentrality ns ls
    ∧ pageRank n' = Some (ndiv (num_or (pageRankLoop iterations ns ls !! id n) (nofZ 0))
                            (Math_max (snd <$> map_to_list (pageRankLoop iterations ns ls)))).
Proof.
  intros Hn. unfold calculateCentrality.
  match goal with |- context [List.map ?f ns] => exists (f n) end.
  split; [|done]. apply list_elem_of_In, in_map_iff. exists n.
  split; [done|by apply list_elem_of_In].
Qed.

Section normalization.
Variables (ns : list (Node num)) (ls : list (Link num)).
Hypothesis Hne : ns ≠ [].
Hypothesis Hnd : NoDup (id <$> ns).
Hypothesis Hw : ∀ l, l ∈ ls → ∃ w, value l = Fin w ∧ (0 <= w)%Q.

Local Abbreviation pr := (pageRankLoop iterations ns ls).

Lemma pageRank_values :
  ∃ M, Math_max (snd <$> map_to_list pr) = Fin M ∧ (0 < M)%Q
    ∧ (∃ n, n ∈ ns ∧ pr !! id n = Some (Fin M))
    ∧ (∀ n, n ∈ ns → ∃ q, pr !! id n = Some (Fin q) ∧ (0 < q)%Q ∧ (q <= M)%Q).
Proof.
  destruct (pageRankLoop_spec ns ls Hne Hnd Hw iterations) as [Hwf _].
  assert (Hval : ∀ v, v ∈ snd <$> map_to_list pr →
            ∃ n q, n ∈ ns ∧ pr !! id n = Some (Fin q) ∧ v = Fin q ∧ (0 < q)%Q).
  { intros v ([k v'] & -> & Hkv)%list_elem_of_fmap. apply elem_of_map_to_list in Hkv.
    destruct (Hwf k) as [H1 H2]. destruct (decide (k ∈ id <$> ns)) as [Hk|Hk].
    - destruct (H1 Hk) as (q & Hq & ?). apply list_elem_of_fmap in Hk as (n & -> & Hn).
      exists n, q. rewrite Hq in Hkv. injection Hkv as <-. done.
    - rewrite (H2 Hk) in Hkv. done. }
  assert (Hin : ∀ n, n ∈ ns → ∃ q, pr !! id n = Some (Fin q) ∧ (0 < q)%Q
                                   ∧ Fin q ∈ snd <$> map_to_list pr).
  { intros n Hn. destruct (Hwf (id n)) as [H1 _].
    destruct H1 as (q & Hq & ?); [apply list_elem_of_fmap; eauto|].
    exists q. split_and!; [done..|]. apply list_elem_of_fmap. exists (id n, Fin q).
    split; [done|]. by apply elem_of_map_to_list. }
  destruct (Math_max_fin (snd <$> map_to_list pr)) as (M & HM & HMin & HMax).
  { destruct ns as [|n0 ?]; [done|]. destruct (Hin n0) as (q & _ & _ & Hq); [by left|].
    intros Heq. rewrite Heq in Hq. by apply elem_of_nil in Hq. }
  { apply Forall_forall. intros v (n & q & _ & _ & -> & _)%Hval. by exists q. }
  destruct (Hval _ HMin) as (n & q & Hn & Hq & [= <-] & Hpos).
  exists M. split_and!; [done|done|eauto|].
  intros m Hm. destruct (Hin m Hm) as (q & ? & ? & Hq'). exists q.
  split_and!; [done..|]. by apply HMax.
Qed.

Lemma calculateCentrality_normalized :
  (∀ n, n ∈ calculateCentrality ns ls →
        ∃ q, pageRank n = Some (Fin q) ∧ (0 < q)%Q ∧ (q <= 1)%Q)
  ∧ (∃ n, n ∈ calculateCentrality ns ls ∧ pageRank n = Some (Fin 1)).
Proof.
  destruct pageRank_values as (M & HM & HMpos & (nmax & Hnmax & Hmax) & Hall).
  assert (Hrank : ∀ q, (0 < q)%Q → num_or (Some (Fin q)) (nofZ 0) = Fin q).
  { intros q Hq. cbn [num_or jtruthy num_JsNumber ntruthy].
    by rewrite (proj2 (Qeq_bool_false_iff q 0)) by lra. }
  split.
  - intros n' (n & Hn & ->)%elem_of_calculateCentrality. rewrite HM.
    destruct (Hall n Hn) as (q & -> & Hq & HqM). rewrite Hrank, ndiv_Fin by lra.
    eexists. split; [done|]. rewrite Qred_correct. split.
    + apply Qlt_shift_div_l; lra.
    + apply Qle_shift_div_r; lra.
  - destruct (calculateCentrality_elem ns ls nmax Hnmax) as (n' & Hn' & Hpr).
    exists n'. split; [done|]. rewrite Hpr, HM, Hmax, Hrank, ndiv_Fin by lra.
    do 2 f_equal. change 1%Q with (Qred 1). apply Qred_complete. field. lra.
Qed.

End normalization.




(** ** Communities: the flood fill *)

Lemma assignCommunity_unfold adj fuel x c st :
  assignCommunity (S fuel) adj x c st =
  if js_set_has x st.1 then Ok st
  else match adj !! x with
       | None => Ok (js_set_add x st.1, <[x := c]> st.2)
       | Some nbrs =>
           forEachM (assignCommunity_step adj fuel c) nbrs
             (js_set_add x st.1, <[x := c]> st.2)
       end.
Proof. done. Qed.

Lemma marks_refl c V M : marks c V V M M.
Proof. intros y. rewrite bool_decide_eq_false_2; [done|]. tauto. Qed.

Lemma marks_trans c V0 V1 V2 M0 M1 M2 :
  (∀ y, y ∈ V0 → y ∈ V1) → (∀ y, y ∈ V1 → y ∈ V2) →
  marks c V0 V1 M0 M1 → marks c V1 V2 M1 M2 → marks c V0 V2 M0 M2.
Proof.
  intros H01 H12 A B y. rewrite (B y), (A y).
  destruct (decide (y ∈ V0)) as [H0|H0]; destruct (decide (y ∈ V1)) as [H1|H1];
    destruct (decide (y ∈ V2)) as [H2|H2];
    try (exfalso; eauto; fail);
    repeat (first [rewrite bool_decide_eq_true_2 by tauto
                  |rewrite bool_decide_eq_false_2 by tauto]); done.
Qed.

Lemma marks_add c V M x :
  x ∉ V → marks c V (js_set_add x V) M (<[x := c]> M).
Proof.
  intros Hx y. destruct (decide (y = x)) as [->|Hne].
  - rewrite lookup_insert_eq, bool_decide_eq_true_2; [done|].
    split; [apply elem_of_js_set_add; by left|done].
  - rewrite lookup_insert_ne by done. rewrite bool_decide_eq_false_2; [done|].
    rewrite elem_of_js_set_add. tauto.
Qed.

Section flood.
Variables (adj : gmap string (list string)) (c : Z).

(** [assignCommunity] visits what [dfs] visits, and records the community
    of each id it adds. *)
Lemma assignCommunity_neighbours fuel nbrs V1 C1 M1 V' C' :
  (∀ x V C M V' C', x ∉ V → dfs fuel adj x (V, C) = Ok (V', C') →
     ∃ M', assignCommunity fuel adj x c (V, M) = Ok (V', M') ∧ marks c V V' M M') →
  forEachM (dfs_step adj fuel) nbrs (V1, C1) = Ok (V', C') →
  ∃ M', forEachM (assignCommunity_step adj fuel c) nbrs (V1, M1) = Ok (V', M')
        ∧ marks c V1 V' M1 M' ∧ ∀ y, y ∈ V1 → y ∈ V'.
Proof.
  intros IH. revert V1 C1 M1. induction nbrs as [|nb nbrs IHn]; intros V1 C1 M1; simpl.
  { intros [= <- <-]. exists M1. split_and!; [done|apply marks_refl|done]. }
  intros ([V2 C2] & H1 & H2)%rbind_Ok.
  unfold dfs_step in H1. unfold assignCommunity_step at 1. simpl in *.
  destruct (js_set_has nb V1) eqn:E.
  - injection H1 as <- <-. simpl. by apply (IHn V1 C1 M1).
  - apply js_set_has_false in E.
    pose proof (dfs_spec _ _ _ _ _ H1) as ([Hmono _ _ _ _] & _). simpl in Hmono.
    destruct (IH nb V1 C1 M1 V2 C2 E H1) as (M2 & -> & Hm2). simpl.
    destruct (IHn V2 C2 M2 H2) as (M' & -> & Hm' & Hmono'). exists M'.
    split_and!; [done| |eauto]. by eapply marks_trans.
Qed.

Lemma assignCommunity_dfs fuel x V C M V' C' :
  x ∉ V → dfs fuel adj x (V, C) = Ok (V', C') →
  ∃ M', assignCommunity fuel adj x c (V, M) = Ok (V', M') ∧ marks c V V' M M'.
Proof.
  revert x V C M V' C'. induction fuel as [|fuel IH]; intros x V C M V' C' Hx; [done|].
  rewrite dfs_unfold, assignCommunity_unfold. simpl.
  rewrite (proj2 (js_set_has_false x V)) by done.
  destruct (adj !! x) as [nbrs|].
  - intros Hrun.
    destruct (assignCommunity_neighbours fuel nbrs _ _ (<[x := c]> M) _ _ IH Hrun)
      as (M' & -> & Hm & Hmono).
    exists M'. split; [done|].
    eapply marks_trans; [| |by apply marks_add|exact Hm]; [|done].
    intros y Hy. apply elem_of_js_set_add. by right.
  - intros [= <- <-]. eexists. split; [done|]. by apply marks_add.
Qed.

End flood.

Section communities.
Context {N : Type}.
Variables (ns : list (Node N)) (ls : list (Link N)).
Hypothesis Href : links_reference_nodes ns ls.

Local Abbreviation adj := (adjacency_of ns ls).

Lemma communities_inv_init : communities_inv ns ls (0%Z, ([], ∅)).
Proof.
  split; simpl; try done.
  - intros y. split; [by intros ?%elem_of_nil|]. rewrite lookup_empty. by intros [? ?].
  - by intros y ?%elem_of_nil.
  - intros ? ?. lia.
Qed.

Lemma communities_body_spec fuel st node :
  node ∈ ns → communities_inv ns ls st → dfs_fuel ns ls ≤ fuel →
  ∃ st', communities_body fuel adj st node = Ok st'
    ∧ communities_inv ns ls st'
    ∧ (∀ y, y ∈ st.2.1 → st'.2.2 !! y = st.2.2 !! y)
    ∧ (st.2.1 = [] → st'.2.2 !! id node = Some st.1)
    ∧ is_Some (st'.2.2 !! id node).
Proof.
  intros Hnode Hinv Hfuel. destruct st as [cid [V M]].
  destruct Hinv as [Hnext Hdom Hids Hrange Hused Hsame Hconn]. simpl in *.
  unfold communities_body. simpl.
  destruct (js_set_has (id node) V) eqn:E.
  { apply js_set_has_true in E. eexists. split_and!; [done|by split|done| |].
    - intros ->. by apply elem_of_nil in E.
    - simpl. by apply Hdom. }
  apply js_set_has_false in E.
  assert (Hh : id node ∈ id <$> ns) by (apply list_elem_of_fmap; eauto).
  destruct (dfs_total adj (universe ns ls) fuel (id node) (V, [])) as [[V' C'] Hdfs].
  { by apply nbr_universe. }
  { unfold universe. apply elem_of_app. by left. }
  { done. }
  { pose proof (unvisited_le_length (universe ns ls) V). rewrite universe_length in *.
    unfold dfs_fuel in Hfuel. simpl. lia. }
  pose proof (dfs_spec _ _ _ _ _ Hdfs) as ([Hmono _ Hnew _ Hclosed] & Hin & _).
  simpl in *.
  destruct (assignCommunity_dfs adj cid fuel _ _ _ M _ _ E Hdfs) as (M' & -> & Hm).
  simpl. eexists. split; [done|]. simpl.
  assert (Hold : ∀ y, y ∈ V → M' !! y = M !! y).
  { intros y Hy. rewrite (Hm y), bool_decide_eq_false_2; [done|]. tauto. }
  assert (Hfresh : ∀ y, y ∈ V' → y ∉ V → M' !! y = Some cid).
  { intros y Hy Hn. by rewrite (Hm y), bool_decide_eq_true_2. }
  assert (Hout : ∀ y, y ∉ V' → M' !! y = None).
  { intros y Hy. rewrite (Hm y), bool_decide_eq_false_2 by tauto.
    apply eq_None_not_Some. rewrite <-Hdom. eauto. }
  assert (Hids' : ∀ y, y ∈ V' → y ∈ id <$> ns).
  { intros y Hy. destruct (Hnew y Hy) as [?|[_ Hr]]; [eauto|].
    by eapply reach_ids. }
  assert (Hcase : ∀ y k, M' !! y = Some k →
            (y ∈ V ∧ M !! y = Some k) ∨ (y ∈ V' ∧ (y ∉ V) ∧ k = cid)).
  { intros y k Hy. destruct (decide (y ∈ V)) as [HV|HV].
    - left. split; [done|]. by rewrite <-Hold.
    - right. destruct (decide (y ∈ V')) as [HV'|HV'].
      + rewrite Hfresh in Hy by done. by injection Hy as <-.
      + rewrite Hout in Hy; done. }
  split_and!; [split; simpl| | |].
  - lia.
  - intros y. split.
    + intros Hy. destruct (decide (y ∈ V)) as [HV|HV].
      * rewrite Hold by done. by apply Hdom.
      * rewrite Hfresh; done.
    + intros [k Hk]. destruct (Hcase y k Hk) as [[? _]|[? _]]; eauto.
  - done.
  - intros y k Hk. destruct (Hcase y k Hk) as [[_ ?%Hrange]|(_ & _ & ->)]; lia.
  - intros k Hk. destruct (decide (k = cid)) as [->|Hne].
    + exists (id node). by apply Hfresh.
    + destruct (Hused k) as [y Hy]; [lia|]. exists y. rewrite Hold; [done|].
      apply Hdom. eauto.
  - intros y z k Hk Hl. destruct (Hcase y k Hk) as [[HV HM]|(HV' & HV & ->)].
    + pose proof (Hsame y z k HM Hl) as Hz. rewrite Hold; [done|]. apply Hdom. eauto.
    + assert (z ∈ V') as Hz.
      { eapply Hclosed; [exact HV'|done|]. apply nbr_linked. eauto. }
      apply Hfresh; [done|]. intros HzV. apply HV.
      apply Hdom in HzV as [k' Hk']. apply Hdom. exists k'.
      eapply Hsame; [exact Hk'|]. by apply linked_sym.
  - intros y z k Hy Hz.
    destruct (Hcase y k Hy) as [[HyV HyM]|(HyV' & HyV & Hyk)];
      destruct (Hcase z k Hz) as [[HzV HzM]|(HzV' & HzV & Hzk)].
    + by eapply Hconn.
    + apply Hrange in HyM. lia.
    + apply Hrange in HzM. lia.
    + destruct (Hnew y HyV') as [?|[_ Hry]]; [done|].
      destruct (Hnew z HzV') as [?|[_ Hrz]]; [done|].
      etrans; [apply connected_sym; by eapply reach_connected|by eapply reach_connected].
  - done.
  - intros ->. by apply Hfresh; [|apply not_elem_of_nil].
  - destruct (decide (id node ∈ V)); [done|]. rewrite Hfresh; done.
Qed.

End communities.

Section communities_loop.
Context {N : Type}.
Variables (ns : list (Node N)) (ls : list (Link N)).
Hypothesis Href : links_reference_nodes ns ls.

Lemma communities_loop_spec fuel nodes' st :
  (∀ n, n ∈ nodes' → n ∈ ns) → communities_inv ns ls st → dfs_fuel ns ls ≤ fuel →
  ∃ st', forEachM (communities_body fuel (adjacency_of ns ls)) nodes' st = Ok st'
    ∧ communities_inv ns ls st'
    ∧ (∀ y, y ∈ st.2.1 → st'.2.2 !! y = st.2.2 !! y)
    ∧ (∀ n, n ∈ nodes' → is_Some (st'.2.2 !! id n)).
Proof.
  intros Hsub Hinv Hfuel. revert st Hinv.
  induction nodes' as [|n nodes' IH]; intros st Hinv; simpl.
  { exists st. split_and!; [done..|]. by intros ? ?%elem_of_nil. }
  destruct (communities_body_spec ns ls Href fuel st n) as (st1 & -> & I1 & P1 & _ & S1);
    [apply Hsub; by left|done|done|]. simpl.
  destruct (IH (λ m Hm, Hsub m (proj2 (elem_of_cons _ _ _) (or_intror Hm))) st1 I1)
    as (st' & -> & I' & P' & S').
  exists st'. split_and!; [done..| |].
  - intros y Hy. rewrite <-(P1 y Hy). apply P'.
    apply (cinv_dom _ _ _ I1). rewrite (P1 y Hy). by apply (cinv_dom _ _ _ Hinv).
  - intros m [->|Hm]%elem_of_cons; [|by apply S'].
    rewrite P'; [done|]. by apply (cinv_dom _ _ _ I1).
Qed.

End communities_loop.

Lemma detectCommunities_unfold {N : Type} (ns : list (Node N)) (ls : list (Link N)) :
  detectCommunities ns ls =
  (r ←ᵣ forEachM (communities_body (S (dfs_fuel ns ls)) (adjacency_of ns ls)) ns
          (0%Z, ([], ∅));
   Ok r.2.2).
Proof. done. Qed.

(** What [detectCommunities] returns on a graph whose links refer to
    nodes. *)
Lemma detectCommunities_spec {N : Type} (ns : list (Node N)) (ls : list (Link N)) :
  links_reference_nodes ns ls →
  ∃ k V M, detectCommunities ns ls = Ok M
    ∧ communities_inv ns ls (k, (V, M))
    ∧ (∀ n, n ∈ ns → is_Some (M !! id n))
    ∧ (∀ n0 rest, ns = n0 :: rest → M !! id n0 = Some 0%Z).
Proof.
  intros Href. rewrite detectCommunities_unfold.
  destruct ns as [|n0 rest].
  { exists 0%Z, [], ∅. simpl. split_and!; [done|apply communities_inv_init| |done].
    by intros ? ?%elem_of_nil. }
  cbn [forEachM].
  destruct (communities_body_spec _ _ Href (S (dfs_fuel (n0 :: rest) ls)) (0%Z, ([], ∅)) n0)
    as (st1 & -> & I1 & _ & F1 & S1); [by left|apply communities_inv_init|lia|].
  cbn [rbind].
  destruct (communities_loop_spec _ _ Href (S (dfs_fuel (n0 :: rest) ls)) rest st1)
    as ([k [V M]] & -> & I' & P' & S'); [by right|done|lia|].
  simpl in *. exists k, V, M. split_and!; [done..| |].
  - intros n [->|Hn]%elem_of_cons; [|by apply S'].
    rewrite P'; [done|]. by apply (cinv_dom _ _ _ I1).
  - intros ? ? [= <- <-]. rewrite P'; [by apply F1|]. by apply (cinv_dom _ _ _ I1).
Qed.




(** ** analyzeGraph on the nodes *)

Lemma fmap_map {A B C : Type} (f : B → C) (g : A → B) (l : list A) :
  f <$> List.map g l = (λ x, f (g x)) <$> l.
Proof. induction l as [|x l IH]; csimpl; [done|]. by rewrite IH. Qed.

Lemma calculateCentrality_ids {N : Type} `{JsNumber N} (ns : list (Node N)) ls :
  id <$> calculateCentrality ns ls = id <$> ns.
Proof. unfold calculateCentrality. cbv zeta. by rewrite fmap_map. Qed.

Lemma calculateLinkWeights_ends {N : Type} `{JsNumber N} (ls : list (Link N)) :
  link_ends <$> calculateLinkWeights ls = link_ends <$> ls.
Proof. unfold calculateLinkWeights. cbv zeta. by rewrite fmap_map. Qed.

Lemma communities_loop_ids {N : Type} fuel adj (ns ns' : list (Node N)) st :
  id <$> ns = id <$> ns' →
  forEachM (communities_body fuel adj) ns st = forEachM (communities_body fuel adj) ns' st.
Proof.
  revert ns' st. induction ns as [|n ns IH]; intros [|n' ns'] st; csimpl; try done.
  intros [= Hid Hrest]. unfold communities_body at 1 3. rewrite Hid.
  destruct (js_set_has (id n') st.2.1); simpl; [by apply IH|].
  destruct (assignCommunity _ _ _ _ _); simpl; [by apply IH|done..].
Qed.

(** [detectCommunities] reads the ids of the nodes and the ends of the
    links only. *)
Lemma detectCommunities_ids {N : Type} (ns ns' : list (Node N)) (ls ls' : list (Link N)) :
  id <$> ns = id <$> ns' → link_ends <$> ls = link_ends <$> ls' →
  detectCommunities ns ls = detectCommunities ns' ls'.
Proof.
  intros Hn Hl. rewrite !detectCommunities_unfold. unfold adjacency_of, dfs_fuel.
  rewrite Hn, Hl.
  assert (length ns = length ns') as ->
    by (rewrite <-(length_fmap id ns), Hn; apply length_fmap).
  assert (length ls = length ls') as ->
    by (rewrite <-(length_fmap link_ends ls), Hl; apply length_fmap).
  by rewrite (communities_loop_ids _ _ ns ns').
Qed.

Lemma analyzeGraph_eq {N : Type} `{JsNumber N} (data : GraphData N) M :
  detectCommunities (nodes data) (links data) = Ok M →
  analyzeGraph data
  = Ok (mkGraph
          (List.map (λ node,
             mkNode (id node) (community_or_group M node) (ntype node)
                    (context node) (size node) (pageRank node))
             (calculateCentrality (nodes data) (links data)))
          (calculateLinkWeights (links data))).
Proof.
  intros HM. unfold analyzeGraph. cbv zeta.
  rewrite (detectCommunities_ids _ (nodes data) _ (links data)), HM; [done|..].
  - apply calculateCentrality_ids.
  - apply calculateLinkWeights_ends.
Qed.

Lemma Forall2_map_r {A B : Type} (P : A → B → Prop) (f : A → B) (l : list A) :
  (∀ x, x ∈ l → P x (f x)) → Forall2 P l (List.map f l).
Proof.
  induction l as [|x l IH]; intros HP; simpl; constructor.
  - apply HP. by left.
  - apply IH. intros; apply HP. by right.
Qed.





(** ** Repair, then analysis *)



(** ** The second set of the breadth-first loop *)

Lemma pathway_visit_second k nbrs V H H2 Q :
  (foldl (pathway_visit k) (V, H, Q) nbrs).1.1
  = (foldl (pathway_visit k) (V, H2, Q) nbrs).1.1
  ∧ (foldl (pathway_visit k) (V, H, Q) nbrs).2
    = (foldl (pathway_visit k) (V, H2, Q) nbrs).2
  ∧ (∀ y, y ∈ V → y ∈ (foldl (pathway_visit k) (V, H, Q) nbrs).1.1)
  ∧ (∀ y, y ∈ (foldl (pathway_visit k) (V, H, Q) nbrs).1.2
          ↔ y ∈ H ∨ (y ∈ (foldl (pathway_visit k) (V, H, Q) nbrs).1.1 ∧ y ∉ V)).
Proof.
  revert V H H2 Q. induction nbrs as [|z nbrs IH]; intros V H H2 Q.
  { simpl. split_and!; [done..|]. intros y. tauto. }
  cbn [foldl]. rewrite !pathway_visit_eq.
  destruct (js_set_has z V) eqn:E; [apply IH|].
  apply js_set_has_false in E.
  destruct (IH (js_set_add z V) (js_set_add z H) (js_set_add z H2) (Q ++ [(z, S k)]))
    as (H1 & H3 & H4 & H5).
  split_and!; [done|done| |].
  - intros y Hy. apply H4, elem_of_js_set_add. by right.
  - intros y. rewrite H5, !elem_of_js_set_add. split.
    + intros [[->|?]|[? Hn]]; [right|by left|right].
      * split; [|done]. apply H4, elem_of_js_set_add. by left.
      * split; [done|]. intros ?. apply Hn. by right.
    + intros [?|[Hy Hn]]; [left; by right|].
      destruct (decide (y = z)) as [->|Hne]; [left; by left|].
      right. split; [done|]. intros [?|?]; done.
Qed.

(** The visited set does not depend on the second set, and the second set
    gains exactly what the visited set gains. *)
Lemma pathwayLoop_second nm maxDepth fuel V H Q r :
  pathwayLoop fuel nm maxDepth (V, H, Q) = Ok r →
  (∃ r0, pathwayLoop fuel nm maxDepth (V, V, Q) = Ok r0 ∧ r0.1 = r.1)
  ∧ (∀ y, y ∈ V → y ∈ r.1)
  ∧ (∀ y, y ∈ r.2 ↔ y ∈ H ∨ (y ∈ r.1 ∧ y ∉ V)).
Proof.
  revert V H Q r. induction fuel as [|fuel IH]; intros V H Q r.
  { destruct Q as [|c rest]; [|done]. rewrite !pathwayLoop_nil. intros [= <-]. simpl.
    split_and!; [eauto|done|]. intros y. tauto. }
  destruct Q as [|c rest].
  { rewrite !pathwayLoop_nil. intros [= <-]. simpl.
    split_and!; [eauto|done|]. intros y. tauto. }
  rewrite !pathwayLoop_cons. destruct (maxDepth <=? c.2)%nat; [apply IH|].
  destruct (pathway_visit_second c.2 (neighbors nm c.1) V H V rest) as (E1 & E2 & Hm & Hs).
  destruct (pathway_visit_fold c.2 (neighbors nm c.1) V V rest) as (_ & _ & Hsame & _).
  specialize (Hsame eq_refl).
  destruct (foldl (pathway_visit c.2) (V, H, rest) (neighbors nm c.1)) as [[V1 H1] Q1].
  destruct (foldl (pathway_visit c.2) (V, V, rest) (neighbors nm c.1)) as [[V1' H1'] Q1'].
  simpl in *. subst V1' Q1' H1'.
  intros Hr. destruct (IH _ _ _ _ Hr) as ((r0 & Hr0 & E0) & Hm' & Hs').
  split_and!; [eauto|eauto|].
  intros y. rewrite Hs', Hs. split.
  - intros [[?|[? ?]]|[? Hn]]; [by left|right; eauto|right].
    split; [done|]. intros ?. apply Hn. eauto.
  - intros [?|[? ?]]; [by left; left|].
    destruct (decide (y ∈ V1)); [left; right|right]; done.
Qed.

(** ** useMultiHopNeighborMap *)

Lemma multiHopEntry_spec nm maxDepth start :
  ∃ multiHop, multiHopEntry nm maxDepth start = Ok (neighbors nm start, multiHop)
    ∧ ∀ y, y ∈ multiHop ↔ y ≠ start ∧ ∃ n, n ≤ maxDepth ∧ nsteps (nbr nm) n start y.
Proof.
  unfold multiHopEntry. cbv zeta.
  destruct (pathwayLoop_total nm maxDepth (concat (snd <$> map_to_list nm))
              (pathway_fuel nm) ([start], [], [(start, O)])) as [r Hr].
  { intros a b. apply neighbors_in_values. }
  { simpl. unfold pathway_fuel.
    pose proof (unvisited_le_length (concat (snd <$> map_to_list nm)) [start]). lia. }
  rewrite Hr. cbn [rbind]. eexists. split; [done|].
  destruct (pathwayLoop_second _ _ _ _ _ _ _ Hr) as ((r0 & Hr0 & E0) & _ & Hs).
  destruct (pathwayLoop_inv nm start maxDepth _ [] _ r0
              (pathway_inv_init nm start maxDepth) Hr0) as [done' Hinv].
  pose proof (pathway_inv_final nm start maxDepth done' r0.1 r0.2 Hinv) as Hball.
  pose proof (pinv_same _ _ _ _ _ Hinv) as Hsame. simpl in Hsame.
  intros y. rewrite Hs, <-E0, <-Hsame, Hball, list_elem_of_singleton.
  split; [intros [[]%elem_of_nil|[? ?]]; done|]. intros [? ?]. by right.
Qed.

Lemma multiHop_loop {N : Type} nm maxDepth (nodes' : list (Node N)) m0 :
  ∃ m, forEachM (multiHop_body nm maxDepth) nodes' m0 = Ok m
    ∧ ∀ k, (k ∈ id <$> nodes' →
              ∃ e, multiHopEntry nm maxDepth k = Ok e ∧ m !! k = Some e)
           ∧ (k ∉ id <$> nodes' → m !! k = m0 !! k).
Proof.
  revert m0. induction nodes' as [|n nodes' IH]; intros m0; cbn [forEachM].
  { exists m0. split; [done|]. intros k. split; [by intros ?%elem_of_nil|done]. }
  unfold multiHop_body at 1.
  destruct (multiHopEntry_spec nm maxDepth (id n)) as (mh & He & _).
  rewrite He. cbn [rbind].
  destruct (IH (<[id n := (neighbors nm (id n), mh)]> m0)) as (m & -> & Hm).
  exists m. split; [done|]. intros k. destruct (Hm k) as [H1 H2]. split.
  - intros Hk. destruct (decide (k ∈ id <$> nodes')) as [Hin|Hin]; [by apply H1|].
    rewrite fmap_cons in Hk. apply elem_of_cons in Hk as [->|?]; [|done].
    rewrite (H2 Hin), lookup_insert_eq. eauto.
  - intros Hk. rewrite fmap_cons, not_elem_of_cons in Hk. destruct Hk as [Hne Hin].
    rewrite (H2 Hin), lookup_insert_ne; done.
Qed.

(** X4: when the ends of every link are node ids,
    [useMultiHopNeighborMap] returns a map with one entry per node id:
    [direct] is the set that [useNeighborMap] holds for the node, and
    [multiHop] holds exactly the ids other than the node itself that a
    path of at most [maxDepth] links joins to it; for a positive
    [maxDepth] it therefore contains every direct neighbour other than the
    node. *)
Theorem useMultiHopNeighborMap_spec {N : Type} (data : GraphData N) (maxDepth : nat) :
  links_reference_nodes (nodes data) (links data) →
  ∃ m, useMultiHopNeighborMap data maxDepth = Ok m
    ∧ (∀ k, is_Some (m !! k) ↔ k ∈ id <$> nodes data)
    ∧ ∀ k direct multiHop, m !! k = Some (direct, multiHop) →
        direct = neighbors (useNeighborMap data) k
        ∧ (k ∉ multiHop)
        ∧ (∀ y, y ∈ multiHop
                ↔ y ≠ k ∧ ∃ n, n ≤ maxDepth ∧ nsteps (linked (links data)) n k y)
        ∧ (0 < maxDepth → ∀ y, y ∈ direct → y ≠ k → y ∈ multiHop).
Proof.
  intros Href. unfold useMultiHopNeighborMap. cbv zeta.
  destruct (multiHop_loop (adjacency_of (nodes data) (links data)) maxDepth (nodes data) ∅)
    as (m & -> & Hm).
  exists m. split; [done|].
  assert (Hdom : ∀ k, is_Some (m !! k) ↔ k ∈ id <$> nodes data).
  { intros k. destruct (Hm k) as [H1 H2]. split.
    - intros Hk. destruct (decide (k ∈ id <$> nodes data)) as [|Hn]; [done|].
      rewrite (H2 Hn), lookup_empty in Hk. by destruct Hk.
    - intros Hk. destruct (H1 Hk) as (e & _ & ->). eauto. }
  split; [done|].
  intros k direct multiHop Hk.
  assert (Hin : k ∈ id <$> nodes data) by (apply Hdom; eauto).
  destruct (Hm k) as [H1 _]. destruct (H1 Hin) as (e & He & Hk').
  rewrite Hk in Hk'. injection Hk' as <-.
  destruct (multiHopEntry_spec (adjacency_of (nodes data) (links data)) maxDepth k)
    as (mh & He' & Hmh).
  rewrite He in He'. injection He' as -> ->.
  assert (Hball : ∀ y, y ∈ mh
            ↔ y ≠ k ∧ ∃ n, n ≤ maxDepth ∧ nsteps (linked (links data)) n k y).
  { intros y. rewrite Hmh. split; intros [? (n & ? & Hs)]; (split; [done|]); exists n;
      (split; [done|]); by apply (nsteps_neighbors_linked data Href n k y Hin). }
  split_and!; [done| |done|].
  - rewrite Hball. by intros [? _].
  - intros Hd y Hy Hne. apply Hball. split; [done|]. exists 1. split; [lia|].
    apply nsteps_once. apply (nbr_linked (nodes data) (links data)) in Hy as [_ ?]. done.
Qed.

Lemma useMultiHopNeighborMap_spec_witness :
  ∃ m, useMultiHopNeighborMap chain_graph 3 = Ok m
    ∧ (∀ k, is_Some (m !! k) ↔ k ∈ id <$> nodes chain_graph)
    ∧ ∀ k direct multiHop, m !! k = Some (direct, multiHop) →
        direct = neighbors (useNeighborMap chain_graph) k
        ∧ (k ∉ multiHop)
        ∧ (∀ y, y ∈ multiHop
                ↔ y ≠ k ∧ ∃ n, n ≤ 3 ∧ nsteps (linked (links chain_graph)) n k y)
        ∧ (0 < 3 → ∀ y, y ∈ direct → y ≠ k → y ∈ multiHop).
Proof.
  exact (useMultiHopNeighborMap_spec chain_graph 3 chain_graph_links_reference_nodes).
Defined.

(** ** Standard mode of the highlight *)

Lemma elem_of_foldl_js_set_add (xs acc : list string) y :
  y ∈ foldl (λ hn i, js_set_add i hn) acc xs ↔ y ∈ acc ∨ y ∈ xs.
Proof.
  revert acc. induction xs as [|x xs IH]; intros acc; cbn [foldl].
  { split; [eauto|]. by intros [|?%elem_of_nil]. }
  rewrite IH, elem_of_js_set_add, elem_of_cons. tauto.
Qed.

Lemma nsteps_le_1 {A : Type} (R : relation A) a b :
  (∃ n, n ≤ 1 ∧ nsteps R n a b) ↔ a = b ∨ R a b.
Proof.
  split.
  - intros (n & Hn & Hs). destruct n as [|[|n]]; [|  |lia].
    + left. by inversion Hs.
    + right. by apply nsteps_once_inv.
  - intros [->|?]; [exists 0|exists 1]; (split; [lia|]); [constructor|by apply nsteps_once].
Qed.

(** X5: for a focus node of a graph whose link ends are node ids,
    standard mode highlights exactly the focus and the ids linked to it,
    and exactly the links, under their keys [link-i], one end of which is
    the focus; pathway mode at depth 1 highlights the same nodes and at
    least the same links. *)
Theorem highlightState_standard {N : Type} (data : GraphData N) (maxDepth : nat)
    (focus : Node N) :
  links_reference_nodes (nodes data) (links data) →
  focus ∈ nodes data →
  ∃ hs hs1,
    highlightState data (useNeighborMap data) false maxDepth (Some focus) = Ok hs
    ∧ highlightState data (useNeighborMap data) true 1 (Some focus) = Ok hs1
    ∧ (∀ y, y ∈ hl_nodes hs ↔ y = id focus ∨ linked (links data) (id focus) y)
    ∧ (∀ i l, links data !! i = Some l →
         link_key i ∈ hl_links hs ↔ sourceId l = id focus ∨ targetId l = id focus)
    ∧ (∀ key, key ∈ hl_links hs → ∃ i l, links data !! i = Some l ∧ key = link_key i)
    ∧ (∀ y, y ∈ hl_nodes hs ↔ y ∈ hl_nodes hs1)
    ∧ (∀ key, key ∈ hl_links hs → key ∈ hl_links hs1).
Proof.
  intros Href Hfocus.
  destruct (pathway_highlight data Href 1 focus Hfocus) as (hs1 & Hrun1 & Hn1 & Hl1 & _).
  eexists _, hs1. split; [done|]. split; [done|]. cbn [hl_nodes hl_links].
  assert (Hid : id focus ∈ id <$> nodes data) by (apply list_elem_of_fmap; eauto).
  assert (Hnodes : ∀ y,
    y ∈ foldl (λ hn i, js_set_add i hn) [id focus] (neighbors (useNeighborMap data) (id focus))
    ↔ y = id focus ∨ linked (links data) (id focus) y).
  { intros y. rewrite elem_of_foldl_js_set_add, list_elem_of_singleton.
    unfold useNeighborMap.
    change (y ∈ neighbors ?m ?a) with (nbr m a y). rewrite nbr_linked. tauto. }
  assert (Hlinks : ∀ i l, links data !! i = Some l →
    link_key i ∈ highlight_links
      (λ link, String.eqb (sourceId link) (id focus) || String.eqb (targetId link) (id focus))
      (links data)
    ↔ sourceId l = id focus ∨ targetId l = id focus).
  { intros i l Hl. rewrite elem_of_highlight_links. split.
    - intros (j & l' & Hj & Hkeep & ->%link_key_inj). rewrite Hl in Hj. injection Hj as <-.
      apply orb_true_iff in Hkeep as [?%String.eqb_eq| ?%String.eqb_eq]; eauto.
    - intros Hor. exists i, l. split_and!; [done| |done].
      apply orb_true_iff. destruct Hor; [left|right]; by apply String.eqb_eq. }
  split_and!; [done|done| | |].
  - intros key (i & l & ? & _ & ->)%elem_of_highlight_links. eauto.
  - intros y. rewrite Hnodes, Hn1, nsteps_le_1. split; intros [?|?]; eauto.
  - intros key Hkey. pose proof Hkey as (i & l & Hl & Hkeep & ->)%elem_of_highlight_links.
    apply (Hl1 i l Hl). apply (Hlinks i l Hl) in Hkey.
    rewrite !Hn1, !nsteps_le_1.
    assert (linked (links data) (sourceId l) (targetId l)) as Hlk.
    { exists l. split; [by eapply list_elem_of_lookup_2|by left]. }
    destruct Hkey as [<-|<-].
    + split; [by left|by right].
    + split; [right; by apply linked_sym|by left].
Qed.

Lemma highlightState_standard_witness :
  ∃ hs hs1,
    highlightState chain_graph (useNeighborMap chain_graph) false 3 (Some (chain_node "B"))
    = Ok hs
    ∧ highlightState chain_graph (useNeighborMap chain_graph) true 1 (Some (chain_node "B"))
      = Ok hs1
    ∧ (∀ y, y ∈ hl_nodes hs
            ↔ y = id (chain_node "B") ∨ linked (links chain_graph) (id (chain_node "B")) y)
    ∧ (∀ i l, links chain_graph !! i = Some l →
         link_key i ∈ hl_links hs
         ↔ sourceId l = id (chain_node "B") ∨ targetId l = id (chain_node "B"))
    ∧ (∀ key, key ∈ hl_links hs →
         ∃ i l, links chain_graph !! i = Some l ∧ key = link_key i)
    ∧ (∀ y, y ∈ hl_nodes hs ↔ y ∈ hl_nodes hs1)
    ∧ (∀ key, key ∈ hl_links hs → key ∈ hl_links hs1).
Proof.
  apply (highlightState_standard chain_graph 3 (chain_node "B")
           chain_graph_links_reference_nodes).
  unfold chain_graph. cbn [nodes]. apply elem_of_cons. right. by left.
Defined.

(** X6: for a focus node of a graph whose link ends are node ids: in
    pathway mode [isLinkHighlighted] holds of a link exactly when the key
    of the link is in [highlightState.links]; in standard mode it holds of
    every link whose key is in that set, and it can hold of more: in the
    triangle A-B, A-C, B-C with the focus A the link B-C joins two
    highlighted nodes, and its key is not in the set. *)
Theorem isLinkHighlighted_links :
  (∀ (data : GraphData num) (maxDepth : nat) (focus : Node num),
     links_reference_nodes (nodes data) (links data) → focus ∈ nodes data →
     (∃ hs, highlightState data (useNeighborMap data) true maxDepth (Some focus) = Ok hs
        ∧ ∀ i l, links data !! i = Some l →
            isLinkHighlighted hs l = true ↔ link_key i ∈ hl_links hs)
     ∧ (∃ hs, highlightState data (useNeighborMap data) false maxDepth (Some focus) = Ok hs
          ∧ ∀ i l, links data !! i = Some l →
              link_key i ∈ hl_links hs → isLinkHighlighted hs l = true))
  ∧ (∃ hs l, highlightState triangle_graph (useNeighborMap triangle_graph) false 3
               (Some (scenario_node "A")) = Ok hs
       ∧ links triangle_graph !! 2 = Some l
       ∧ isLinkHighlighted hs l = true
       ∧ link_key 2 ∉ hl_links hs).
Proof.
  split.
  - intros data maxDepth focus Href Hfocus. split.
    + destruct (pathway_highlight data Href maxDepth focus Hfocus)
        as (hs & Hrun & _ & Hl & _).
      exists hs. split; [done|]. intros i l Hi. rewrite (Hl i l Hi).
      unfold isLinkHighlighted. rewrite andb_true_iff, !js_set_has_true. done.
    + eexists. split; [done|]. cbn [hl_nodes hl_links]. intros i l Hi.
      intros (j & l' & Hj & Hkeep & ->%link_key_inj)%elem_of_highlight_links.
      rewrite Hi in Hj. injection Hj as <-.
      unfold isLinkHighlighted. cbn [hl_nodes].
      rewrite andb_true_iff, !js_set_has_true, !elem_of_foldl_js_set_add,
        !list_elem_of_singleton.
      assert (Hin : l ∈ links data) by by eapply list_elem_of_lookup_2.
      destruct (Href l Hin) as [Hs Ht].
      assert (Hnb : ∀ a b, a ∈ id <$> nodes data → linked (links data) a b →
                b ∈ neighbors (useNeighborMap data) a).
      { intros a b Ha Hab. apply (nbr_linked (nodes data) (links data)). done. }
      assert (Hlk : linked (links data) (sourceId l) (targetId l)).
      { exists l. split; [done|by left]. }
      apply orb_true_iff in Hkeep as [<-%String.eqb_eq| <-%String.eqb_eq].
      * split; [by left|right]. by apply Hnb.
      * split; [right|by left]. apply Hnb; [done|]. by apply linked_sym.
  - eexists _, _. split_and!; [by vm_compute|by vm_compute|by vm_compute|].
    apply (bool_decide_unpack _). by vm_compute.
Qed.

Lemma isLinkHighlighted_links_witness :
  (∃ hs, highlightState chain_graph (useNeighborMap chain_graph) true 3
           (Some (chain_node "A")) = Ok hs
     ∧ ∀ i l, links chain_graph !! i = Some l →
         isLinkHighlighted hs l = true ↔ link_key i ∈ hl_links hs)
  ∧ (∃ hs, highlightState chain_graph (useNeighborMap chain_graph) false 3
             (Some (chain_node "A")) = Ok hs
       ∧ ∀ i l, links chain_graph !! i = Some l →
           link_key i ∈ hl_links hs → isLinkHighlighted hs l = true).
Proof.
  apply (proj1 isLinkHighlighted_links chain_graph 3 (chain_node "A")
           chain_graph_links_reference_nodes).
  unfold chain_graph. cbn [nodes]. by left.
Defined.

(** ** useLinkNeighborMap *)

Lemma useLinkNeighborMap_snoc {N : Type} `{JsNumber N} (ns : list (Node N)) ls x :
  useLinkNeighborMap (mkGraph ns (ls ++ [x]))
  = <[link_key (length ls) := linkNeighbors x]> (useLinkNeighborMap (mkGraph ns ls)).
Proof.
  unfold useLinkNeighborMap. cbn [links].
  rewrite imap_app, foldl_app. cbn [imap foldl fst snd]. by rewrite Nat.add_0_r.
Qed.

Lemma useLinkNeighborMap_lookup {N : Type} `{JsNumber N} (ns : list (Node N)) ls key e :
  useLinkNeighborMap (mkGraph ns ls) !! key = Some e
  ↔ ∃ i l, ls !! i = Some l ∧ key = link_key i ∧ e = linkNeighbors l.
Proof.
  revert e. induction ls as [|x ls IH] using rev_ind; intros e.
  { split; [done|]. by intros (i & l & ? & _). }
  rewrite useLinkNeighborMap_snoc, lookup_insert_Some, IH. split.
  - intros [[<- <-]|[Hne (i & l & Hi & -> & ->)]].
    + exists (length ls), x. split; [|done]. by rewrite lookup_app_r, Nat.sub_diag.
    + exists i, l. split; [|done]. by apply lookup_app_l_Some.
  - intros (i & l & Hi & -> & ->). apply lookup_app_Some in Hi as [Hi|[Hle Hi]].
    + right. split; [|eauto]. intros ?%link_key_inj. apply lookup_lt_Some in Hi. lia.
    + left. apply list_lookup_singleton_Some in Hi as [Hz ->].
      assert (i = length ls) as -> by lia. done.
Qed.

(** X7: [useLinkNeighborMap] has exactly one entry per link, under the
    key [link-i] of its index: the ids of the two ends and the weight,
    which is the value of the link, or 1 when that value is falsy (0 or
    NaN), and so is never falsy. *)
Theorem useLinkNeighborMap_spec (data : GraphData num) :
  (∀ i l, links data !! i = Some l →
     useLinkNeighborMap data !! link_key i = Some (linkNeighbors l))
  ∧ (∀ key e, useLinkNeighborMap data !! key = Some e →
       ∃ i l, links data !! i = Some l ∧ key = link_key i
         ∧ ln_sourceId e = sourceId l ∧ ln_targetId e = targetId l
         ∧ ntruthy (ln_weight e) = true
         ∧ (ntruthy (value l) = true → ln_weight e = value l)
         ∧ (ntruthy (value l) = false → ln_weight e = Fin 1))
  ∧ base.size (useLinkNeighborMap data) = length (links data).
Proof.
  destruct data as [ns ls]. cbn [links]. split_and!.
  - intros i l Hi. apply useLinkNeighborMap_lookup. eauto.
  - intros key e (i & l & Hi & -> & ->)%useLinkNeighborMap_lookup.
    exists i, l. unfold linkNeighbors. cbn [ln_sourceId ln_targetId ln_weight num_or].
    split_and!; [done..| | |]; cbn [jtruthy jofZ num_JsNumber];
      destruct (ntruthy (value l)) eqn:Et; done.
  - induction ls as [|x ls IH] using rev_ind; [done|].
    rewrite useLinkNeighborMap_snoc, length_app, Nat.add_1_r.
    rewrite map_size_insert_None; [by rewrite IH|].
    apply eq_None_not_Some. intros [e (i & l & Hi & ?%link_key_inj & _)%useLinkNeighborMap_lookup].
    apply lookup_lt_Some in Hi. lia.
Qed.

(** ** Selection of several nodes *)

Lemma elem_of_js_set_delete x y s : x ∈ js_set_delete y s ↔ x ≠ y ∧ x ∈ s.
Proof.
  unfold js_set_delete. rewrite list_elem_of_In, filter_In, <-list_elem_of_In.
  rewrite negb_true_iff, String.eqb_neq. tauto.
Qed.

Lemma js_set_delete_NoDup x s : NoDup s → NoDup (js_set_delete x s).
Proof.
  unfold js_set_delete. induction 1 as [|y s Hy _ IH]; simpl; [constructor|].
  destruct (negb (String.eqb y x)); [|done]. constructor; [|done].
  intros Hin. apply Hy. apply list_elem_of_In, filter_In in Hin as [? _].
  by apply list_elem_of_In.
Qed.

Lemma elem_of_foldl_js_set_delete (xs s : list string) y :
  y ∈ foldl (λ next i, js_set_delete i next) s xs ↔ y ∈ s ∧ y ∉ xs.
Proof.
  revert s. induction xs as [|x xs IH]; intros s; cbn [foldl].
  { split; [intros ?; split; [done|by apply not_elem_of_nil]|by intros [? _]]. }
  rewrite IH, elem_of_js_set_delete, not_elem_of_cons. tauto.
Qed.

Lemma foldl_js_set_add_NoDup (xs s : list string) :
  NoDup s → NoDup (foldl (λ next i, js_set_add i next) s xs).
Proof.
  revert s. induction xs as [|x xs IH]; intros s Hs; cbn [foldl]; [done|].
  by apply IH, js_set_add_NoDup.
Qed.

Lemma foldl_js_set_delete_NoDup (xs s : list string) :
  NoDup s → NoDup (foldl (λ next i, js_set_delete i next) s xs).
Proof.
  revert s. induction xs as [|x xs IH]; intros s Hs; cbn [foldl]; [done|].
  by apply IH, js_set_delete_NoDup.
Qed.

Lemma foldl_js_set_add_absorb (xs s : list string) :
  (∀ x, x ∈ xs → x ∈ s) → foldl (λ next i, js_set_add i next) s xs = s.
Proof.
  induction xs as [|x xs IH]; intros Hall; cbn [foldl]; [done|].
  unfold js_set_add at 2. rewrite (proj2 (js_set_has_true x s)) by (apply Hall; by left).
  apply IH. intros; apply Hall. by right.
Qed.

Lemma js_set_delete_absent x s : x ∉ s → js_set_delete x s = s.
Proof.
  unfold js_set_delete. induction s as [|y s IH]; intros Hx; simpl; [done|].
  apply not_elem_of_cons in Hx as [Hne Hx].
  rewrite (proj2 (String.eqb_neq y x)) by done. simpl. by rewrite IH.
Qed.

Lemma foldl_js_set_delete_absorb (xs s : list string) :
  (∀ x, x ∈ xs → x ∉ s) → foldl (λ next i, js_set_delete i next) s xs = s.
Proof.
  induction xs as [|x xs IH]; intros Hall; cbn [foldl]; [done|].
  rewrite js_set_delete_absent by (apply Hall; by left).
  apply IH. intros; apply Hall. by right.
Qed.

(** X8: a click on a node records it as the last selected node and
    leaves the hovered node.  With Ctrl, Cmd, Shift or Alt held it toggles
    the id of the node in the selection and touches no other id, so two
    such clicks restore the selection, and a selection without duplicates
    stays so; without a modifier it empties the selection when the node
    was the only selected one, and otherwise selects just this node. *)
Theorem handleNodeSelect_spec {N : Type} (st : MultiSelectionState N) (node : Node N)
    (event : MouseEvent) :
  lastSelectedNode (handleNodeSelect st node event) = Some node
  ∧ hoveredNode (handleNodeSelect st node event) = hoveredNode st
  ∧ (isMultiSelect event = true →
       (∀ x, x ≠ id node →
          isNodeSelected (handleNodeSelect st node event) x = isNodeSelected st x)
       ∧ isNodeSelected (handleNodeSelect st node event) (id node)
         = negb (isNodeSelected st (id node))
       ∧ (∀ x, isNodeSelected
                 (handleNodeSelect (handleNodeSelect st node event) node event) x
               = isNodeSelected st x)
       ∧ (NoDup (selectedNodes st) →
          NoDup (selectedNodes (handleNodeSelect st node event))))
  ∧ (isMultiSelect event = false →
       (selectedNodes st = [id node] →
        selectedNodes (handleNodeSelect st node event) = [])
       ∧ (selectedNodes st ≠ [id node] →
          selectedNodes (handleNodeSelect st node event) = [id node])).
Proof.
  assert (Htoggle : ∀ s : MultiSelectionState N, isMultiSelect event = true →
    (∀ x, x ≠ id node →
       isNodeSelected (handleNodeSelect s node event) x = isNodeSelected s x)
    ∧ isNodeSelected (handleNodeSelect s node event) (id node)
      = negb (isNodeSelected s (id node))).
  { intros s Hm. unfold handleNodeSelect, isNodeSelected. cbv zeta.
    unfold isMultiSelect in Hm. rewrite Hm. cbn [selectedNodes].
    destruct (js_set_has (id node) (selectedNodes s)) eqn:E.
    - split.
      + intros x Hx. apply bool_decide_ext. rewrite elem_of_js_set_delete. tauto.
      + apply js_set_has_false. rewrite elem_of_js_set_delete. tauto.
    - split.
      + intros x Hx. apply bool_decide_ext. rewrite elem_of_js_set_add. tauto.
      + apply js_set_has_true, elem_of_js_set_add. by left. }
  split_and!; [done|done| |].
  - intros Hm. destruct (Htoggle st Hm) as [H1 H2]. split_and!; [done|done| |].
    + intros x. destruct (Htoggle (handleNodeSelect st node event) Hm) as [H3 H4].
      destruct (decide (x = id node)) as [->|Hne].
      * rewrite H4, H2. apply negb_involutive.
      * rewrite H3, H1; done.
    + intros Hnd. unfold handleNodeSelect. cbv zeta.
      unfold isMultiSelect in Hm. rewrite Hm. cbn [selectedNodes].
      destruct (js_set_has _ _); [by apply js_set_delete_NoDup|by apply js_set_add_NoDup].
  - intros Hm. unfold handleNodeSelect. cbv zeta.
    unfold isMultiSelect in Hm. rewrite Hm. cbn [selectedNodes]. split.
    + intros ->. cbn [length Nat.eqb].
      rewrite (proj2 (js_set_has_true _ _)); [done|]. by left.
    + intros Hne.
      destruct (js_set_has (id node) (selectedNodes st)) eqn:E; [|done].
      destruct (Nat.eqb_spec (length (selectedNodes st)) 1) as [Hlen|]; [|done].
      exfalso. apply Hne. apply js_set_has_true in E.
      destruct (selectedNodes st) as [|a [|b r]]; simpl in Hlen; try done.
      by apply list_elem_of_singleton in E as ->.
Qed.

(** X9: after [selectNodes] an id is selected exactly when it was
    selected or is in the list; after [deselectNodes] exactly when it was
    selected and is not in the list; deselecting the ids just selected
    gives the same selection as deselecting alone; both are idempotent;
    after [clearSelection] no id is selected and the last selected node is
    cleared, which [selectNodes] leaves as it is. *)
Theorem selectNodes_deselectNodes {N : Type} (st : MultiSelectionState N)
    (nodeIds : list string) :
  (∀ x, isNodeSelected (selectNodes st nodeIds) x = true
        ↔ isNodeSelected st x = true ∨ x ∈ nodeIds)
  ∧ (∀ x, isNodeSelected (deselectNodes st nodeIds) x = true
          ↔ isNodeSelected st x = true ∧ x ∉ nodeIds)
  ∧ (∀ x, isNodeSelected (deselectNodes (selectNodes st nodeIds) nodeIds) x
          = isNodeSelected (deselectNodes st nodeIds) x)
  ∧ selectNodes (selectNodes st nodeIds) nodeIds = selectNodes st nodeIds
  ∧ deselectNodes (deselectNodes st nodeIds) nodeIds = deselectNodes st nodeIds
  ∧ (∀ x, isNodeSelected (clearSelection st) x = false)
  ∧ lastSelectedNode (selectNodes st nodeIds) = lastSelectedNode st
  ∧ lastSelectedNode (clearSelection st) = None.
Proof.
  assert (Hsel : ∀ (s : MultiSelectionState N) x,
    isNodeSelected (selectNodes s nodeIds) x = true
    ↔ isNodeSelected s x = true ∨ x ∈ nodeIds).
  { intros s x. unfold isNodeSelected, selectNodes. cbn [selectedNodes].
    rewrite !js_set_has_true, elem_of_foldl_js_set_add. done. }
  assert (Hdes : ∀ (s : MultiSelectionState N) x,
    isNodeSelected (deselectNodes s nodeIds) x = true
    ↔ isNodeSelected s x = true ∧ x ∉ nodeIds).
  { intros s x. unfold isNodeSelected, deselectNodes. cbn [selectedNodes].
    rewrite !js_set_has_true, elem_of_foldl_js_set_delete. done. }
  split_and!; [done|done| | | |done|done|done].
  - intros x. apply eq_true_iff_eq. rewrite !Hdes, Hsel. tauto.
  - unfold selectNodes. cbn [selectedNodes hoveredNode lastSelectedNode]. f_equal.
    apply foldl_js_set_add_absorb. intros x Hx. apply elem_of_foldl_js_set_add. by right.
  - unfold deselectNodes. cbn [selectedNodes hoveredNode lastSelectedNode]. f_equal.
    apply foldl_js_set_delete_absorb.
    intros x Hx [_ ?]%elem_of_foldl_js_set_delete. done.
Qed.

(** ** The strongest relationships of a node *)

Lemma insert_by_weight_perm (r : DirectRelationship num) rs :
  insert_by_weight r rs ≡ₚ r :: rs.
Proof.
  induction rs as [|d ds IH]; simpl; [done|].
  destruct (nltb _ _); [done|]. rewrite IH. apply Permutation_swap.
Qed.

Lemma sort_by_weight_perm (rs : list (DirectRelationship num)) : sort_by_weight rs ≡ₚ rs.
Proof.
  unfold sort_by_weight.
  assert (H : ∀ acc, foldl (fun acc r => insert_by_weight r acc) acc rs ≡ₚ acc ++ rs).
  { induction rs as [|c cs' IH]; intros acc; simpl; [by rewrite app_nil_r|].
    rewrite IH, insert_by_weight_perm. simpl. apply Permutation_middle. }
  apply H.
Qed.

Lemma insert_by_weight_desc (r : DirectRelationship num) rs :
  finite (dr_weight r) → Forall (λ d, finite (dr_weight d)) rs →
  weight_desc rs → weight_desc (insert_by_weight r rs).
Proof.
  intros [q Hq]. induction rs as [|d ds IH]; simpl; [by intros _ _; split|].
  intros [[p Hp] Hfin]%Forall_cons [Hd Hds]. rewrite Hp, Hq. cbn [nltb].
  assert (dr_value d = p) as Hvd by (unfold dr_value; by rewrite Hp).
  assert (dr_value r = q) as Hvr by (unfold dr_value; by rewrite Hq).
  destruct (Qltb p q) eqn:E; simpl.
  - apply Qltb_lt in E. split_and!; [|done..]. constructor; [rewrite Hvd, Hvr; lra|].
    eapply Forall_impl; [exact Hd|]. simpl. intros e He. rewrite Hvd in He. rewrite Hvr. lra.
  - apply Qltb_ge in E. split; [|by apply IH].
    rewrite insert_by_weight_perm. constructor; [by rewrite Hvd, Hvr|done].
Qed.

Lemma sort_by_weight_desc (rs : list (DirectRelationship num)) :
  Forall (λ d, finite (dr_weight d)) rs → weight_desc (sort_by_weight rs).
Proof.
  unfold sort_by_weight. intros Hfin.
  assert (H : ∀ acc, Forall (λ d, finite (dr_weight d)) acc → weight_desc acc →
                     weight_desc (foldl (fun acc r => insert_by_weight r acc) acc rs)).
  { induction Hfin as [|c cs' Hc _ IH]; intros acc Hacc Hd; simpl; [done|].
    apply IH.
    - rewrite insert_by_weight_perm. by constructor.
    - by apply insert_by_weight_desc. }
  by apply H.
Qed.

Lemma weight_desc_app rs1 rs2 :
  weight_desc (rs1 ++ rs2) →
  weight_desc rs1 ∧ ∀ r x, r ∈ rs1 → x ∈ rs2 → (dr_value x <= dr_value r)%Q.
Proof.
  induction rs1 as [|d ds IH]; simpl.
  { intros _. split; [done|]. by intros ? ? ?%elem_of_nil. }
  intros [Hd Hds]. apply Forall_app in Hd as [Hd1 Hd2].
  destruct (IH Hds) as [IH1 IH2]. split; [done|].
  intros r x [->|Hr]%elem_of_cons Hx; [|by apply IH2].
  by apply (proj1 (Forall_forall _ _) Hd2).
Qed.

Lemma weight_desc_lookup rs i j ri rj :
  weight_desc rs → i < j → rs !! i = Some ri → rs !! j = Some rj →
  (dr_value rj <= dr_value ri)%Q.
Proof.
  revert i j. induction rs as [|d ds IH]; intros i j; [done|]. simpl.
  intros [Hd Hds] Hij Hi Hj. destruct j as [|j]; [lia|]. simpl in Hj.
  destruct i as [|i]; simpl in Hi.
  - injection Hi as <-. apply (proj1 (Forall_forall _ _) Hd). by eapply list_elem_of_lookup_2.
  - eapply (IH i j); [done|lia|done..].
Qed.

(** X10: when the values of the links are finite,
    [getMultiHopRelationships] returns the target id it was given and
    min(3, number of links at the node) relationships, in order of
    non-increasing weight, none of them weaker than a relationship that is
    left out; each one carries the type and the value of a link at the
    node, and the node found at the other end of that link. *)
Theorem getMultiHopRelationships_top3 (nodeId : string) (target : option string)
    (data : GraphData num) :
  (∀ l, l ∈ links data → finite (value l)) →
  targetNodeId (getMultiHopRelationships nodeId target data) = target
  ∧ length (directRelationships (getMultiHopRelationships nodeId target data))
    = Nat.min 3 (length (List.filter (is_incident nodeId) (links data)))
  ∧ (∀ i j ri rj, i < j →
       directRelationships (getMultiHopRelationships nodeId target data) !! i = Some ri →
       directRelationships (getMultiHopRelationships nodeId target data) !! j = Some rj →
       (dr_value rj <= dr_value ri)%Q)
  ∧ (∃ rest,
       directRelationship nodeId (nodes data)
         <$> List.filter (is_incident nodeId) (links data)
       ≡ₚ directRelationships (getMultiHopRelationships nodeId target data) ++ rest
       ∧ ∀ r x, r ∈ directRelationships (getMultiHopRelationships nodeId target data) →
                x ∈ rest → (dr_value x <= dr_value r)%Q)
  ∧ (∀ r, r ∈ directRelationships (getMultiHopRelationships nodeId target data) →
       ∃ l other, l ∈ links data
         ∧ ((sourceId l = nodeId ∧ other = targetId l)
            ∨ (sourceId l ≠ nodeId ∧ targetId l = nodeId ∧ other = sourceId l))
         ∧ dr_type r = ltype l ∧ dr_weight r = value l
         ∧ dr_node r = find_node other (nodes data)).
Proof.
  intros Hfin. unfold getMultiHopRelationships. cbv zeta.
  cbn [targetNodeId directRelationships].
  set (entries := List.map _ _).
  assert (Hentries : entries = directRelationship nodeId (nodes data)
                                 <$> List.filter (is_incident nodeId) (links data)).
  { unfold entries. generalize (List.filter (is_incident nodeId) (links data)).
    intros l. induction l as [|x l IH]; csimpl; [done|]. by rewrite IH. }
  assert (Hef : Forall (λ d, finite (dr_weight d)) entries).
  { rewrite Hentries. apply Forall_fmap, Forall_forall. intros l [Hl _]%elem_of_list_filter_bool.
    simpl. by apply Hfin. }
  pose proof (sort_by_weight_desc entries Hef) as Hdesc.
  pose proof (sort_by_weight_perm entries) as Hperm.
  rewrite <-(take_drop 3 (sort_by_weight entries)) in Hdesc.
  apply weight_desc_app in Hdesc as [Hd1 Hd2].
  split_and!.
  - done.
  - rewrite length_take, (Permutation_length Hperm), Hentries, length_fmap. lia.
  - intros i j ri rj. by apply weight_desc_lookup.
  - exists (drop 3 (sort_by_weight entries)). split; [|done].
    by rewrite take_drop, <-Hentries.
  - intros r Hr. apply elem_of_take in Hr as (i & Hr & _).
    apply list_elem_of_lookup_2 in Hr. rewrite Hperm, Hentries in Hr.
    apply list_elem_of_fmap in Hr as (l & -> & [Hl Hinc]%elem_of_list_filter_bool).
    unfold directRelationship. cbv zeta. cbn [dr_type dr_weight dr_node].
    destruct (String.eqb_spec (sourceId l) nodeId) as [Hs|Hs].
    + exists l, (targetId l). split_and!; [done|by left|done..].
    + exists l, (sourceId l). split_and!; [done| |done..]. right.
      unfold is_incident in Hinc. apply orb_true_iff in Hinc as [?%String.eqb_eq|?%String.eqb_eq];
        done.
Qed.

Lemma weighted_graph_finite : ∀ l, l ∈ links weighted_graph → finite (value l).
Proof.
  intros l Hl. unfold weighted_graph in Hl. cbn [links] in Hl.
  repeat (apply elem_of_cons in Hl as [->|Hl]); try (by apply elem_of_nil in Hl);
    by eexists.
Qed.

Lemma getMultiHopRelationships_top3_witness :
  targetNodeId (getMultiHopRelationships "H" None weighted_graph) = None
  ∧ length (directRelationships (getMultiHopRelationships "H" None weighted_graph))
    = Nat.min 3 (length (List.filter (is_incident "H") (links weighted_graph)))
  ∧ (∀ i j ri rj, i < j →
       directRelationships (getMultiHopRelationships "H" None weighted_graph) !! i = Some ri →
       directRelationships (getMultiHopRelationships "H" None weighted_graph) !! j = Some rj →
       (dr_value rj <= dr_value ri)%Q)
  ∧ (∃ rest,
       directRelationship "H" (nodes weighted_graph)
         <$> List.filter (is_incident "H") (links weighted_graph)
       ≡ₚ directRelationships (getMultiHopRelationships "H" None weighted_graph) ++ rest
       ∧ ∀ r x, r ∈ directRelationships (getMultiHopRelationships "H" None weighted_graph) →
                x ∈ rest → (dr_value x <= dr_value r)%Q)
  ∧ (∀ r, r ∈ directRelationships (getMultiHopRelationships "H" None weighted_graph) →
       ∃ l other, l ∈ links weighted_graph
         ∧ ((sourceId l = "H"%string ∧ other = targetId l)
            ∨ (sourceId l ≠ "H"%string ∧ targetId l = "H"%string ∧ other = sourceId l))
         ∧ dr_type r = ltype l ∧ dr_weight r = value l
         ∧ dr_node r = find_node other (nodes weighted_graph)).
Proof.
  exact (getMultiHopRelationships_top3 "H" None weighted_graph weighted_graph_finite).
Defined.

(** ** The similarity score: symmetry and range *)

Lemma js_set_of_spec (xs : list string) :
  NoDup (js_set_of xs) ∧ ∀ x, x ∈ js_set_of xs ↔ x ∈ xs.
Proof.
  unfold js_set_of.
  assert (H : ∀ acc, NoDup acc →
            NoDup (foldl (λ s x, js_set_add x s) acc xs)
            ∧ ∀ x, x ∈ foldl (λ s x, js_set_add x s) acc xs ↔ x ∈ acc ∨ x ∈ xs).
  { induction xs as [|y ys IH]; intros acc Hacc; cbn [foldl].
    { split; [done|]. intros x. split; [eauto|]. by intros [|?%elem_of_nil]. }
    destruct (IH (js_set_add y acc)) as [H1 H2]; [by apply js_set_add_NoDup|].
    split; [done|]. intros x. rewrite H2, elem_of_js_set_add, elem_of_cons. tauto. }
  destruct (H [] (NoDup_nil_2)) as [H1 H2]. split; [done|].
  intros x. rewrite H2. split; [by intros [?%elem_of_nil|]|eauto].
Qed.

Lemma shared_words_length (W1 W2 : list string) :
  NoDup W1 → NoDup W2 →
  length (js_set_of (List.filter (λ x, js_set_has x W2) W1))
  = length (js_set_of (List.filter (λ x, js_set_has x W1) W2)).
Proof.
  intros H1 H2. apply Permutation_length, NoDup_Permutation.
  - apply js_set_of_spec.
  - apply js_set_of_spec.
  - intros x. rewrite !(proj2 (js_set_of_spec _)), !elem_of_list_filter_bool,
      !js_set_has_true. tauto.
Qed.

Lemma shared_words_le (W1 W2 : list string) :
  NoDup W1 →
  length (js_set_of (List.filter (λ x, js_set_has x W2) W1)) ≤ length W1.
Proof.
  intros H1. apply submseteq_length, NoDup_submseteq; [apply js_set_of_spec|].
  intros x. rewrite (proj2 (js_set_of_spec _)), elem_of_list_filter_bool. tauto.
Qed.

Lemma shared_words_self (W : list string) :
  NoDup W → length (js_set_of (List.filter (λ x, js_set_has x W) W)) = length W.
Proof.
  intros H1. apply Permutation_length, NoDup_Permutation; [apply js_set_of_spec|done|].
  intros x. rewrite (proj2 (js_set_of_spec _)), elem_of_list_filter_bool, js_set_has_true.
  tauto.
Qed.

Lemma context_words_NoDup ctx : NoDup (context_words ctx).
Proof. unfold context_words. apply js_set_of_spec. Qed.

(** The three parts of the score. *)
Lemma calculateNodeSimilarity_parts (n1 n2 : Node num) :
  ∃ g c t : Q,
    is_val (calculateNodeSimilarity n1 n2) (g + c + t)
    ∧ g = (if (group n1 =? group n2)%Z then (1 # 2)%Q else 0%Q)
    ∧ t = (if bool_decide (ntype n1 = ntype n2) then (3 # 10)%Q else 0%Q)
    ∧ (0 <= c)%Q ∧ (c <= 1)%Q
    ∧ (context n1 = None ∨ context n2 = None → c = 0%Q)
    ∧ (n1 = n2 → is_Some (context n1) → (c == 1)%Q).
Proof.
  unfold calculateNodeSimilarity, jofnat. cbn [jadd jofZ jlit jdiv num_JsNumber].
  set (g := if (group n1 =? group n2)%Z then (1 # 2)%Q else 0%Q).
  set (t := if bool_decide (ntype n1 = ntype n2) then (3 # 10)%Q else 0%Q).
  set (s1 := if (group n1 =? group n2)%Z then _ else _).
  assert (Hs1 : is_val s1 g).
  { unfold s1, g. destruct (_ =? _)%Z; [|apply is_val_nofZ].
    eapply is_val_eq; [apply is_val_nadd; [apply is_val_nofZ|apply is_val_Fin]|].
    change (inject_Z 0) with 0%Q. assert ((5 # 10) == (1 # 2))%Q by done. lra. }
  set (s2 := match context n1 with Some _ => _ | None => _ end).
  assert (Hs2 : ∃ c, is_val s2 (g + c) ∧ (0 <= c)%Q ∧ (c <= 1)%Q
                  ∧ (context n1 = None ∨ context n2 = None → c = 0%Q)
                  ∧ (n1 = n2 → is_Some (context n1) → (c == 1)%Q)).
  { unfold s2. destruct (context n1) as [c1|] eqn:E1.
    2:{ exists 0%Q. split_and!; [eapply is_val_eq; [done|ring]|lra|lra|done|].
        intros _ [? ?]. done. }
    destruct (context n2) as [c2|] eqn:E2.
    2:{ exists 0%Q. split_and!; [eapply is_val_eq; [done|ring]|lra|lra|done|].
        intros <-. rewrite E1 in E2. done. }
    pose proof (context_words_length c1) as L1.
    pose proof (context_words_NoDup c1) as N1.
    pose proof (shared_words_le (context_words c1) (context_words c2) N1) as Hle.
    set (k := length (js_set_of _)) in *.
    set (m := Nat.max (length (context_words c1)) (length (context_words c2))).
    assert (Hm : 1 ≤ m ∧ k ≤ m) by (unfold m; lia).
    assert (Hmq : (0 < inject_Z (Z.of_nat m))%Q).
    { change 0%Q with (inject_Z 0). rewrite <-Zlt_Qlt. lia. }
    assert (Hkq : (0 <= inject_Z (Z.of_nat k))%Q).
    { change 0%Q with (inject_Z 0). rewrite <-Zle_Qle. lia. }
    assert (Hkm : (inject_Z (Z.of_nat k) <= inject_Z (Z.of_nat m))%Q).
    { rewrite <-Zle_Qle. lia. }
    exists (inject_Z (Z.of_nat k) / inject_Z (Z.of_nat m))%Q. split_and!.
    - apply is_val_nadd; [done|]. apply is_val_ndiv; [apply is_val_nofZ..|lra].
    - apply Qle_shift_div_l; [done|]. lra.
    - apply Qle_shift_div_r; [done|]. lra.
    - intros [?|?]; done.
    - intros <- _. rewrite E1 in E2. injection E2 as <-.
      assert (k = m) as ->.
      { unfold k, m. rewrite shared_words_self by done. lia. }
      field. lra. }
  destruct Hs2 as (c & Hc & ? & ? & ? & ?).
  exists g, c, t. split_and!; [|done..].
  unfold t. destruct (bool_decide _).
  - apply is_val_nadd; [done|apply is_val_Fin].
  - eapply is_val_eq; [done|ring].
Qed.

(** X11: the similarity score is symmetric, finite and between 0
    and 1.8; the score of a node with itself is 1.8 when the node has a
    context and 0.8 when it has none; when the first node has no context
    the score is at most 0.8. *)
Theorem calculateNodeSimilarity_symmetric (node1 node2 : Node num) :
  calculateNodeSimilarity node1 node2 = calculateNodeSimilarity node2 node1
  ∧ (∃ q, calculateNodeSimilarity node1 node2 = Fin q ∧ (0 <= q)%Q ∧ (q <= 9 # 5)%Q)
  ∧ (∃ q, calculateNodeSimilarity node1 node1 = Fin q
          ∧ (q == if context node1 is Some _ then (9 # 5)%Q else (4 # 5)%Q)%Q)
  ∧ (context node1 = None → ∃ q, calculateNodeSimilarity node1 node2 = Fin q
                                  ∧ (q <= 4 # 5)%Q).
Proof.
  split_and!.
  - unfold calculateNodeSimilarity. cbv zeta.
    rewrite (Z.eqb_sym (group node2) (group node1)).
    rewrite (bool_decide_ext (ntype node2 = ntype node1) (ntype node1 = ntype node2))
      by (split; congruence).
    destruct (context node1) as [c1|], (context node2) as [c2|]; try done.
    rewrite (shared_words_length (context_words c1) (context_words c2))
      by apply context_words_NoDup.
    by rewrite (Nat.max_comm (length (context_words c2))).
  - destruct (calculateNodeSimilarity_parts node1 node2)
      as (g & c & t & (q & Hq & Hv) & -> & -> & ? & ? & _).
    exists q. split; [done|]. rewrite Hv.
    destruct (_ =? _)%Z, (bool_decide _); split; lra.
  - destruct (calculateNodeSimilarity_parts node1 node1)
      as (g & c & t & (q & Hq & Hv) & -> & -> & ? & ? & Hnone & Hsome).
    exists q. split; [done|]. rewrite Hv, Z.eqb_refl, bool_decide_eq_true_2 by done.
    destruct (context node1) as [c1|].
    + rewrite (Hsome eq_refl) by done. done.
    + rewrite Hnone by (by left). done.
  - intros Hctx. destruct (calculateNodeSimilarity_parts node1 node2)
      as (g & c & t & (q & Hq & Hv) & -> & -> & ? & ? & Hnone & _).
    exists q. split; [done|]. rewrite Hv, Hnone by (by left).
    destruct (_ =? _)%Z, (bool_decide _); lra.
Qed.

(** ** The rescaling of the link weights *)

Lemma lookup_map {A B : Type} (f : A → B) (l : list A) i :
  List.map f l !! i = f <$> l !! i.
Proof.
  revert i. induction l as [|x l IH]; intros [|i]; simpl; try done.
Qed.



(** ** The size of a node *)

Lemma calculateCentrality_lookup (ns : list (Node num)) (ls : list (Link num)) i n :
  ns !! i = Some n →
  ∃ n', calculateCentrality ns ls !! i = Some n'
    ∧ id n' = id n ∧ group n' = group n ∧ ntype n' = ntype n ∧ context n' = context n
    ∧ ∃ x, pageRank n' = Some x
           ∧ size n' = Some (nadd (nofZ 5) (nmul x (nofZ 25))).
Proof.
  intros Hi. unfold calculateCentrality. cbv zeta. rewrite lookup_map, Hi. csimpl.
  eexists. split; [done|]. cbn [id group ntype context pageRank size]. eauto 10.
Qed.

(** X13: for a non-empty list of nodes with distinct ids and links
    with finite non-negative values, [calculateCentrality] keeps the nodes
    in place with their id, group, type and context, and gives each a size
    of 5 + 25 times its importance [pageRank]; the sizes lie in (5, 30],
    and some node has size 30. *)
Theorem calculateCentrality_sizes (ns : list (Node num)) (ls : list (Link num)) :
  ns ≠ [] → NoDup (id <$> ns) →
  (∀ l, l ∈ ls → ∃ w, value l = Fin w ∧ (0 <= w)%Q) →
  length (calculateCentrality ns ls) = length ns
  ∧ (∀ i n, ns !! i = Some n →
       ∃ n' p s, calculateCentrality ns ls !! i = Some n'
         ∧ id n' = id n ∧ group n' = group n ∧ ntype n' = ntype n
         ∧ context n' = context n
         ∧ pageRank n' = Some (Fin p) ∧ size n' = Some (Fin s)
         ∧ (s == 5 + 25 * p)%Q ∧ (5 < s)%Q ∧ (s <= 30)%Q)
  ∧ (∃ n', n' ∈ calculateCentrality ns ls ∧ size n' = Some (Fin 30)).
Proof.
  intros Hne Hnd Hw.
  destruct (calculateCentrality_normalized ns ls Hne Hnd Hw) as [Hall (nmax & Hin & Hmax)].
  split_and!.
  - unfold calculateCentrality. cbv zeta. apply length_map.
  - intros i n Hi.
    destruct (calculateCentrality_lookup ns ls i n Hi)
      as (n' & Hn' & ? & ? & ? & ? & x & Hx & Hs).
    destruct (Hall n') as (p & Hp & ? & ?); [by eapply list_elem_of_lookup_2|].
    rewrite Hx in Hp. injection Hp as ->.
    eexists n', p, _. split_and!; [done..|exact Hs| | |].
    + rewrite !Qred_correct. change (inject_Z 5) with 5%Q. change (inject_Z 25) with 25%Q.
      ring.
    + rewrite !Qred_correct. change (inject_Z 5) with 5%Q. change (inject_Z 25) with 25%Q.
      lra.
    + rewrite !Qred_correct. change (inject_Z 5) with 5%Q. change (inject_Z 25) with 25%Q.
      lra.
  - exists nmax. split; [done|].
    apply list_elem_of_lookup in Hin as [i Hi].
    assert (∃ n, ns !! i = Some n) as [n Hn].
    { apply lookup_lt_is_Some. apply lookup_lt_Some in Hi.
      unfold calculateCentrality in Hi. cbv zeta in Hi. by rewrite length_map in Hi. }
    destruct (calculateCentrality_lookup ns ls i n Hn)
      as (n' & Hn' & _ & _ & _ & _ & x & Hx & Hs).
    rewrite Hi in Hn'. injection Hn' as <-. rewrite Hmax in Hx. injection Hx as <-.
    rewrite Hs. done.
Qed.

Lemma calculateCentrality_sizes_witness :
  length (calculateCentrality scenario_nodes scenario_links) = length scenario_nodes
  ∧ (∀ i n, scenario_nodes !! i = Some n →
       ∃ n' p s, calculateCentrality scenario_nodes scenario_links !! i = Some n'
         ∧ id n' = id n ∧ group n' = group n ∧ ntype n' = ntype n
         ∧ context n' = context n
         ∧ pageRank n' = Some (Fin p) ∧ size n' = Some (Fin s)
         ∧ (s == 5 + 25 * p)%Q ∧ (5 < s)%Q ∧ (s <= 30)%Q)
  ∧ (∃ n', n' ∈ calculateCentrality scenario_nodes scenario_links
           ∧ size n' = Some (Fin 30)).
Proof.
  apply (calculateCentrality_sizes scenario_nodes scenario_links).
  - done.
  - apply (bool_decide_unpack _). by vm_compute.
  - intros l Hl. unfold scenario_links in Hl.
    repeat (apply elem_of_cons in Hl as [->|Hl]); [| |by apply elem_of_nil in Hl];
      (exists 1%Q; split; [done|lra]).
Defined.

(** ** The relationships found in the sentences *)

Lemma elem_of_index_pairs {A : Type} (xs : list A) a b :
  (a, b) ∈ index_pairs xs →
  ∃ i j, i < j ∧ xs !! i = Some a ∧ xs !! j = Some b.
Proof.
  induction xs as [|x r IH]; simpl; [by intros ?%elem_of_nil|].
  intros [H|H]%elem_of_app.
  - apply list_elem_of_In, in_map_iff in H as (y & [= -> ->] & Hy).
    apply list_elem_of_In, list_elem_of_lookup in Hy as [j Hj].
    exists 0, (S j). split_and!; [lia|done..].
  - destruct (IH H) as (i & j & ? & ? & ?). exists (S i), (S j). split_and!; [lia|done..].
Qed.

Lemma matchPatterns_inner sentence (t : string) ps st :
  (foldl (λ st pattern, if includes (toLowerCase sentence) (toLowerCase pattern)
                        then (Some t, 2%Z) else st) st ps = st
   ∧ ∀ p, p ∈ ps → includes (toLowerCase sentence) (toLowerCase p) = false)
  ∨ (∃ p, p ∈ ps ∧ includes (toLowerCase sentence) (toLowerCase p) = true
       ∧ foldl (λ st pattern, if includes (toLowerCase sentence) (toLowerCase pattern)
                              then (Some t, 2%Z) else st) st ps = (Some t, 2%Z)).
Proof.
  revert st. induction ps as [|p ps IH]; intros st; cbn [foldl].
  { left. split; [done|]. by intros ? ?%elem_of_nil. }
  destruct (includes _ (toLowerCase p)) eqn:E.
  - right. destruct (IH (Some t, 2%Z)) as [[-> _]|(p' & ? & ? & ->)].
    + exists p. split_and!; [by left|done..].
    + exists p'. split_and!; [by right|done..].
  - destruct (IH st) as [[-> Hall]|(p' & ? & ? & ->)].
    + left. split; [done|]. intros q [->|?]%elem_of_cons; eauto.
    + right. exists p'. split_and!; [by right|done..].
Qed.

(** No pattern occurs and the result is [(undefined, 1)], or a pattern
    occurs and the result is [(type, 2)] for the type of one that does. *)
Lemma matchPatterns_spec patterns sentence :
  (matchPatterns patterns sentence = (None, 1%Z)
   ∧ ∀ tp p, tp ∈ patterns → p ∈ tp.2 →
       includes (toLowerCase sentence) (toLowerCase p) = false)
  ∨ (∃ tp p, tp ∈ patterns ∧ p ∈ tp.2
       ∧ includes (toLowerCase sentence) (toLowerCase p) = true
       ∧ matchPatterns patterns sentence = (Some tp.1, 2%Z)).
Proof.
  unfold matchPatterns. generalize (None : option string, 1%Z).
  induction patterns as [|tp tps IH]; intros st; cbn [foldl].
  { left. split; [done|]. by intros ? ? ?%elem_of_nil. }
  destruct (matchPatterns_inner sentence tp.1 tp.2 st) as [[-> Hnone]|(p & Hp & Hinc & ->)].
  - destruct (IH st) as [[-> Hall]|(tp' & p' & ? & ? & ? & ->)].
    + left. split; [done|]. intros tq q [->|?]%elem_of_cons ?; eauto.
    + right. exists tp', p'. split_and!; [by right|done..].
  - destruct (IH (Some tp.1, 2%Z)) as [[-> _]|(tp' & p' & ? & ? & ? & ->)].
    + right. exists tp, p. split_and!; [by left|done..].
    + right. exists tp', p'. split_and!; [by right|done..].
Qed.

Lemma elem_of_findRelationships {N : Type} `{JsNumber N} sentences
    (entities : list (Node N)) l :
  l ∈ findRelationships sentences entities
  ↔ ∃ sentence, sentence ∈ sentences ∧ l ∈ sentenceRelationships entities sentence.
Proof.
  unfold findRelationships.
  assert (Hgen : ∀ acc, l ∈ foldl (λ rs s, rs ++ sentenceRelationships entities s) acc sentences
            ↔ l ∈ acc ∨ ∃ sentence, sentence ∈ sentences
                          ∧ l ∈ sentenceRelationships entities sentence).
  { induction sentences as [|s ss IH]; intros acc; cbn [foldl].
    { split; [eauto|]. intros [?|(? & []%elem_of_nil & _)]. done. }
    rewrite IH, elem_of_app. split.
    - intros [[?|?]|(s' & ? & ?)]; eauto.
      + right. exists s. split; [by left|done].
      + right. exists s'. split; [by right|done].
    - intros [?|(s' & [->|?]%elem_of_cons & ?)]; eauto. }
  rewrite Hgen. split; [intros [[]%elem_of_nil|]; done|eauto].
Qed.

Lemma elem_of_sentenceRelationships {N : Type} `{JsNumber N}
    (entities : list (Node N)) sentence l :
  l ∈ sentenceRelationships entities sentence →
  ∃ i j a b, i < j ∧ entities !! i = Some a ∧ entities !! j = Some b
    ∧ includes (toLowerCase sentence) (toLowerCase (id a)) = true
    ∧ includes (toLowerCase sentence) (toLowerCase (id b)) = true
    ∧ l = mkLink (EndId (id a)) (EndId (id b))
            (jofZ (matchPatterns relationshipPatterns sentence).2)
            (matchPatterns relationshipPatterns sentence).1 (Some sentence) None None.
Proof.
  unfold sentenceRelationships. cbv zeta.
  intros ([a b] & <- & Hab)%list_elem_of_In%in_map_iff.
  apply list_elem_of_In, elem_of_index_pairs in Hab as (i & j & Hij & Hi & Hj).
  assert (Hsub : ∀ (P : Node N → bool) xs i j x y, i < j →
            List.filter P xs !! i = Some x → List.filter P xs !! j = Some y →
            ∃ i' j', i' < j' ∧ xs !! i' = Some x ∧ xs !! j' = Some y
                     ∧ P x = true ∧ P y = true).
  { clear. intros P xs. induction xs as [|z xs IH]; intros i j x y Hij Hi Hj; [done|].
    simpl in Hi, Hj. destruct (P z) eqn:E.
    - destruct j as [|j]; [lia|]. simpl in Hj. destruct i as [|i]; simpl in Hi.
      + injection Hi as ->.
        assert (y ∈ List.filter P xs) as [Hy HPy]%elem_of_list_filter_bool
          by by eapply list_elem_of_lookup_2.
        apply list_elem_of_lookup in Hy as [j' Hj'].
        exists 0, (S j'). split_and!; [lia|done..].
      + destruct (IH i j x y) as (i' & j' & ? & ? & ? & ? & ?); [lia|done..|].
        exists (S i'), (S j'). split_and!; [lia|done..].
    - destruct (IH i j x y) as (i' & j' & ? & ? & ? & ? & ?); [done..|].
      exists (S i'), (S j'). split_and!; [lia|done..]. }
  destruct (Hsub _ _ _ _ _ _ Hij Hi Hj) as (i' & j' & ? & ? & ? & ? & ?).
  exists i', j', a, b. split_and!; done.
Qed.

(** X14: every link that [findRelationships] builds joins the ids of two
    entities, the first earlier in the list than the second, both found in
    one sentence (compared in lower case), and has that sentence as its
    context; its value is 2 and its type the name of a relationship
    pattern found in the sentence, or its value is 1 and it has no type
    when no pattern is found; when the ids are distinct no link is a
    self-link; the ends of the links are ids of entities, so the repair
    and the analysis return on them. *)
Theorem findRelationships_spec (sentences : list string) (entities : list (Node num)) :
  links_reference_nodes entities (findRelationships sentences entities)
  ∧ (∀ l, l ∈ findRelationships sentences entities →
       ∃ sentence i j a b, sentence ∈ sentences ∧ i < j
         ∧ entities !! i = Some a ∧ entities !! j = Some b
         ∧ source l = EndId (id a) ∧ target l = EndId (id b)
         ∧ lcontext l = Some sentence
         ∧ includes (toLowerCase sentence) (toLowerCase (id a)) = true
         ∧ includes (toLowerCase sentence) (toLowerCase (id b)) = true
         ∧ ((ltype l = None ∧ value l = Fin 1
             ∧ ∀ tp p, tp ∈ relationshipPatterns → p ∈ tp.2 →
                 includes (toLowerCase sentence) (toLowerCase p) = false)
            ∨ (value l = Fin 2
               ∧ ∃ tp p, tp ∈ relationshipPatterns ∧ p ∈ tp.2
                   ∧ includes (toLowerCase sentence) (toLowerCase p) = true
                   ∧ ltype l = Some tp.1)))
  ∧ (NoDup (id <$> entities) →
     ∀ l, l ∈ findRelationships sentences entities → sourceId l ≠ targetId l)
  ∧ (∃ g out, connectIsolatedNodes entities (findRelationships sentences entities) = Ok g
              ∧ analyzeGraph g = Ok out).
Proof.
  assert (Helem : ∀ l, l ∈ findRelationships sentences entities →
       ∃ sentence i j a b, sentence ∈ sentences ∧ i < j
         ∧ entities !! i = Some a ∧ entities !! j = Some b
         ∧ includes (toLowerCase sentence) (toLowerCase (id a)) = true
         ∧ includes (toLowerCase sentence) (toLowerCase (id b)) = true
         ∧ l = mkLink (EndId (id a)) (EndId (id b))
                 (jofZ (matchPatterns relationshipPatterns sentence).2)
                 (matchPatterns relationshipPatterns sentence).1 (Some sentence) None None).
  { intros l (s & Hs & Hl)%elem_of_findRelationships.
    apply elem_of_sentenceRelationships in Hl as (i & j & a & b & ?).
    exists s, i, j, a, b. naive_solver. }
  assert (Href : links_reference_nodes entities (findRelationships sentences entities)).
  { intros l (s & i & j & a & b & _ & _ & Ha & Hb & _ & _ & ->)%Helem.
    unfold sourceId, targetId. cbn [source target end_id].
    split; apply list_elem_of_fmap; eexists; (split; [done|]);
      by eapply list_elem_of_lookup_2. }
  split_and!; [done| | |].
  - intros l (s & i & j & a & b & ? & ? & ? & ? & ? & ? & ->)%Helem.
    exists s, i, j, a, b. cbn [source target lcontext ltype value].
    split_and!; [done..|].
    destruct (matchPatterns_spec relationshipPatterns s)
      as [[-> Hnone]|(tp & p & ? & ? & ? & ->)]; cbn [fst snd].
    + left. done.
    + right. split; [done|]. exists tp, p. done.
  - intros Hnd l (s & i & j & a & b & _ & Hij & Ha & Hb & _ & _ & ->)%Helem.
    unfold sourceId, targetId. cbn [source target end_id]. intros Heq.
    assert (i = j); [|lia].
    eapply NoDup_lookup; [exact Hnd|..]; rewrite list_lookup_fmap.
    + by rewrite Ha.
    + rewrite Hb. simpl. by rewrite Heq.
  - destruct (repair_connected entities _ Href) as (added & Hout & Href' & _).
    destruct (detectCommunities_spec _ _ Href') as (k & V & M & Hrun & _).
    eexists _, _. split; [exact Hout|].
    by apply (analyzeGraph_eq (mkGraph entities _)).
Qed.

(** ** The merge of the matches *)

Lemma same_entity_true {N : Type} (current e : Node N) :
  same_entity current e = true ↔ entityKey e = entityKey current.
Proof. unfold same_entity, entityKey. apply String.eqb_eq. Qed.

Lemma set_existing_context_keys {N : Type} (current : Node N) acc :
  entityKey <$> set_existing_context current acc = entityKey <$> acc.
Proof.
  induction acc as [|e r IH]; csimpl; [done|].
  destruct (same_entity current e); csimpl; [done|]. by rewrite IH.
Qed.

Lemma elem_of_set_existing_context {N : Type} (current : Node N) acc r :
  NoDup (entityKey <$> acc) →
  r ∈ set_existing_context current acc ↔
    (r ∈ acc ∧ entityKey r ≠ entityKey current)
    ∨ (∃ e, e ∈ acc ∧ entityKey e = entityKey current
          ∧ r = mkNode (id e) (group e) (ntype e) (context current) (size e) (pageRank e)).
Proof.
  induction acc as [|e acc IH]; csimpl.
  { intros _. split; [by intros ?%elem_of_nil|].
    intros [[?%elem_of_nil _]|(? & ?%elem_of_nil & _)]; done. }
  intros [Hne Hnd]%NoDup_cons.
  destruct (same_entity current e) eqn:E.
  - apply same_entity_true in E. setoid_rewrite elem_of_cons. split.
    + intros [->|Hr].
      * right. exists e. split_and!; [by left|done..].
      * left. split; [by right|]. intros Heq. apply Hne. rewrite E, <-Heq.
        apply list_elem_of_fmap. eauto.
    + intros [[[->|?] Hk]|(e' & [->|He'] & Hk & ->)]; [done|by right|by left|].
      exfalso. apply Hne. rewrite E, <-Hk. apply list_elem_of_fmap. eauto.
  - assert (entityKey e ≠ entityKey current) as Hk.
    { intros Hk%same_entity_true. congruence. }
    setoid_rewrite elem_of_cons. rewrite (IH Hnd). split.
    + intros [->|[[? ?]|(e' & ? & ? & ->)]].
      * left. split; [by left|done].
      * left. split; [by right|done].
      * right. exists e'. split_and!; [by right|done..].
    + intros [[[->|?] ?]|(e' & [->|?] & ? & ->)]; [by left|right; left; done|done|].
      right. right. exists e'. done.
Qed.

Lemma merged_nil {N : Type} : merged (N:=N) [] [].
Proof.
  split; csimpl.
  - constructor.
  - by intros ? ?%elem_of_nil.
  - by intros ? ?%elem_of_nil.
Qed.

Lemma merged_from_snoc {N : Type} (es : list (Node N)) (x r : Node N) pre e post e' :
  es = pre ++ e :: post → e' ∈ es →
  es ++ [x] = pre ++ e :: (post ++ [x]) ∧ e' ∈ es ++ [x].
Proof.
  intros -> ?. split; [by rewrite <-app_assoc|]. apply elem_of_app. by left.
Qed.

Lemma mergeEntity_merged {N : Type} (es R : list (Node N)) (current : Node N) :
  merged es R → merged (es ++ [current]) (mergeEntity R current).
Proof.
  intros [Hkeys Hcov Hfrom]. unfold mergeEntity.
  assert (Hold : ∀ r, r ∈ R →
    ∃ pre e post e', es ++ [current] = pre ++ e :: post
      ∧ (∀ x, x ∈ pre → entityKey x ≠ entityKey r)
      ∧ id r = id e ∧ group r = group e ∧ ntype r = ntype e
      ∧ e' ∈ es ++ [current] ∧ entityKey e' = entityKey r ∧ context r = context e').
  { intros r Hr. destruct (Hfrom r Hr) as (pre & e & post & e' & Hes & ? & ? & ? & ? & He' & ?).
    destruct (merged_from_snoc es current r pre e post e' Hes He') as [? ?].
    exists pre, e, (post ++ [current]), e'. done. }
  destruct (List.find (same_entity current) R) as [existing|] eqn:Efind.
  - apply find_some in Efind as [Hin%list_elem_of_In Hsame%same_entity_true].
    assert (Hkeep : context_length current ≤ context_length existing →
                    merged (es ++ [current]) R).
    { intros Hle. split; [done| |done].
      intros e [He| ->%list_elem_of_singleton]%elem_of_app; [by apply Hcov|].
      exists existing. split_and!; done. }
    destruct (context current) as [c|] eqn:Ec.
    2:{ apply Hkeep. unfold context_length at 1. rewrite Ec. lia. }
    destruct (Nat.ltb_spec (context_length existing) (length c)) as [Hlt|Hge].
    2:{ apply Hkeep. unfold context_length at 1. by rewrite Ec. }
    assert (Hclen : context_length current = length c)
      by (unfold context_length; by rewrite Ec).
    split.
    + by rewrite set_existing_context_keys.
    + intros e [He| ->%list_elem_of_singleton]%elem_of_app.
      * destruct (Hcov e He) as (r & Hr & Hk & Hle).
        destruct (decide (entityKey r = entityKey current)) as [Hrk|Hrk].
        -- eexists. split; [apply elem_of_set_existing_context; [done|]; right;
                            exists existing; split_and!; done|].
           split; [unfold entityKey in *; cbn [id]; congruence|].
           assert (r = existing) as ->.
           { apply list_elem_of_lookup in Hr as [i Hi], Hin as [j Hj].
             assert (i = j) as ->; [|congruence].
             eapply NoDup_lookup; [exact Hkeys|..]; rewrite list_lookup_fmap.
             - by rewrite Hi.
             - rewrite Hj. simpl. congruence. }
           unfold context_length at 2. cbn [context]. rewrite Ec. lia.
        -- exists r. split; [|done]. apply elem_of_set_existing_context; [done|]. by left.
      * eexists. split; [apply elem_of_set_existing_context; [done|]; right;
                         exists existing; split_and!; done|].
        split; [unfold entityKey in *; cbn [id]; congruence|].
        unfold context_length at 2. cbn [context]. rewrite Ec. lia.
    + intros r Hr.
      apply (elem_of_set_existing_context current R r Hkeys) in Hr
        as [[Hr Hk]|(e & He & Hk & ->)].
      * by apply Hold.
      * destruct (Hold e He) as (pre & e0 & post & e' & ? & ? & ? & ? & ? & _).
        exists pre, e0, post, current. unfold entityKey in *. cbn [id group ntype context].
        split_and!; try done. apply elem_of_app. right. by left.
  - assert (Hnot : ∀ r, r ∈ R → entityKey r ≠ entityKey current).
    { intros r Hr Hk. eapply find_none in Efind; [|by apply list_elem_of_In].
      apply same_entity_true in Hk. congruence. }
    split.
    + rewrite fmap_app. apply NoDup_app. split_and!; [done| |apply NoDup_singleton].
      intros k (r & -> & Hr)%list_elem_of_fmap Hk%list_elem_of_singleton.
      by eapply Hnot.
    + intros e [He| ->%list_elem_of_singleton]%elem_of_app.
      * destruct (Hcov e He) as (r & ? & ? & ?). exists r. split; [|done].
        apply elem_of_app. by left.
      * exists current. split; [|done]. apply elem_of_app. right. by left.
    + intros r [Hr| ->%list_elem_of_singleton]%elem_of_app; [by apply Hold|].
      exists es, current, [], current. split_and!; try done.
      * intros x Hx Hk. destruct (Hcov x Hx) as (r & Hr & Hrk & _).
        apply (Hnot r Hr). congruence.
      * apply elem_of_app. right. by left.
Qed.

Lemma mergeEntities_merged {N : Type} (es : list (Node N)) : merged es (mergeEntities es).
Proof.
  unfold mergeEntities. induction es as [|e es IH] using rev_ind; [apply merged_nil|].
  rewrite foldl_app. cbn [foldl]. by apply mergeEntity_merged.
Qed.

Lemma NoDup_fmap_key {N : Type} (R : list (Node N)) :
  NoDup (entityKey <$> R) → NoDup (id <$> R).
Proof.
  intros H. apply (NoDup_fmap_1 toLowerCase). rewrite <-list_fmap_compose. exact H.
Qed.

(** X15: the merge at the end of [findMedicalEntities] returns at most as
    many entities as it is given, with ids that are distinct even when
    compared in lower case; every match is represented by a merged entity
    of the same lower-cased id whose context is at least as long; every
    merged entity has the id, group and type of the first match of its
    lower-cased id, and the context of some match of that id. *)
Theorem mergeEntities_spec {N : Type} (entities : list (Node N)) :
  NoDup (toLowerCase <$> (id <$> mergeEntities entities))
  ∧ NoDup (id <$> mergeEntities entities)
  ∧ length (mergeEntities entities) ≤ length entities
  ∧ (∀ e, e ∈ entities →
       ∃ r, r ∈ mergeEntities entities
         ∧ toLowerCase (id r) = toLowerCase (id e)
         ∧ context_length e ≤ context_length r)
  ∧ (∀ r, r ∈ mergeEntities entities →
       ∃ pre e post e', entities = pre ++ e :: post
         ∧ (∀ x, x ∈ pre → toLowerCase (id x) ≠ toLowerCase (id r))
         ∧ id r = id e ∧ group r = group e ∧ ntype r = ntype e
         ∧ e' ∈ entities ∧ toLowerCase (id e') = toLowerCase (id r)
         ∧ context r = context e').
Proof.
  destruct (mergeEntities_merged entities) as [Hkeys Hcov Hfrom].
  split_and!.
  - rewrite <-list_fmap_compose. exact Hkeys.
  - by apply NoDup_fmap_key.
  - rewrite <-(length_fmap entityKey (mergeEntities entities)),
      <-(length_fmap entityKey entities).
    apply submseteq_length, NoDup_submseteq; [done|].
    intros k (r & -> & Hr)%list_elem_of_fmap.
    destruct (Hfrom r Hr) as (_ & _ & _ & e' & _ & _ & _ & _ & _ & He' & Hk & _).
    rewrite <-Hk. apply list_elem_of_fmap. eauto.
  - exact Hcov.
  - exact Hfrom.
Qed.

(** ** Parallel links: the curvatures mirror each other *)

Lemma Qsum_app (l1 l2 : list Q) : (Qsum (l1 ++ l2) == Qsum l1 + Qsum l2)%Q.
Proof. induction l1 as [|x l1 IH]; simpl; [lra|]. rewrite IH. ring. Qed.

Lemma Qsum_positions {A : Type} (f : A → Q) (g : nat → Q) (l : list A) :
  (∀ j x, l !! j = Some x → (f x == g j)%Q) →
  (Qsum (f <$> l) == Qsum (g <$> seq 0 (length l)))%Q.
Proof.
  induction l as [|x l IH] using rev_ind; intros Hfg; [done|].
  rewrite fmap_app, length_app, Nat.add_1_r, seq_S, fmap_app, !Qsum_app. csimpl.
  rewrite IH.
  - rewrite (Hfg (length l) x); [done|]. by rewrite lookup_app_r, Nat.sub_diag.
  - intros j y Hj. apply Hfg. by apply lookup_app_l_Some.
Qed.

Lemma Qsum_seq (n : nat) :
  (Qsum ((λ j, inject_Z (Z.of_nat j)) <$> seq 0 n)
   == inject_Z (Z.of_nat n) * (inject_Z (Z.of_nat n) - 1) / 2)%Q.
Proof.
  induction n as [|n IH]; [done|].
  rewrite seq_S, fmap_app, Qsum_app, IH. csimpl.
  rewrite Nat2Z.inj_succ. unfold Z.succ. rewrite inject_Z_plus.
  change (inject_Z 1) with 1%Q. field.
Qed.

Lemma Qsum_fan (k : nat) : (Qsum ((λ j, fan j k) <$> seq 0 k) == 0)%Q.
Proof.
  unfold fan.
  rewrite (Qsum_scale (1 # 2)
             (λ j, inject_Z (Z.of_nat j) - (inject_Z (Z.of_nat k) - 1) / 2)%Q).
  assert (Hsub : ∀ a b : Q, (a - b == a + (- b))%Q) by (intros; ring).
  rewrite (Qsum_ext _ (λ j, inject_Z (Z.of_nat j) + - ((inject_Z (Z.of_nat k) - 1) / 2))%Q)
    by (intros; apply Hsub).
  rewrite (Qsum_plus (λ j, inject_Z (Z.of_nat j))
             (λ _, - ((inject_Z (Z.of_nat k) - 1) / 2))%Q).
  rewrite Qsum_seq, Qsum_const, length_seq. field.
Qed.

(** The curvature of the link at place [j] among the links of its pair. *)
Lemma calculateLinkCurvature_at (link : Ref (Link num)) allLinks j l' :
  NoDup (addr <$> allLinks) → link ∈ allLinks →
  sourceId (obj link) ≠ targetId (obj link) →
  parallelLinks link allLinks !! j = Some l' →
  ∃ q, calculateLinkCurvature l' allLinks = Fin q
       ∧ (q == fan j (length (parallelLinks link allLinks)))%Q.
Proof.
  intros Hnd Hin Hne Hj.
  assert (Hl' : l' ∈ parallelLinks link allLinks) by by eapply list_elem_of_lookup_2.
  pose proof Hl' as [Hin' Hpar]%elem_of_list_filter_bool.
  apply is_parallel_true in Hpar.
  assert (Hpair : same_pair l' link) by (unfold same_pair; tauto).
  assert (Hne' : sourceId (obj l') ≠ targetId (obj l')).
  { destruct Hpar as [[-> ->]|[-> ->]]; congruence. }
  pose proof (parallelLinks_same_pair l' link allLinks Hpair) as HP.
  destruct (decide (length (parallelLinks link allLinks) = 1)) as [Hone|Hmany].
  - exists 0%Q. split.
    + unfold calculateLinkCurvature. cbv zeta. fold (parallelLinks l' allLinks).
      rewrite (proj2 (String.eqb_neq _ _)) by done. by rewrite HP, Hone.
    + rewrite Hone. apply lookup_lt_Some in Hj. assert (j = 0) as -> by lia. done.
  - destruct (calculateLinkCurvature_fan l' allLinks) as (i & q & Hi & Hq & Hqi);
      [done|done|done|by rewrite HP|].
    rewrite HP in Hi, Hqi. exists q. split; [done|].
    assert (i = j) as <-; [|done].
    assert (HndP : NoDup (addr <$> parallelLinks link allLinks))
      by (unfold parallelLinks; by apply filter_addr_NoDup).
    eapply NoDup_lookup; [exact HndP|..]; rewrite list_lookup_fmap.
    + by rewrite Hi.
    + by rewrite Hj.
Qed.

(** X16: among the links that join the two ends of a link that is
    not a self-link, taken in the order of the list, the curvatures of the
    links at the places i and k-1-i add up to 0, the curvatures add up to
    0 over the k links, and the curvatures at the places i and j differ by
    (j - i) / 2; [enrichLinksWithCurvature] gives -0.5, 0 and 0.5 to three
    links X-Y, Y-X, X-Y. *)
Theorem parallel_curvatures_mirror :
  (∀ (allLinks : list (Ref (Link num))) (link : Ref (Link num)),
     NoDup (addr <$> allLinks) → link ∈ allLinks →
     sourceId (obj link) ≠ targetId (obj link) →
     (∀ i j li lj,
        parallelLinks link allLinks !! i = Some li →
        parallelLinks link allLinks !! j = Some lj →
        i + j + 1 = length (parallelLinks link allLinks) →
        ∃ qi qj, calculateLinkCurvature li allLinks = Fin qi
                 ∧ calculateLinkCurvature lj allLinks = Fin qj
                 ∧ (qi + qj == 0)%Q)
     ∧ (Qsum ((λ l, num_value (calculateLinkCurvature l allLinks))
                <$> parallelLinks link allLinks) == 0)%Q
     ∧ (∀ i j li lj,
          parallelLinks link allLinks !! i = Some li →
          parallelLinks link allLinks !! j = Some lj →
          ∃ qi qj, calculateLinkCurvature li allLinks = Fin qi
                   ∧ calculateLinkCurvature lj allLinks = Fin qj
                   ∧ (qj - qi == (1 # 2) * (inject_Z (Z.of_nat j) - inject_Z (Z.of_nat i)))%Q))
  ∧ curvature <$> enrichLinksWithCurvature mixed_scenario
    = [Some (Fin (-1 # 2)); Some (Fin 0); Some (Fin (1 # 2))].
Proof.
  split; [|by vm_compute].
  intros allLinks link Hnd Hin Hne. split_and!.
  - intros i j li lj Hi Hj Hij.
    destruct (calculateLinkCurvature_at link allLinks i li Hnd Hin Hne Hi) as (qi & ? & Hqi).
    destruct (calculateLinkCurvature_at link allLinks j lj Hnd Hin Hne Hj) as (qj & ? & Hqj).
    exists qi, qj. split_and!; [done..|]. rewrite Hqi, Hqj, <-Hij. unfold fan.
    rewrite !Nat2Z.inj_add, !inject_Z_plus. change (inject_Z (Z.of_nat 1)) with 1%Q. field.
  - rewrite (Qsum_positions _ (λ j, fan j (length (parallelLinks link allLinks)))).
    + apply Qsum_fan.
    + intros j l' Hj.
      destruct (calculateLinkCurvature_at link allLinks j l' Hnd Hin Hne Hj) as (q & -> & Hq).
      done.
  - intros i j li lj Hi Hj.
    destruct (calculateLinkCurvature_at link allLinks i li Hnd Hin Hne Hi) as (qi & ? & Hqi).
    destruct (calculateLinkCurvature_at link allLinks j lj Hnd Hin Hne Hj) as (qj & ? & Hqj).
    exists qi, qj. split_and!; [done..|]. rewrite Hqi, Hqj. unfold fan. field.
Qed.

Lemma parallel_curvatures_mirror_witness :
  (∀ i j li lj,
     parallelLinks (mkRef 1 (scenario_link "X" "Y")) curvature_scenario !! i = Some li →
     parallelLinks (mkRef 1 (scenario_link "X" "Y")) curvature_scenario !! j = Some lj →
     i + j + 1 = length (parallelLinks (mkRef 1 (scenario_link "X" "Y")) curvature_scenario) →
     ∃ qi qj, calculateLinkCurvature li curvature_scenario = Fin qi
              ∧ calculateLinkCurvature lj curvature_scenario = Fin qj
              ∧ (qi + qj == 0)%Q)
  ∧ (Qsum ((λ l, num_value (calculateLinkCurvature l curvature_scenario))
             <$> parallelLinks (mkRef 1 (scenario_link "X" "Y")) curvature_scenario) == 0)%Q
  ∧ (∀ i j li lj,
       parallelLinks (mkRef 1 (scenario_link "X" "Y")) curvature_scenario !! i = Some li →
       parallelLinks (mkRef 1 (scenario_link "X" "Y")) curvature_scenario !! j = Some lj →
       ∃ qi qj, calculateLinkCurvature li curvature_scenario = Fin qi
                ∧ calculateLinkCurvature lj curvature_scenario = Fin qj
                ∧ (qj - qi == (1 # 2) * (inject_Z (Z.of_nat j) - inject_Z (Z.of_nat i)))%Q).
Proof.
  apply (proj1 parallel_curvatures_mirror curvature_scenario
           (mkRef 1 (scenario_link "X" "Y"))).
  - apply (bool_decide_unpack _). by vm_compute.
  - unfold curvature_scenario. apply elem_of_cons. right. by left.
  - apply (bool_decide_unpack _). by vm_compute.
Defined.

(** ** The tree layout *)

Lemma treeWalk_nil {St : Type} (visit : string → nat → St → St) fuel cm V s :
  treeWalk visit fuel cm (V, s, []) = Ok (V, s).
Proof. by destruct fuel. Qed.

Lemma treeWalk_cons {St : Type} (visit : string → nat → St → St) fuel cm V s c rest :
  treeWalk visit (S fuel) cm (V, s, c :: rest) =
  if js_set_has c.1 V then treeWalk visit fuel cm (V, s, rest)
  else treeWalk visit fuel cm
         (js_set_add c.1 V, visit c.1 c.2 s,
          rest ++ ((λ childId, (childId, S c.2)) <$> default [] (cm !! c.1))).
Proof. done. Qed.

Lemma pending_nil cm : pending cm [] = length (concat (snd <$> map_to_list cm)).
Proof. done. Qed.

Lemma pending_add cm V x :
  x ∉ V → pending cm (js_set_add x V) + length (default [] (cm !! x)) ≤ pending cm V.
Proof.
  intros Hx. unfold pending.
  assert (Hmono : ∀ L : list (string * list string),
    length (concat ((λ kv : string * list string,
                       if js_set_has kv.1 (js_set_add x V) then [] else kv.2) <$> L))
    ≤ length (concat ((λ kv : string * list string,
                         if js_set_has kv.1 V then [] else kv.2) <$> L))).
  { induction L as [|[k cs] L IH]; csimpl; [done|]. rewrite !length_app.
    destruct (js_set_has k V) eqn:E.
    - rewrite (proj2 (js_set_has_true k (js_set_add x V))); [simpl; lia|].
      apply elem_of_js_set_add. right. by apply js_set_has_true.
    - destruct (js_set_has k (js_set_add x V)); simpl; lia. }
  destruct (cm !! x) as [cs|] eqn:Ex; simpl; [|rewrite Nat.add_0_r; apply Hmono].
  apply elem_of_map_to_list in Ex. apply list_elem_of_split in Ex as (L1 & L2 & ->).
  rewrite !fmap_app, !concat_app, !length_app. csimpl. rewrite !length_app.
  rewrite (proj2 (js_set_has_false x V)) by done.
  rewrite (proj2 (js_set_has_true x (js_set_add x V)))
    by (apply elem_of_js_set_add; by left).
  pose proof (Hmono L1). pose proof (Hmono L2). simpl. lia.
Qed.

Lemma treeWalk_total {St : Type} (visit : string → nat → St → St) cm fuel st :
  length st.2 + pending cm st.1.1 ≤ fuel →
  ∃ r, treeWalk visit fuel cm st = Ok r.
Proof.
  revert st. induction fuel as [|fuel IH]; intros [[V s] Q] Hm; simpl in Hm.
  { destruct Q; [|simpl in Hm; lia]. rewrite treeWalk_nil. eauto. }
  destruct Q as [|c rest]; [rewrite treeWalk_nil; eauto|].
  rewrite treeWalk_cons. simpl in Hm. destruct (js_set_has c.1 V) eqn:E.
  - apply IH. simpl. lia.
  - apply js_set_has_false in E. apply IH. simpl.
    rewrite length_app, length_fmap. pose proof (pending_add cm V c.1 E). lia.
Qed.

(** An invariant of the walk holds when it ends. *)
Lemma treeWalk_inv {St : Type} (visit : string → nat → St → St) cm
    (I : list string * St * list (string * nat) → Prop) fuel st r :
  (∀ V s c rest, I (V, s, c :: rest) → c.1 ∈ V → I (V, s, rest)) →
  (∀ V s c rest, I (V, s, c :: rest) → c.1 ∉ V →
     I (js_set_add c.1 V, visit c.1 c.2 s,
        rest ++ ((λ childId, (childId, S c.2)) <$> default [] (cm !! c.1)))) →
  I st → treeWalk visit fuel cm st = Ok r → I (r.1, r.2, []).
Proof.
  intros Hskip Hvisit. revert st. induction fuel as [|fuel IH]; intros [[V s] Q] HI.
  { destruct Q; [|done]. rewrite treeWalk_nil. by intros [= <-]. }
  destruct Q as [|c rest]; [rewrite treeWalk_nil; by intros [= <-]|].
  rewrite treeWalk_cons. destruct (js_set_has c.1 V) eqn:E.
  - apply js_set_has_true in E. apply IH. by apply (Hskip V s c rest).
  - apply js_set_has_false in E. apply IH. by apply (Hvisit V s c rest).
Qed.

Lemma js_set_add_new x V : x ∉ V → js_set_add x V = V ++ [x].
Proof. intros Hx. unfold js_set_add. by rewrite (proj2 (js_set_has_false x V)). Qed.

Section tree_trace.
Variable cm : gmap string (list string).
Variable root : string.

Lemma trace_inv_init : trace_inv cm root ([], [], [(root, O)]).
Proof.
  split; simpl.
  - done.
  - apply NoDup_nil_2.
  - intros x L [= -> ->]%list_elem_of_singleton. apply nsteps_O.
  - intros v d c Hv. by apply elem_of_nil in Hv.
  - by left.
  - exists O, [(root, O)], []. split_and!; [done|by repeat constructor|done|done].
  - by left.
Qed.

Lemma trace_inv_skip V tr c rest :
  trace_inv cm root (V, tr, c :: rest) → c.1 ∈ V → trace_inv cm root (V, tr, rest).
Proof.
  intros [H1 H2 H3 H4 H5 H6 H7] Hc; simpl in *.
  assert (Hlow : ∃ L0, (c.1, L0) ∈ tr ∧ L0 ≤ c.2).
  { rewrite H1 in Hc. apply list_elem_of_fmap in Hc as ([x L0] & Hx & Hin). simpl in Hx.
    exists L0. rewrite Hx. split; [done|].
    destruct H6 as (k & Qa & Qb & HQ & Ha & Hb & Ht).
    rewrite Forall_forall in Ht. specialize (Ht _ Hin). simpl in Ht.
    destruct Qa as [|a Qa]; simpl in HQ.
    - destruct Qb as [|b Qb]; [done|]. injection HQ as <- _.
      apply Forall_cons in Hb as [Hb _]. lia.
    - injection HQ as <- _. apply Forall_cons in Ha as [Ha _]. lia. }
  destruct Hlow as (L0 & HL0 & Hle).
  split; simpl.
  - done.
  - done.
  - intros x L Hx. apply H3. rewrite elem_of_app in Hx |- *.
    destruct Hx as [?|?]; [by left|right; by right].
  - intros v d z Hv Hz. destruct (H4 v d z Hv Hz) as (e & He & Hed).
    rewrite elem_of_app, elem_of_cons in He. destruct He as [He|[He|He]].
    + exists e. split; [|done]. apply elem_of_app. by left.
    + exists L0. subst c. simpl in *. split; [|lia]. apply elem_of_app. by left.
    + exists e. split; [|done]. apply elem_of_app. by right.
  - rewrite elem_of_app, elem_of_cons in H5. destruct H5 as [H5|[H5|H5]].
    + apply elem_of_app. by left.
    + subst c. simpl in *. assert (L0 = O) as -> by lia. apply elem_of_app. by left.
    + apply elem_of_app. by right.
  - destruct H6 as (k & Qa & Qb & HQ & Ha & Hb & Ht).
    destruct Qa as [|a Qa]; simpl in HQ.
    + destruct Qb as [|b Qb]; [done|]. injection HQ as <- <-.
      apply Forall_cons in Hb as [_ Hb].
      exists (S k), rest, []. rewrite app_nil_r. split_and!; [done|done|done|].
      eapply Forall_impl; [exact Ht|]. simpl. lia.
    + injection HQ as <- ->. apply Forall_cons in Ha as [_ Ha].
      by exists k, Qa, Qb.
  - destruct H7 as [[-> _]|(tr' & -> & Ht & Hq)].
    + simpl in H1. subst V. by apply elem_of_nil in Hc.
    + right. exists tr'. apply Forall_cons in Hq as [_ Hq]. done.
Qed.

Lemma trace_inv_visit V tr c rest :
  trace_inv cm root (V, tr, c :: rest) → c.1 ∉ V →
  trace_inv cm root
    (js_set_add c.1 V, record_entry c.1 c.2 tr,
     rest ++ ((λ childId, (childId, S c.2)) <$> default [] (cm !! c.1))).
Proof.
  intros [H1 H2 H3 H4 H5 H6 H7] Hc; simpl in *.
  rewrite (js_set_add_new _ _ Hc). unfold record_entry.
  destruct c as [x d]; simpl in *.
  assert (Hxd : nsteps (child cm) d root x).
  { apply H3. apply elem_of_app. right. by left. }
  split; simpl.
  - by rewrite fmap_app, H1.
  - apply NoDup_app. split_and!; [done| |apply NoDup_singleton].
    by intros y Hy ->%list_elem_of_singleton.
  - intros y L. rewrite !elem_of_app, list_elem_of_singleton, list_elem_of_fmap.
    intros [[Hy|[= -> ->]]|[Hy|(z & [= -> ->] & Hz)]].
    + apply H3. apply elem_of_app. by left.
    + done.
    + apply H3. apply elem_of_app. right. by right.
    + eapply nsteps_r; [exact Hxd|]. exact Hz.
  - intros v e z. rewrite elem_of_app, list_elem_of_singleton.
    intros [Hv|[= -> ->]] Hz.
    + destruct (H4 v e z Hv Hz) as (e' & He' & Hle). exists e'. split; [|done].
      rewrite !elem_of_app, list_elem_of_singleton.
      rewrite elem_of_app, elem_of_cons in He'. destruct He' as [?|[?|?]]; auto.
    + exists (S d). split; [|done]. rewrite !elem_of_app. right. right.
      apply list_elem_of_fmap. by exists z.
  - rewrite !elem_of_app, list_elem_of_singleton.
    rewrite elem_of_app, elem_of_cons in H5. destruct H5 as [?|[?|?]]; auto.
  - destruct H6 as (k & Qa & Qb & HQ & Ha & Hb & Ht).
    assert (Hch : ∀ l : list string,
      Forall (λ e : string * nat, e.2 = S d) ((λ childId, (childId, S d)) <$> l)).
    { intros l. apply Forall_fmap. by apply Forall_forall. }
    destruct Qa as [|a Qa]; simpl in HQ.
    + destruct Qb as [|b Qb]; [done|]. injection HQ as <- <-.
      apply Forall_cons in Hb as [Hd Hb]. simpl in Hd. subst d.
      exists (S k), rest, ((λ childId, (childId, S (S k))) <$> default [] (cm !! x)).
      split_and!; [done|done|apply Hch|].
      apply Forall_app. split; [|by repeat constructor].
      eapply Forall_impl; [exact Ht|]. simpl. lia.
    + injection HQ as <- ->. apply Forall_cons in Ha as [Hd Ha]. simpl in Hd. subst d.
      exists k, Qa, (Qb ++ ((λ childId, (childId, S k)) <$> default [] (cm !! x))).
      split_and!; [by rewrite app_assoc|done| |].
      * apply Forall_app. split; [done|apply Hch].
      * apply Forall_app. split; [done|]. by repeat constructor.
  - right. assert (Hch : ∀ l : list string,
      Forall (λ e : string * nat, 1 ≤ e.2) ((λ childId, (childId, S d)) <$> l)).
    { intros l. apply Forall_fmap. apply Forall_forall. intros; simpl; lia. }
    destruct H7 as [[-> [= -> -> ->]]|(tr' & -> & Ht & Hq)].
    + exists []. split_and!; [done|done|apply Hch].
    + apply Forall_cons in Hq as [Hd Hq]. simpl in Hd.
      exists (tr' ++ [(x, d)]). split_and!; [done| |].
      * apply Forall_app. split; [done|]. by repeat constructor.
      * apply Forall_app. split; [done|apply Hch].
Qed.

Lemma treeTrace_spec :
  ∃ V tr, treeTrace (pathway_fuel cm) cm root = Ok (V, tr) ∧ bfs_order (child cm) root tr.
Proof.
  destruct (treeWalk_total record_entry cm (pathway_fuel cm) ([], [], [(root, O)]))
    as ([V tr] & Hr).
  { simpl. rewrite pending_nil. unfold pathway_fuel. lia. }
  exists V, tr. split; [done|].
  pose proof (treeWalk_inv record_entry cm (trace_inv cm root) _ _ _
    (λ V s c rest, trace_inv_skip V s c rest)
    (λ V s c rest, trace_inv_visit V s c rest) trace_inv_init Hr)
    as [H1 H2 H3 H4 H5 H6 H7]; simpl in *.
  rewrite app_nil_r in *.
  assert (Hmin : ∀ L' x, nsteps (child cm) L' root x → ∃ e, (x, e) ∈ tr ∧ e ≤ L').
  { induction L' as [|L' IH]; intros x Hx.
    - inversion Hx; subst. by exists O.
    - apply nsteps_inv_r in Hx as (y & Hy & Hyx).
      destruct (IH y Hy) as (e & He & Hle).
      destruct (H4 y e x He Hyx) as (e' & He' & Hle'). exists e'. split; [done|lia]. }
  split.
  - destruct H7 as [[_ ?]|(tr' & -> & Ht & _)]; [done|]. by exists tr'.
  - by rewrite <-H1.
  - intros x. split.
    + intros ([y L] & -> & Hin)%list_elem_of_fmap. simpl.
      eapply rtc_nsteps_2. by apply H3.
    + intros (L & HL)%rtc_nsteps_1. destruct (Hmin L x HL) as (e & He & _).
      apply list_elem_of_fmap. by exists (x, e).
  - intros x L Hin. split; [by apply H3|]. intros L' HL'.
    destruct (Hmin L' x HL') as (e & He & Hle).
    rewrite H1 in H2.
    assert (L = e); [|lia].
    apply list_elem_of_lookup in Hin as (i & Hi). apply list_elem_of_lookup in He as (j & Hj).
    assert (i = j) as ->.
    { eapply NoDup_lookup; [exact H2| |]; rewrite list_lookup_fmap.
      - by rewrite Hi.
      - by rewrite Hj. }
    congruence.
Qed.

(** Every walk visits the entries of the recording walk, in its order. *)
Lemma treeWalk_trace {St : Type} (visit : string → nat → St → St) fuel V s Q tr0 r :
  treeWalk record_entry fuel cm (V, tr0, Q) = Ok r →
  ∃ tr, r.2 = tr0 ++ tr
        ∧ treeWalk visit fuel cm (V, s, Q)
          = Ok (r.1, foldl (λ s (e : string * nat), visit e.1 e.2 s) s tr).
Proof.
  revert V s Q tr0. induction fuel as [|fuel IH]; intros V s Q tr0.
  { destruct Q; [|done]. rewrite !treeWalk_nil. intros [= <-]. exists [].
    by rewrite app_nil_r. }
  destruct Q as [|c rest].
  { rewrite !treeWalk_nil. intros [= <-]. exists []. by rewrite app_nil_r. }
  rewrite !treeWalk_cons. destruct (js_set_has c.1 V); [apply IH|].
  intros Hr. destruct (IH _ (visit c.1 c.2 s) _ _ Hr) as (tr & Htr & Hw).
  exists ((c.1, c.2) :: tr). split; [|done].
  rewrite Htr. unfold record_entry. by rewrite <-app_assoc.
Qed.

End tree_trace.

Lemma bfs_order_ext (R R' : relation string) root tr :
  (∀ a b, R a b ↔ R' a b) → bfs_order R root tr → bfs_order R' root tr.
Proof.
  intros HR [H1 H2 H3 H4].
  assert (Hn : ∀ n a b, nsteps R n a b ↔ nsteps R' n a b).
  { intros n a b. split; apply (nsteps_congruence (λ x, x)); intros ??; apply HR. }
  assert (Hr : ∀ a b, rtc R a b ↔ rtc R' a b).
  { intros a b. split; apply (rtc_congruence (λ x, x)); intros ??; apply HR. }
  split; [done|done| |].
  - intros x. by rewrite <-Hr.
  - intros x L Hx. destruct (H4 x L Hx) as [Ha Hb]. split; [by apply Hn|].
    intros L' HL'. apply Hb. by apply Hn.
Qed.

Lemma count_or_0 o : count_or o 0 = default 0 o.
Proof. by destruct o as [[|n]|]. Qed.

Lemma level_count_app tr1 tr2 L :
  level_count (tr1 ++ tr2) L = level_count tr1 L + level_count tr2 L.
Proof. unfold level_count. by rewrite List.filter_app, length_app. Qed.

Lemma level_count_snoc tr (e : string * nat) L :
  level_count (tr ++ [e]) L = level_count tr L + (if Nat.eqb e.2 L then 1 else 0).
Proof. rewrite level_count_app. unfold level_count at 2. simpl. by destruct (Nat.eqb e.2 L). Qed.



Lemma countLevel_fold tr L :
  foldl (λ s (e : string * nat), countLevel e.1 e.2 s) ∅ tr !! L
  = if Nat.eqb (level_count tr L) 0 then None else Some (level_count tr L).
Proof.
  induction tr as [|e tr IH] using rev_ind; [done|].
  rewrite foldl_app, level_count_snoc. simpl. unfold countLevel at 1.
  destruct (Nat.eqb_spec e.2 L) as [->|Hne]; simpl.
  - rewrite lookup_insert_eq, IH. destruct (Nat.eqb_spec (level_count tr L) 0) as [->|?].
    + done.
    + simpl. destruct (Nat.eqb_spec (level_count tr L) 0); [done|].
      destruct (Nat.eqb_spec (level_count tr L + 1) 0); [lia|done].
  - rewrite lookup_insert_ne, IH by done. by rewrite Nat.add_0_r.
Qed.

Lemma countLevel_fold_width tr x L :
  (x, L) ∈ tr →
  count_or (foldl (λ s (e : string * nat), countLevel e.1 e.2 s) ∅ tr !! L) 1
  = level_count tr L.
Proof.
  intros Hin. rewrite countLevel_fold.
  assert (0 < level_count tr L).
  { apply list_elem_of_split in Hin as (t1 & t2 & ->). rewrite level_count_app.
    unfold level_count at 2. simpl. rewrite Nat.eqb_refl. simpl. lia. }
  destruct (Nat.eqb_spec (level_count tr L) 0); [lia|]. simpl.
  by destruct (Nat.eqb_spec (level_count tr L) 0).
Qed.

Lemma placeNode_fold {N : Type} `{JsNumber N} o (ls ss : N) lw tr :
  NoDup tr.*1 →
  (∀ L, count_or ((foldl (λ s (e : string * nat), placeNode o ls ss lw e.1 e.2 s)
                     (∅, ∅) tr).1 !! L) 0 = level_count tr L)
  ∧ (∀ i x L, tr !! i = Some (x, L) →
       (foldl (λ s (e : string * nat), placeNode o ls ss lw e.1 e.2 s) (∅, ∅) tr).2 !! x
       = Some (treePosition o ls ss (count_or (lw !! L) 1) L (level_count (take i tr) L)))
  ∧ (∀ x, x ∉ tr.*1 →
       (foldl (λ s (e : string * nat), placeNode o ls ss lw e.1 e.2 s) (∅, ∅) tr).2 !! x
       = None).
Proof.
  induction tr as [|e tr IH] using rev_ind; intros Hnd.
  { split_and!; [done| |done]. intros i x L Hi. by rewrite lookup_nil in Hi. }
  rewrite fmap_app in Hnd. apply NoDup_app in Hnd as (Hnd & Hfresh & _).
  destruct (IH Hnd) as (IHa & IHb & IHc). clear IH.
  assert (He : e.1 ∉ tr.*1).
  { intros Hin. apply (Hfresh _ Hin). simpl. by left. }
  rewrite foldl_app. simpl. unfold placeNode at 1 3 5. simpl. split_and!.
  - intros L. rewrite level_count_snoc.
    destruct (Nat.eqb_spec e.2 L) as [->|Hne]; simpl.
    + by rewrite lookup_insert_eq, count_or_0, IHa.
    + rewrite lookup_insert_ne by done. by rewrite IHa, Nat.add_0_r.
  - intros i x L [[Hi Hx]|[-> ->]]%lookup_snoc_Some.
    + rewrite lookup_insert_ne.
      * rewrite (IHb i x L Hx). by rewrite take_app_le by lia.
      * intros Heq. apply He. rewrite Heq. apply list_elem_of_fmap. exists (x, L).
        split; [done|]. by eapply list_elem_of_lookup_2.
    + simpl. by rewrite lookup_insert_eq, take_app_length, IHa.
  - intros x Hx. rewrite fmap_app, elem_of_app in Hx. rewrite lookup_insert_ne.
    + apply IHc. tauto.
    + intros <-. apply Hx. right. simpl. by left.
Qed.

Lemma treePosition_val o ls ss c L j :
  is_val (oriented o (treePosition (N := num) o (Fin ls) (Fin ss) c L j).1
                     (treePosition (N := num) o (Fin ls) (Fin ss) c L j).2).1
         (along L ls)
  ∧ is_val (oriented o (treePosition (N := num) o (Fin ls) (Fin ss) c L j).1
                       (treePosition (N := num) o (Fin ls) (Fin ss) c L j).2).2
           (across j c ss).
Proof.
  assert (Ha : is_val (nmul (nofZ (Z.of_nat L)) (Fin ls)) (along L ls)).
  { apply is_val_nmul; [apply is_val_nofZ|apply is_val_Fin]. }
  assert (Hb : is_val (nmul (nsub (nofZ (Z.of_nat j))
                               (ndiv (nsub (nofZ (Z.of_nat c)) (nofZ 1)) (nofZ 2)))
                         (Fin ss)) (across j c ss)).
  { apply is_val_nmul; [|apply is_val_Fin].
    apply is_val_nsub; [apply is_val_nofZ|].
    apply (is_val_ndiv _ _ (inject_Z (Z.of_nat c) - 1) 2); [|apply is_val_nofZ|done].
    apply (is_val_nsub _ _ _ 1); apply is_val_nofZ. }
  destruct o; split; assumption.
Qed.

Lemma childrenMap_init ids a :
  foldl (λ m i, <[i := []]> m) (∅ : gmap string (list string)) ids !! a
  = if decide (a ∈ ids) then Some [] else None.
Proof.
  induction ids as [|i ids IH] using rev_ind; [done|].
  rewrite foldl_app. simpl. destruct (decide (i = a)) as [->|Hne].
  - rewrite lookup_insert_eq. rewrite decide_True; [done|].
    apply elem_of_app. right. by left.
  - rewrite lookup_insert_ne, IH by done. apply decide_ext.
    rewrite elem_of_app, list_elem_of_singleton. split; [tauto|]. by intros [?|?].
Qed.

Lemma childrenMap_links (ends : list (string * string)) (m : gmap string (list string)) a :
  foldl (λ m '(s, t), alter (λ children, children ++ [t]) s m) m ends !! a
  = (λ cs, cs ++ (filter (λ e : string * string, e.1 = a) ends).*2) <$> m !! a.
Proof.
  revert m. induction ends as [|[s t] ends IH]; intros m; simpl.
  { destruct (m !! a); simpl; [|done]. by rewrite app_nil_r. }
  rewrite IH. destruct (decide (s = a)) as [->|Hne].
  - rewrite lookup_alter_eq, filter_cons_True by done.
    destruct (m !! a); simpl; [|done]. by rewrite <-app_assoc.
  - rewrite lookup_alter_ne, filter_cons_False by done. done.
Qed.

Lemma childrenMap_of_spec ids ends a b :
  child (childrenMap_of ids ends) a b ↔ a ∈ ids ∧ (a, b) ∈ ends.
Proof.
  unfold child, childrenMap_of. rewrite childrenMap_links, childrenMap_init.
  case_decide; simpl.
  - rewrite list_elem_of_fmap. split.
    + intros ([s t] & -> & [Hs Hin]%list_elem_of_filter). simpl in *. by subst s.
    + intros [_ Hin]. exists (a, b). split; [done|]. by apply list_elem_of_filter.
  - split; [by intros ?%elem_of_nil|tauto].
Qed.

Lemma tree_child_spec {N : Type} (data : PGraph N) a b :
  child (childrenMap_of ((λ node, id (pn_node node)) <$> pg_nodes data)
                        (link_ends <$> pg_links data)) a b
  ↔ tree_child data a b.
Proof.
  rewrite childrenMap_of_spec. unfold tree_child. split.
  - intros [Ha (l & [= -> ->] & Hl)%list_elem_of_fmap]. split; [done|]. by exists l.
  - intros [Ha (l & Hl & <- & <-)]. split; [done|]. apply list_elem_of_fmap. by exists l.
Qed.

Lemma treePositions_eq {N : Type} `{JsNumber N} o (ls ss : N) cm root V tr :
  treeTrace (pathway_fuel cm) cm root = Ok (V, tr) →
  treePositions o ls ss cm root
  = Ok (foldl (λ s (e : string * nat),
                 placeNode o ls ss
                   (foldl (λ s (e : string * nat), countLevel e.1 e.2 s) ∅ tr)
                   e.1 e.2 s) (∅, ∅) tr).2.
Proof.
  intros Htr. unfold treePositions, treeTrace in *.
  destruct (treeWalk_trace cm countLevel _ [] ∅ _ [] _ Htr) as (tr1 & Htr1 & ->).
  cbn [rbind fst snd app] in *. subst tr1.
  destruct (treeWalk_trace cm
              (placeNode o ls ss (foldl (λ s (e : string * nat), countLevel e.1 e.2 s) ∅ tr))
              _ [] (∅, ∅) _ [] _ Htr) as (tr1 & Htr1 & ->).
  cbn [rbind fst snd app] in *. by subst tr1.
Qed.

(** What the layout computes. *)
Lemma applyTreeLayout_layout (data : PGraph num) rootNodeId options ls ss :
  default (jofZ 100) (levelSeparation options) = Fin ls →
  default (jofZ 50) (siblingSeparation options) = Fin ss →
  ∃ out, applyTreeLayout data rootNodeId options = Ok out
    ∧ pg_links out = pg_links data
    ∧ Forall2 (λ node node', pn_node node' = pn_node node
                 ∧ pn_fx node' = pn_x node' ∧ pn_fy node' = pn_y node'
                 ∧ pn_fz node' = pn_fz node)
        (pg_nodes data) (pg_nodes out)
    ∧ ∀ root, treeRoot data rootNodeId = Some root →
        ∃ tr, bfs_order (tree_child data) root tr
          ∧ ∀ node', node' ∈ pg_nodes out →
              ∃ x y, pn_x node' = Some x ∧ pn_y node' = Some y
                ∧ (∀ i L, tr !! i = Some (id (pn_node node'), L) →
                     is_val (oriented (default Vertical (orientation options)) x y).1
                            (along L ls)
                     ∧ is_val (oriented (default Vertical (orientation options)) x y).2
                              (across (level_count (take i tr) L) (level_count tr L) ss))
                ∧ (id (pn_node node') ∉ tr.*1 → x = Fin 0 ∧ y = Fin 0).
Proof.
  intros Hls Hss. unfold applyTreeLayout. rewrite Hls, Hss.
  set (cm := childrenMap_of _ _). set (o := default Vertical (orientation options)).
  destruct (treeRoot data rootNodeId) as [root|].
  - destruct (treeTrace_spec cm root) as (V & tr & Htr & Hbfs).
    rewrite (treePositions_eq o (Fin ls) (Fin ss) cm root V tr Htr).
    set (lw := foldl _ ∅ tr).
    destruct (placeNode_fold o (Fin ls) (Fin ss) lw tr (bfs_once _ _ _ Hbfs))
      as (_ & Hpos & Hnone).
    cbn [rbind]. eexists. split; [done|]. cbn [pg_links pg_nodes]. split_and!.
    + done.
    + apply Forall2_map_r. done.
    + intros ? [= <-]. exists tr. split.
      { eapply bfs_order_ext; [|exact Hbfs]. intros a b. apply tree_child_spec. }
      intros node' (node & -> & Hnode)%list_elem_of_fmap. cbn [pn_x pn_y pn_node].
      do 2 eexists. split_and!; [done|done| |].
      * intros i L Hi. rewrite (Hpos i _ L Hi). simpl.
        unfold lw. rewrite (countLevel_fold_width tr (id (pn_node node)) L)
          by (by eapply list_elem_of_lookup_2).
        apply treePosition_val.
      * intros Hout. by rewrite (Hnone _ Hout).
  - cbn [rbind]. eexists. split; [done|]. cbn [pg_links pg_nodes].
    split_and!; [done| |done]. apply Forall2_map_r. done.
Qed.

(** X17: [applyTreeLayout] with finite separations returns, with the
    links unchanged and every node kept in place with [fx = x], [fy = y]
    and its [fz]; when [root] is the root, the nodes that links reach from
    [root], through sources that are nodes, are laid out in breadth-first
    order: a node whose shortest path from the root has [L] links is at
    [L] times [levelSeparation] along the levels, and the [c] nodes of a
    level are at the ranks [0 .. c-1], in the order of their visit,
    [siblingSeparation] apart and centred on 0 across the level; every
    other node is put at (0, 0). *)
Theorem applyTreeLayout_levels (data : PGraph num) rootNodeId options ls ss :
  default (jofZ 100) (levelSeparation options) = Fin ls →
  default (jofZ 50) (siblingSeparation options) = Fin ss →
  ∃ out, applyTreeLayout data rootNodeId options = Ok out
    ∧ pg_links out = pg_links data
    ∧ Forall2 (λ node node', pn_node node' = pn_node node
                 ∧ pn_fx node' = pn_x node' ∧ pn_fy node' = pn_y node'
                 ∧ pn_fz node' = pn_fz node)
        (pg_nodes data) (pg_nodes out)
    ∧ ∀ root, treeRoot data rootNodeId = Some root →
        ∃ tr, bfs_order (tree_child data) root tr
          ∧ ∀ node', node' ∈ pg_nodes out →
              ∃ x y, pn_x node' = Some x ∧ pn_y node' = Some y
                ∧ (∀ i L, tr !! i = Some (id (pn_node node'), L) →
                     is_val (oriented (default Vertical (orientation options)) x y).1
                            (along L ls)
                     ∧ is_val (oriented (default Vertical (orientation options)) x y).2
                              (across (level_count (take i tr) L) (level_count tr L) ss))
                ∧ (id (pn_node node') ∉ tr.*1 → x = Fin 0 ∧ y = Fin 0).
Proof. apply applyTreeLayout_layout. Qed.

Lemma applyTreeLayout_levels_witness :
  ∃ out, applyTreeLayout tree_scenario None no_options = Ok out
    ∧ pg_links out = pg_links tree_scenario
    ∧ Forall2 (λ node node', pn_node node' = pn_node node
                 ∧ pn_fx node' = pn_x node' ∧ pn_fy node' = pn_y node'
                 ∧ pn_fz node' = pn_fz node)
        (pg_nodes tree_scenario) (pg_nodes out)
    ∧ ∀ root, treeRoot tree_scenario None = Some root →
        ∃ tr, bfs_order (tree_child tree_scenario) root tr
          ∧ ∀ node', node' ∈ pg_nodes out →
              ∃ x y, pn_x node' = Some x ∧ pn_y node' = Some y
                ∧ (∀ i L, tr !! i = Some (id (pn_node node'), L) →
                     is_val (oriented Vertical x y).1 (along L 100)
                     ∧ is_val (oriented Vertical x y).2
                              (across (level_count (take i tr) L) (level_count tr L) 50))
                ∧ (id (pn_node node') ∉ tr.*1 → x = Fin 0 ∧ y = Fin 0).
Proof. apply (applyTreeLayout_levels tree_scenario None no_options 100 50); reflexivity. Defined.







Lemma parentMap_of_spec (ends : list (string * string)) t :
  is_Some (parentMap_of ends !! t) ↔ t ∈ ends.*2.
Proof.
  unfold parentMap_of. induction ends as [|[a b] ends IH] using rev_ind.
  { simpl. rewrite lookup_empty. split; [by intros [? ?]|by intros ?%elem_of_nil]. }
  rewrite foldl_app, fmap_app, elem_of_app. simpl.
  rewrite lookup_insert_is_Some, IH, list_elem_of_singleton.
  destruct (decide (b = t)); naive_solver.
Qed.

Lemma has_parent_spec {N : Type} (data : PGraph N) x :
  is_Some (parentMap_of (link_ends <$> pg_links data) !! x) ↔ is_target data x.
Proof.
  rewrite parentMap_of_spec. unfold is_target. rewrite <-list_fmap_compose. split.
  - intros (l & -> & Hl)%list_elem_of_fmap. by exists l.
  - intros (l & Hl & <-). apply list_elem_of_fmap. by exists l.
Qed.

Lemma find_first {A : Type} (p : A → bool) (l : list A) i x :
  l !! i = Some x → p x = true →
  (∀ j y, j < i → l !! j = Some y → p y = false) →
  List.find p l = Some x.
Proof.
  revert i. induction l as [|a l IH]; intros [|i] Hi Hx Hbefore; simplify_eq/=.
  - by rewrite Hx.
  - rewrite (Hbefore O a) by (done || lia). apply (IH i); [done|done|].
    intros j y Hj Hy. apply (Hbefore (S j) y); [lia|done].
Qed.

Lemma find_none_all {A : Type} (p : A → bool) (l : list A) :
  (∀ y, y ∈ l → p y = false) → List.find p l = None.
Proof.
  induction l as [|a l IH]; intros Hall; simpl; [done|].
  rewrite (Hall a) by (by left). apply IH. intros y Hy. apply Hall. by right.
Qed.

(** X19: the root of the tree layout.  A root id other than the empty
    string is taken as it is.  Without one, the root is the first node, in
    the order of [data.nodes], in which no link ends, when the id of that
    node is not the empty string; when a link ends in every node, it is
    the first node. *)
Theorem treeRoot_choice {N : Type} (data : PGraph N) :
  (∀ r, r ≠ EmptyString → treeRoot data (Some r) = Some r)
  ∧ (∀ rootNodeId i node,
       no_root rootNodeId = true →
       pg_nodes data !! i = Some node →
       id (pn_node node) ≠ EmptyString →
       ¬ is_target data (id (pn_node node)) →
       (∀ j node', j < i → pg_nodes data !! j = Some node' →
          is_target data (id (pn_node node'))) →
       treeRoot data rootNodeId = Some (id (pn_node node)))
  ∧ (∀ rootNodeId,
       no_root rootNodeId = true →
       (∀ node, node ∈ pg_nodes data → is_target data (id (pn_node node))) →
       treeRoot data rootNodeId = (λ node, id (pn_node node)) <$> head (pg_nodes data)).
Proof.
  assert (Hne : ∀ r, r ≠ EmptyString → no_root (Some r) = false).
  { intros r Hr. simpl. by apply String.eqb_neq. }
  split_and!.
  - intros r Hr. unfold treeRoot; cbv zeta. by rewrite !(Hne r Hr).
  - intros rootNodeId i node Hno Hi Hid Hfree Hbefore. unfold treeRoot; cbv zeta.
    rewrite Hno. rewrite (find_first _ _ i node Hi).
    + cbn [fmap option_fmap option_map]. by rewrite (Hne _ Hid).
    + apply negb_true_iff, bool_decide_eq_false. by rewrite has_parent_spec.
    + intros j node' Hj Hnode'. apply negb_false_iff, bool_decide_eq_true.
      rewrite has_parent_spec. by apply (Hbefore j).
  - intros rootNodeId Hno Hall. unfold treeRoot; cbv zeta. rewrite Hno.
    rewrite find_none_all; [done|].
    intros node Hnode. apply negb_false_iff, bool_decide_eq_true.
    rewrite has_parent_spec. by apply Hall.
Qed.

Lemma treeRoot_choice_witness :
  treeRoot tree_scenario None = Some "R"%string.
Proof.
  apply (proj1 (proj2 (treeRoot_choice tree_scenario)) None O (tree_pnode "R")).
  - reflexivity.
  - reflexivity.
  - done.
  - intros (l & Hl & Ht). unfold tree_scenario in Hl. cbn [pg_links] in Hl.
    repeat (apply elem_of_cons in Hl as [->|Hl]; [by vm_compute in Ht|]).
    by apply elem_of_nil in Hl.
  - intros j node' Hj. lia.
Defined.

(** X20: when the root id that is given is the id of no node,
    [applyTreeLayout] puts every node at (0, 0), whatever the links and
    the options are. *)
Theorem applyTreeLayout_unknown_root {N : Type} `{JsNumber N} (data : PGraph N)
    (r : string) (options : TreeLayoutOptions N) :
  r ≠ EmptyString →
  r ∉ (λ node, id (pn_node node)) <$> pg_nodes data →
  applyTreeLayout data (Some r) options
  = Ok (mkPGraph
          (List.map (λ node, mkPNode (pn_node node) (Some (jofZ 0)) (Some (jofZ 0))
                                     (Some (jofZ 0)) (Some (jofZ 0)) (pn_fz node))
             (pg_nodes data))
          (pg_links data)).
Proof.
  intros Hr Hnot. unfold applyTreeLayout.
  rewrite (proj1 (treeRoot_choice data) r Hr).
  set (cm := childrenMap_of _ _).
  destruct (treeTrace_spec cm r) as (V & tr & Htr & [_ Honce Hreach _]).
  rewrite (treePositions_eq _ _ _ cm r V tr Htr). cbn [rbind].
  do 2 f_equal. apply List.map_ext_in. intros node Hnode%list_elem_of_In.
  match goal with |- context [placeNode ?o ?a ?b ?lw] =>
    destruct (placeNode_fold o a b lw tr Honce) as (_ & _ & Hnone) end.
  rewrite Hnone; [done|].
  rewrite Hreach. intros Hrtc. apply Hnot.
  apply rtc_inv in Hrtc as [->|(y & Hxy & _)].
  - apply list_elem_of_fmap. by exists node.
  - by apply childrenMap_of_spec in Hxy as [Hx _].
Qed.

Lemma applyTreeLayout_unknown_root_witness :
  applyTreeLayout tree_scenario (Some "Q"%string) no_options
  = Ok (mkPGraph
          (List.map (λ node, mkPNode (pn_node node) (Some (jofZ 0)) (Some (jofZ 0))
                                     (Some (jofZ 0)) (Some (jofZ 0)) (pn_fz node))
             (pg_nodes tree_scenario))
          (pg_links tree_scenario)).
Proof.
  apply (applyTreeLayout_unknown_root tree_scenario "Q" no_options); [done|].
  apply (bool_decide_unpack _). by vm_compute.
Defined.
